(** * DELILA event-stream decoder: a shallow embedding of the two ROOT macros

    The repository ships the same hand-written MessagePack reader twice:
    - [macros/read_delila.C]      (summary reader: six-field events only),
    - [macros/convert_to_tree.C]  (full reader: events with optional waveform).

    [read_array_header], [read_uint] and [read_float64] are textually identical
    in both files and are embedded once (section "Shared decode primitives"),
    and so is the block loop of the two entry points (section [Streaming]).
    What differs lives in the modules [ConvertToTree] and [ReadDelila].

    Conventions of the embedding
    - [data_] is a [list byte]; [pos_] and every [size_t] quantity is a [nat];
    - decoded integers are [Z], with the C++ conversions written out
      ([cast_u8], [cast_i16], [cast_int], ...);
    - a [double] is carried as its 64-bit IEEE-754 pattern;
    - a member function [bool f(T& out)] becomes [f data pos : outcome T * nat]:
      [Ok v] for [true] with [out = v], [Fail] for [false], and [Fault] when
      the function would index [data_] outside its bounds (undefined behaviour
      in C++: nothing is said about what happens from there on); the second
      component is [pos_] when the call ended;
    - stores through the raw output pointers ([arr[i] = v], [memcpy]) are
      recorded in program order as a list of (index, value) pairs;
    - a file is the list of its bytes; what the programs print to
      [std::cerr] is kept as a list of [diagnostic]s.
    Left out: memory exhaustion ([std::vector], [reserve]), failure to open
    a file, and everything ROOT does with the decoded events. *)

From Stdlib Require Import ZArith List Lia Bool.
From Stdlib Require Import Strings.Byte.
From stdpp Require Import base tactics option list numbers.

Open Scope Z_scope.

(** ** Bytes and integer conversions *)

(** Value of a [uint8_t]. *)
Definition u8 (b : byte) : Z := Z.of_N (Byte.to_N b).

(** Bytes are compared through their values ([memcmp] on the magic). *)
#[global] Instance byte_eq_decision : EqDecision byte := Byte.byte_eq_dec.

(** [data_[i]], defined only inside the vector. *)
Definition byte_at (data : list byte) (i : nat) : option Z := u8 <$> data !! i.

(** [data_.size()] *)
Definition size (data : list byte) : nat := length data.

(** Conversion to an unsigned type of [w] bits. *)
Definition cast_unsigned (w : Z) (z : Z) : Z := z mod 2 ^ w.

(** Conversion to a signed two's complement type of [w] bits. *)
Definition cast_signed (w : Z) (z : Z) : Z :=
  (z + 2 ^ (w - 1)) mod 2 ^ w - 2 ^ (w - 1).

Definition cast_u8 : Z -> Z := cast_unsigned 8.
Definition cast_u16 : Z -> Z := cast_unsigned 16.
Definition cast_u32 : Z -> Z := cast_unsigned 32.
Definition cast_u64 : Z -> Z := cast_unsigned 64.
Definition cast_i8 : Z -> Z := cast_signed 8.
Definition cast_i16 : Z -> Z := cast_signed 16.
Definition cast_i32 : Z -> Z := cast_signed 32.
Definition cast_i64 : Z -> Z := cast_signed 64.
(** [static_cast<int>(...)], [int] being 32 bits wide. *)
Definition cast_int : Z -> Z := cast_signed 32.

(** [(data_[p] << 8) | data_[p + 1]] *)
Definition be16 (data : list byte) (p : nat) : option Z :=
  b0 ← byte_at data p;
  b1 ← byte_at data (p + 1);
  Some (Z.lor (Z.shiftl b0 8) b1).

(** The four-byte big-endian combination, computed in [uint32_t]. *)
Definition be32 (data : list byte) (p : nat) : option Z :=
  b0 ← byte_at data p;
  b1 ← byte_at data (p + 1);
  b2 ← byte_at data (p + 2);
  b3 ← byte_at data (p + 3);
  Some (Z.lor (Z.lor (Z.lor (Z.shiftl b0 24) (Z.shiftl b1 16))
                     (Z.shiftl b2 8)) b3).

(** The eight-byte big-endian combination, computed in [uint64_t]. *)
Definition be64 (data : list byte) (p : nat) : option Z :=
  b0 ← byte_at data p;
  b1 ← byte_at data (p + 1);
  b2 ← byte_at data (p + 2);
  b3 ← byte_at data (p + 3);
  b4 ← byte_at data (p + 4);
  b5 ← byte_at data (p + 5);
  b6 ← byte_at data (p + 6);
  b7 ← byte_at data (p + 7);
  Some (Z.lor (Z.lor (Z.lor (Z.lor (Z.lor (Z.lor (Z.lor
    (Z.shiftl b0 56) (Z.shiftl b1 48)) (Z.shiftl b2 40)) (Z.shiftl b3 32))
    (Z.shiftl b4 24)) (Z.shiftl b5 16)) (Z.shiftl b6 8)) b7).

(** ** The parser as a state-and-failure computation over [pos_] *)

Inductive outcome (A : Type) : Type :=
| Ok (a : A)      (* returned [true] *)
| Fail            (* returned [false] *)
| Fault.          (* indexed [data_] out of bounds *)
Arguments Ok {A} a.
Arguments Fail {A}.
Arguments Fault {A}.

Definition parser (A : Type) : Type := nat -> outcome A * nat.

Definition ret {A} (a : A) : parser A := fun pos => (Ok a, pos).

Definition fail {A} : parser A := fun pos => (Fail, pos).

(** [if (!m(x)) return false; k(x)] *)
Definition bind {A B} (m : parser A) (k : A -> parser B) : parser B :=
  fun pos =>
    match m pos with
    | (Ok a, pos') => k a pos'
    | (Fail, pos') => (Fail, pos')
    | (Fault, pos') => (Fault, pos')
    end.

Declare Scope parser_scope.
Delimit Scope parser_scope with parser.
Notation "'let*' x := m 'in' k" := (bind m (fun x => k))
  (at level 10, x name, m at level 100, k at level 200) : parser_scope.

(** An indexed read whose bounds the caller has (or has not) checked. *)
Definition fetched {A} (o : option A) (pos : nat) : outcome A * nat :=
  match o with
  | Some v => (Ok v, pos)
  | None => (Fault, pos)
  end.

(** Forgetting the decoded value: what is left is the returned [bool]. *)
Definition status {A} (o : outcome A) : outcome unit :=
  match o with
  | Ok _ => Ok tt
  | Fail => Fail
  | Fault => Fault
  end.

(** ** Shared decode primitives (identical in both macros) *)

(** [bool read_array_header(size_t& size)] *)
Definition read_array_header (data : list byte) : parser nat := fun pos =>
  if (size data <=? pos)%nat then (Fail, pos)
  else
    match byte_at data pos with
    | None => (Fault, pos)
    | Some b =>
      let pos := S pos in
      if Z.land b 0xf0 =? 0x90 then (Ok (Z.to_nat (Z.land b 0x0f)), pos)
      else if (b =? 0xdc) && (pos + 2 <=? size data)%nat then
        fetched (Z.to_nat <$> be16 data pos) (pos + 2)%nat
      else if (b =? 0xdd) && (pos + 4 <=? size data)%nat then
        fetched (Z.to_nat <$> be32 data pos) (pos + 4)%nat
      else (Fail, pos)
    end.

(** [bool read_uint(uint64_t& val)] *)
Definition read_uint (data : list byte) : parser Z := fun pos =>
  if (size data <=? pos)%nat then (Fail, pos)
  else
    match byte_at data pos with
    | None => (Fault, pos)
    | Some b =>
      let pos := S pos in
      if b <=? 0x7f then (Ok b, pos)
      else if (b =? 0xcc) && (pos + 1 <=? size data)%nat then
        fetched (byte_at data pos) (S pos)
      else if (b =? 0xcd) && (pos + 2 <=? size data)%nat then
        fetched (be16 data pos) (pos + 2)%nat
      else if (b =? 0xce) && (pos + 4 <=? size data)%nat then
        fetched (be32 data pos) (pos + 4)%nat
      else if (b =? 0xcf) && (pos + 8 <=? size data)%nat then
        fetched (be64 data pos) (pos + 8)%nat
      else (Fail, pos)
    end.

(** [bool read_float64(double& val)]; the result is the bit pattern that the
    code copies into the [double]. *)
Definition read_float64 (data : list byte) : parser Z := fun pos =>
  if (size data <=? pos)%nat then (Fail, pos)
  else
    match byte_at data pos with
    | None => (Fault, pos)
    | Some b =>
      let pos := S pos in
      if (b =? 0xcb) && (pos + 8 <=? size data)%nat then
        fetched (be64 data pos) (pos + 8)%nat
      else (Fail, pos)
    end.

(** ** File framing: the input stream *)

(** [const char* FILE_MAGIC = "DELILA02";] *)
Definition FILE_MAGIC : list byte :=
  [x44; x45; x4c; x49; x4c; x41; x30; x32].
(** [const char* FOOTER_MAGIC = "DLEND002";] *)
Definition FOOTER_MAGIC : list byte :=
  [x44; x4c; x45; x4e; x44; x30; x30; x32].
(** [const size_t FOOTER_SIZE = 64;] *)
Definition FOOTER_SIZE : nat := 64.

(** A [std::ifstream] opened on a file: the file's bytes, the get position
    and whether [failbit] is set.  In these programs [eofbit] is only ever
    set together with [failbit] (by a short [read]), so [good()] is
    [negb failbit]. *)
Record ifstream : Type := mk_ifstream {
  contents : list byte;
  gpos : nat;
  failbit : bool
}.

Definition open_file (file : list byte) : ifstream := mk_ifstream file 0 false.

Definition good (f : ifstream) : bool := negb (failbit f).

(** [f.tellg()]: -1 once the stream has failed. *)
Definition tellg (f : ifstream) : Z :=
  if failbit f then -1 else Z.of_nat (gpos f).

(** [f.read(buf, n)]: the bytes delivered and the stream afterwards.  A
    failed stream delivers nothing; a short read delivers what is left and
    sets [failbit]. *)
Definition stream_read (n : nat) (f : ifstream) : list byte * ifstream :=
  if failbit f then ([], f)
  else
    let got := take n (drop (gpos f) (contents f)) in
    if (length got <? n)%nat
    then (got, mk_ifstream (contents f) (gpos f + length got) true)
    else (got, mk_ifstream (contents f) (gpos f + n) false).

(** [f.seekg(p, std::ios::beg)]; seeking past the end of a file is allowed,
    a negative target fails. *)
Definition seekg_beg (p : Z) (f : ifstream) : ifstream :=
  if failbit f then f
  else if p <? 0 then mk_ifstream (contents f) (gpos f) true
  else mk_ifstream (contents f) (Z.to_nat p) false.

(** [f.seekg(off, std::ios::cur)] *)
Definition seekg_cur (off : Z) (f : ifstream) : ifstream :=
  seekg_beg (Z.of_nat (gpos f) + off) f.

(** Cell [i] of a local buffer that [read] was asked to fill.  Cells a short
    read leaves untouched are indeterminate in C++; they read as 0 here. *)
Definition buf_at (buf : list byte) (i : nat) : Z :=
  default 0 (u8 <$> buf !! i).

(** [uint32_t read_u32_le(std::ifstream& f)] *)
Definition read_u32_le (f : ifstream) : Z * ifstream :=
  let '(buf, f) := stream_read 4 f in
  (cast_u32 (Z.lor (Z.lor (Z.lor (buf_at buf 0) (Z.shiftl (buf_at buf 1) 8))
                          (Z.shiftl (buf_at buf 2) 16))
                   (Z.shiftl (buf_at buf 3) 24)), f).

(** [uint64_t read_u64_le(std::ifstream& f)] *)
Definition read_u64_le (f : ifstream) : Z * ifstream :=
  let '(buf, f) := stream_read 8 f in
  (Z.lor (Z.lor (Z.lor (Z.lor (Z.lor (Z.lor (Z.lor
     (buf_at buf 0) (Z.shiftl (buf_at buf 1) 8)) (Z.shiftl (buf_at buf 2) 16))
     (Z.shiftl (buf_at buf 3) 24)) (Z.shiftl (buf_at buf 4) 32))
     (Z.shiftl (buf_at buf 5) 40)) (Z.shiftl (buf_at buf 6) 48))
     (Z.shiftl (buf_at buf 7) 56), f).

(** [double read_f64_le(std::ifstream& f)], as a bit pattern. *)
Definition read_f64_le (f : ifstream) : Z * ifstream := read_u64_le f.

(** [bool read_header(std::ifstream& f, size_t& header_end_pos)] *)
Definition read_header (f : ifstream) : option Z * ifstream :=
  let '(magic, f) := stream_read 8 f in
  if negb (bool_decide (magic = FILE_MAGIC)) then (None, f)
  else
    let '(header_len, f) := read_u32_le f in
    let f := seekg_cur header_len f in
    (Some (cast_u64 (tellg f)), f).

(** Lines the programs write to [std::cerr]. *)
Inductive diagnostic : Type :=
| InvalidFileMagic
| FileTooSmallForFooter
| InvalidFooterMagic
| InvalidBlockLength (block_len : Z)
| ReadErrorAtBlock (block : Z)
| FailedToParseBlock (block : Z)
| FailedToParseEvent (event : Z)
| UnexpectedEventArraySize (ev_size : nat)
| UnexpectedWaveformArraySize (wf_size : option nat).
(** The last line prints a variable that nothing has assigned when
    [read_array_header] returned [false]: [None] stands for that case. *)

(** How the block loop was left. *)
Inductive loop_exit : Type :=
| AtDataEnd          (* the [while] condition became false *)
| BadBlockLength     (* [break] after the length check *)
| ReadError          (* [break] after [!f.good()] *)
| BodyBreak          (* a [break] in the rest of the body *)
| Undefined          (* the parser indexed outside the block *)
| OutOfFuel.

(** ** The block loop shared by [read_delila] and [convert_to_tree]

    Both entry points run the same [while] loop; they differ in what they do
    with a block once it is in memory ([process_block]) and in the state
    they carry ([Acc]).  [process_block] answers whether the body ran to its
    end ([Continue]) or left the loop with [break]. *)

Inductive body_result (Acc : Type) : Type :=
| Continue (acc : Acc) (log : list diagnostic)
| Break (acc : Acc) (log : list diagnostic)
| BodyUndefined.
Arguments Continue {Acc} acc log.
Arguments Break {Acc} acc log.
Arguments BodyUndefined {Acc}.

Record loop_result (Acc : Type) : Type := mk_loop_result {
  lr_exit : loop_exit;
  lr_stream : ifstream;
  lr_acc : Acc;
  lr_log : list diagnostic
}.
Arguments mk_loop_result {Acc} _ _ _ _.
Arguments lr_exit {Acc} _.
Arguments lr_stream {Acc} _.
Arguments lr_acc {Acc} _.
Arguments lr_log {Acc} _.

Section Streaming.
Context {Acc : Type}.
Variable block_count_of : Acc -> Z.
Variable process_block : list byte -> Acc -> body_result Acc.
(** [static_cast<std::streampos>(data_end)] *)
Variable data_end : Z.

(** [while (f.tellg() < data_end) { ... }]; [log] collects the
    diagnostics in the order they are printed. *)
Fixpoint stream_blocks (fuel : nat) (f : ifstream) (acc : Acc)
    (log : list diagnostic) : loop_result Acc :=
  match fuel with
  | O => mk_loop_result OutOfFuel f acc log
  | S fuel =>
    if negb (tellg f <? data_end) then mk_loop_result AtDataEnd f acc log
    else
      let '(block_len, f) := read_u32_le f in
      if (block_len =? 0) || (100000000 <? block_len) then
        mk_loop_result BadBlockLength f acc
                       (log ++ [InvalidBlockLength block_len])
      else
        let '(block_data, f) := stream_read (Z.to_nat block_len) f in
        if negb (good f) then
          mk_loop_result ReadError f acc
                         (log ++ [ReadErrorAtBlock (block_count_of acc)])
        else
          match process_block block_data acc with
          | BodyUndefined => mk_loop_result Undefined f acc log
          | Break acc' l => mk_loop_result BodyBreak f acc' (log ++ l)
          | Continue acc' l => stream_blocks fuel f acc' (log ++ l)
          end
  end.
End Streaming.

(** ** The full reader, [macros/convert_to_tree.C] *)

Module ConvertToTree.

(** [const int MAX_WAVEFORM_SAMPLES = 16384;] *)
Definition MAX_WAVEFORM_SAMPLES : Z := 16384.

(** [bool read_int(int64_t& val)]: the tag is only peeked; each branch
    advances [pos_] itself, and the last resort is [read_uint]. *)
Definition read_int (data : list byte) : parser Z := fun pos =>
  if (size data <=? pos)%nat then (Fail, pos)
  else
    match byte_at data pos with
    | None => (Fault, pos)
    | Some b =>
      if b <=? 0x7f then (Ok b, S pos)
      else if 0xe0 <=? b then (Ok (cast_i8 b), S pos)
      else if (b =? 0xd0) && (pos + 2 <=? size data)%nat then
        fetched (cast_i8 <$> byte_at data (S pos)) (S (S pos))
      else if (b =? 0xd1) && (pos + 3 <=? size data)%nat then
        fetched (cast_i16 <$> be16 data (S pos)) (S pos + 2)%nat
      else if (b =? 0xd2) && (pos + 5 <=? size data)%nat then
        fetched (cast_i32 <$> be32 data (S pos)) (S pos + 4)%nat
      else
        match read_uint data pos with
        | (Ok uval, pos') => (Ok (cast_i64 uval), pos')
        | (Fail, pos') => (Fail, pos')
        | (Fault, pos') => (Fault, pos')
        end
    end.

(** What a sample reader leaves behind: how it returned, the value of the
    reference parameter [n], the stores made through [arr] in program
    order, and [pos_]. *)
Record array_read : Type := mk_array_read {
  ar_res : outcome unit;
  ar_n : Z;
  ar_stores : list (nat * Z);
  ar_pos : nat
}.

(** [std::memcpy(arr, &data_[pos], n)], [n] an [int] converted to [size_t].
    The call is defined when the [n] source bytes lie inside [data_]; then
    cell [k] of [arr] receives byte [k] of the source, for every [k] below
    [n].  [read_bin] records no store for a call that is not defined. *)
Definition memcpy_source (data : list byte) (pos : nat) (n : Z) : list byte :=
  take (Z.to_nat (cast_u64 n)) (drop pos data).

Definition memcpy_stores (data : list byte) (pos : nat) (n : Z)
  : list (nat * Z) :=
  imap (fun k b => (k, u8 b)) (memcpy_source data pos n).

(** The copy leaves [data_] when fewer than [n] source bytes exist. *)
Definition memcpy_faults (data : list byte) (pos : nat) (n : Z) : bool :=
  (length (drop pos data) <? Z.to_nat (cast_u64 n))%nat.

(** The element loop shared in shape by [read_i16_array] and the array
    branch of [read_u8_array]: [count] iterations starting at index [i];
    [rd] decodes one element and [conv] is the cast of the store. *)
Fixpoint read_elems (rd : parser Z) (conv : Z -> Z) (max_size : Z)
    (count i : nat) (pos : nat) : outcome unit * list (nat * Z) * nat :=
  match count with
  | O => (Ok tt, [], pos)
  | S count' =>
    match rd pos with
    | (Fail, pos') => (Fail, [], pos')
    | (Fault, pos') => (Fault, [], pos')
    | (Ok val, pos') =>
      let st := if cast_int (Z.of_nat i) <? max_size
                then [(i, conv val)] else [] in
      let '(res, sts, p) := read_elems rd conv max_size count' (S i) pos' in
      (res, st ++ sts, p)
    end
  end.

(** [bool read_i16_array(int& n, int16_t* arr, int max_size)] *)
Definition read_i16_array (data : list byte) (max_size : Z) (n : Z)
    (pos : nat) : array_read :=
  match read_array_header data pos with
  | (Fail, pos') => mk_array_read Fail n [] pos'
  | (Fault, pos') => mk_array_read Fault n [] pos'
  | (Ok sz, pos') =>
    let n := Z.min (cast_int (Z.of_nat sz)) max_size in
    let '(res, sts, p) :=
      read_elems (read_int data) cast_i16 max_size sz 0 pos' in
    mk_array_read res n sts p
  end.

(** The tag and length prefix of [read_bin]: the declared length and the
    position of the first payload byte. *)
Definition bin_header (data : list byte) : parser nat := fun pos =>
  if (size data <=? pos)%nat then (Fail, pos)
  else
    match byte_at data pos with
    | None => (Fault, pos)
    | Some b =>
      let pos := S pos in
      if (b =? 0xc4) && (pos + 1 <=? size data)%nat then
        fetched (Z.to_nat <$> byte_at data pos) (S pos)
      else if (b =? 0xc5) && (pos + 2 <=? size data)%nat then
        fetched (Z.to_nat <$> be16 data pos) (pos + 2)%nat
      else if (b =? 0xc6) && (pos + 4 <=? size data)%nat then
        fetched (Z.to_nat <$> be32 data pos) (pos + 4)%nat
      else (Fail, pos)
    end.

(** [bool read_bin(int& n, uint8_t* arr, int max_size)].  The size test
    lets an empty byte string through that ends the buffer; [&data_[pos_]]
    then subscripts the vector at [data_.size()]. *)
Definition read_bin (data : list byte) (max_size : Z) (n : Z) (pos : nat)
  : array_read :=
  match bin_header data pos with
  | (Fail, pos') => mk_array_read Fail n [] pos'
  | (Fault, pos') => mk_array_read Fault n [] pos'
  | (Ok sz, pos') =>
    let n := Z.min (cast_int (Z.of_nat sz)) max_size in
    if (size data <? pos' + sz)%nat then mk_array_read Fail n [] pos'
    else
      match byte_at data pos' with     (* the subscript of [&data_[pos_]] *)
      | None => mk_array_read Fault n [] pos'
      | Some _ =>
        if memcpy_faults data pos' n then mk_array_read Fault n [] pos'
        else mk_array_read (Ok tt) n (memcpy_stores data pos' n)
                           (pos' + sz)%nat
      end
  end.

(** [bool read_u8_array(int& n, uint8_t* arr, int max_size)] *)
Definition read_u8_array (data : list byte) (max_size : Z) (n : Z)
    (pos : nat) : array_read :=
  if (size data <=? pos)%nat then mk_array_read Fail n [] pos
  else
    match byte_at data pos with
    | None => mk_array_read Fault n [] pos
    | Some b =>
      if (b =? 0xc4) || (b =? 0xc5) || (b =? 0xc6) then
        read_bin data max_size n pos
      else
        match read_array_header data pos with
        | (Fail, pos') => mk_array_read Fail n [] pos'
        | (Fault, pos') => mk_array_read Fault n [] pos'
        | (Ok sz, pos') =>
          let n := Z.min (cast_int (Z.of_nat sz)) max_size in
          let '(res, sts, p) :=
            read_elems (read_uint data) cast_u8 max_size sz 0 pos' in
          mk_array_read res n sts p
        end
    end.

(** The destination array after a sequence of stores.  [arr] stands for the
    cells the caller allocated ([new T[MAX_WAVEFORM_SAMPLES]]). *)
Definition run_stores (stores : list (nat * Z)) (arr : list Z) : list Z :=
  fold_left (fun a st => <[fst st := snd st]> a) stores arr.

(** One probe as [parse_waveform] hands it on: the count [n] and the stores
    made into its array. *)
Record probe : Type := mk_probe { n_samples : Z; samples : list (nat * Z) }.

Definition no_probe : probe := mk_probe 0 [].

(** What [TTree::Fill] takes from a probe branch [arr[n]]: the first [n]
    cells of the array. *)
Definition probe_cells (arr : list Z) (p : probe) : list Z :=
  take (Z.to_nat (n_samples p)) (run_stores (samples p) arr).

Definition as_probe (r : nat -> array_read) : parser probe := fun pos =>
  let a := r pos in
  (match ar_res a with
   | Ok _ => Ok (mk_probe (ar_n a) (ar_stores a))
   | Fail => Fail
   | Fault => Fault
   end, ar_pos a).

Record waveform : Type := mk_waveform {
  analog1 : probe; analog2 : probe;
  digital1 : probe; digital2 : probe; digital3 : probe; digital4 : probe;
  time_resolution : Z; trigger_threshold : Z
}.

(** The values [parse_event] assigns before it looks at the waveform. *)
Definition no_waveform : waveform :=
  mk_waveform no_probe no_probe no_probe no_probe no_probe no_probe 0 0.

Record event : Type := mk_event {
  module : Z; channel : Z; energy : Z; energy_short : Z;
  timestamp_ns : Z; flags : Z;
  has_waveform : bool; wf : waveform
}.

Open Scope parser_scope.

(** [bool parse_waveform(...)]; the counts are 0 when it is entered.  The
    line it prints when it refuses the array header is [parse_waveform_log]
    below. *)
Definition parse_waveform (data : list byte) : parser waveform :=
  let* wf_size := read_array_header data in
  if negb (wf_size =? 8)%nat then fail else
  let* a1 := as_probe (read_i16_array data MAX_WAVEFORM_SAMPLES 0) in
  let* a2 := as_probe (read_i16_array data MAX_WAVEFORM_SAMPLES 0) in
  let* d1 := as_probe (read_u8_array data MAX_WAVEFORM_SAMPLES 0) in
  let* d2 := as_probe (read_u8_array data MAX_WAVEFORM_SAMPLES 0) in
  let* d3 := as_probe (read_u8_array data MAX_WAVEFORM_SAMPLES 0) in
  let* d4 := as_probe (read_u8_array data MAX_WAVEFORM_SAMPLES 0) in
  let* tmp := read_uint data in
  let tr := cast_u8 tmp in
  let* tmp := read_uint data in
  let tt := cast_u16 tmp in
  ret (mk_waveform a1 a2 d1 d2 d3 d4 tr tt).

(** What a call of [parse_waveform] at [pos] writes to [std::cerr]:
    ["Warning: Unexpected waveform array size: "] and [wf_size], from the
    branch [!read_array_header(wf_size) || wf_size != 8]. *)
Definition parse_waveform_log (data : list byte) (pos : nat)
  : list diagnostic :=
  match read_array_header data pos with
  | (Ok wf_size, _) =>
    if negb (wf_size =? 8)%nat
    then [UnexpectedWaveformArraySize (Some wf_size)] else []
  | (Fail, _) => [UnexpectedWaveformArraySize None]
  | (Fault, _) => []
  end.

(** [bool parse_event(...)] of the full reader.  What it prints is
    [parse_event_log] below. *)
Definition parse_event (data : list byte) : parser event :=
  let* ev_size := read_array_header data in
  if negb (ev_size =? 6)%nat && negb (ev_size =? 7)%nat then fail else
  let* tmp := read_uint data in
  let module := cast_u8 tmp in
  let* tmp := read_uint data in
  let channel := cast_u8 tmp in
  let* tmp := read_uint data in
  let energy := cast_u16 tmp in
  let* tmp := read_uint data in
  let energy_short := cast_u16 tmp in
  let* timestamp_ns := read_float64 data in
  let* flags := read_uint data in
  let has_waveform := (ev_size =? 7)%nat in
  if has_waveform then
    let* w := parse_waveform data in
    ret (mk_event module channel energy energy_short timestamp_ns flags
                  has_waveform w)
  else
    ret (mk_event module channel energy energy_short timestamp_ns flags
                  has_waveform no_waveform).

(** The six scalar fields of an event, as [parse_event] reads them between
    the array header and the waveform. *)
Definition skip_fields (data : list byte) : parser unit :=
  let* _ := read_uint data in
  let* _ := read_uint data in
  let* _ := read_uint data in
  let* _ := read_uint data in
  let* _ := read_float64 data in
  let* _ := read_uint data in
  ret tt.

(** What a call of [parse_event] at [pos] writes to [std::cerr]:
    ["Warning: Unexpected event array size: "] and [ev_size] when the count
    is neither 6 nor 7, and the line of [parse_waveform] when the six
    fields of a seven-element record have been read. *)
Definition parse_event_log (data : list byte) (pos : nat)
  : list diagnostic :=
  match read_array_header data pos with
  | (Ok ev_size, pos) =>
    if negb (ev_size =? 6)%nat && negb (ev_size =? 7)%nat
    then [UnexpectedEventArraySize ev_size]
    else if (ev_size =? 7)%nat then
      match skip_fields data pos with
      | (Ok _, pos) => parse_waveform_log data pos
      | _ => []
      end
    else []
  | _ => []
  end.

(** [bool parse_batch_header(uint32_t& source_id, size_t& num_events)] *)
Definition parse_batch_header (data : list byte) : parser (Z * nat) :=
  let* batch_size := read_array_header data in
  if negb (batch_size =? 4)%nat then fail else
  let* src := read_uint data in
  let source_id := cast_u32 src in
  let* seq := read_uint data in
  let* ts := read_uint data in
  let* num_events := read_array_header data in
  ret (source_id, num_events).

Close Scope parser_scope.

(** The state of [convert_to_tree] across blocks: the entries filled into
    the tree and the three counters, [int block_count],
    [Long64_t event_count] and [int waveform_count].  An [int] counter is
    incremented in 32 bits ([cast_int]). *)
Record tree_state : Type := mk_tree_state {
  entries : list event;
  block_count : Z;
  event_count : Z;
  waveform_count : Z
}.

(** [max_events > 0 && event_count >= max_events] *)
Definition limit_reached (max_events : Z) (st : tree_state) : bool :=
  (0 <? max_events) && (max_events <=? event_count st).

(** The [for] loop over the events of one block: [count] iterations left. *)
Fixpoint fill_events (data : list byte) (max_events : Z) (count : nat)
    (st : tree_state) (pos : nat) : option (tree_state * list diagnostic) :=
  match count with
  | O => Some (st, [])
  | S count' =>
    match parse_event data pos with
    | (Fault, _) => None
    | (Fail, _) =>
      Some (st, parse_event_log data pos ++
                [FailedToParseEvent (event_count st)])
    | (Ok ev, pos') =>
      let st := mk_tree_state (entries st ++ [ev]) (block_count st)
                  (event_count st + 1)
                  (if has_waveform ev then cast_int (waveform_count st + 1)
                   else waveform_count st) in
      if limit_reached max_events st then Some (st, [])
      else fill_events data max_events count' st pos'
    end
  end.

(** The body of the [while] loop once [block_data] is read. *)
Definition process_block (max_events : Z) (block_data : list byte)
    (st : tree_state) : body_result tree_state :=
  match parse_batch_header block_data 0%nat with
  | (Fault, _) => BodyUndefined
  | (Fail, _) => Break st [FailedToParseBlock (block_count st)]
  | (Ok (source_id, num_events), pos) =>
    match fill_events block_data max_events num_events st pos with
    | None => BodyUndefined
    | Some (st, log) =>
      let st := mk_tree_state (entries st) (cast_int (block_count st + 1))
                  (event_count st) (waveform_count st) in
      if limit_reached max_events st then Break st log else Continue st log
    end
  end.

(** [void convert_to_tree(const char* input_file, const char* output_file,
    int max_events)], as far as the input is concerned: the entries of the
    tree, the counters and the diagnostics. *)
Definition convert_to_tree (file : list byte) (max_events : Z)
  : option (loop_result tree_state) :=
  let f := open_file file in
  let file_size := length file in
  match read_header f with
  | (None, _) => None
  | (Some header_end_pos, f) =>
    let data_end := cast_i64 (Z.of_nat file_size - Z.of_nat FOOTER_SIZE) in
    let f := seekg_beg (cast_i64 header_end_pos) f in
    Some (stream_blocks block_count (process_block max_events) data_end
            (S file_size) f (mk_tree_state [] 0 0 0) [])
  end.

End ConvertToTree.

(** ** The summary reader, [macros/read_delila.C] *)

Module ReadDelila.

(** [struct Event] *)
Record Event : Type := mk_Event {
  module : Z; channel : Z; energy : Z; energy_short : Z;
  timestamp_ns : Z; flags : Z
}.

Open Scope parser_scope.

(** [bool parse_event(Event& ev)] of the summary reader. *)
Definition parse_event (data : list byte) : parser Event :=
  let* ev_size := read_array_header data in
  if negb (ev_size =? 6)%nat then fail else
  let* tmp := read_uint data in
  let module := cast_u8 tmp in
  let* tmp := read_uint data in
  let channel := cast_u8 tmp in
  let* tmp := read_uint data in
  let energy := cast_u16 tmp in
  let* tmp := read_uint data in
  let energy_short := cast_u16 tmp in
  let* timestamp_ns := read_float64 data in
  let* flags := read_uint data in
  ret (mk_Event module channel energy energy_short timestamp_ns flags).

(** The [for] loop of [parse_batch]: [count] events, pushed in order. *)
Fixpoint parse_events (data : list byte) (count : nat)
  : parser (list Event) :=
  match count with
  | O => ret []
  | S count' =>
    let* ev := parse_event data in
    let* evs := parse_events data count' in
    ret (ev :: evs)
  end.

(** [bool parse_batch(uint32_t& source_id, std::vector<Event>& events)] *)
Definition parse_batch (data : list byte) : parser (Z * list Event) :=
  let* batch_size := read_array_header data in
  if negb (batch_size =? 4)%nat then fail else
  let* src := read_uint data in
  let source_id := cast_u32 src in
  let* seq := read_uint data in
  let* ts := read_uint data in
  let* num_events := read_array_header data in
  let* events := parse_events data num_events in
  ret (source_id, events).

Close Scope parser_scope.

(** [struct Footer], the fields [read_footer] fills. *)
Record Footer : Type := mk_Footer {
  data_checksum : Z;
  total_events : Z;
  data_bytes : Z;
  first_event_time_ns : Z;
  last_event_time_ns : Z;
  file_end_time_ns : Z;
  write_complete : Z
}.

(** [bool read_footer(std::ifstream& f, size_t file_size)]: the footer it
    prints when it returns [true], the warning when it returns [false]. *)
Definition read_footer (f : ifstream) (file_size : nat)
  : (option Footer * list diagnostic) * ifstream :=
  if (file_size <? FOOTER_SIZE)%nat then ((None, [FileTooSmallForFooter]), f)
  else
    let f := seekg_beg (Z.of_nat (file_size - FOOTER_SIZE)) f in
    let '(magic, f) := stream_read 8 f in
    if negb (bool_decide (magic = FOOTER_MAGIC))
    then ((None, [InvalidFooterMagic]), f)
    else
      let '(checksum, f) := read_u64_le f in
      let '(total, f) := read_u64_le f in
      let '(bytes, f) := read_u64_le f in
      let '(first, f) := read_f64_le f in
      let '(last, f) := read_f64_le f in
      let '(file_end, f) := read_u64_le f in
      let '(complete, f) := stream_read 1 f in
      ((Some (mk_Footer checksum total bytes first last file_end
                        (buf_at complete 0)), []), f).

(** The state of [read_delila] across blocks: [all_events] and
    [int block_count], incremented in 32 bits. *)
Record reader_state : Type := mk_reader_state {
  all_events : list Event;
  block_count : Z
}.

(** [max_events > 0 && static_cast<int>(all_events.size()) >= max_events] *)
Definition limit_reached (max_events : Z) (evs : list Event) : bool :=
  (0 <? max_events) && (max_events <=? cast_int (Z.of_nat (length evs))).

(** [for (const auto& ev : events) { all_events.push_back(ev);
    if (...) break; }] *)
Fixpoint add_events (max_events : Z) (events all : list Event) : list Event :=
  match events with
  | [] => all
  | ev :: events' =>
    let all := all ++ [ev] in
    if limit_reached max_events all then all
    else add_events max_events events' all
  end.

(** The body of the [while] loop once [block_data] is read. *)
Definition process_block (max_events : Z) (block_data : list byte)
    (st : reader_state) : body_result reader_state :=
  match parse_batch block_data 0%nat with
  | (Fault, _) => BodyUndefined
  | (Fail, _) => Break st [FailedToParseBlock (block_count st)]
  | (Ok (source_id, events), _) =>
    let all := add_events max_events events (all_events st) in
    let st := mk_reader_state all (cast_int (block_count st + 1)) in
    if limit_reached max_events all then Break st [] else Continue st []
  end.

(** What [read_delila] has in hand when it starts printing and plotting. *)
Record read_result : Type := mk_read_result {
  rr_footer : option Footer;
  rr_footer_log : list diagnostic;
  rr_loop : loop_result reader_state
}.

(** [void read_delila(const char* filename, int max_events)], up to the
    point where the events are printed and histogrammed.  [None] is the
    early [return] on a bad file magic. *)
Definition read_delila (file : list byte) (max_events : Z)
  : option read_result :=
  let f := open_file file in
  let file_size := length file in
  match read_header f with
  | (None, _) => None
  | (Some header_end_pos, f) =>
    let '((footer, footer_log), f) := read_footer f file_size in
    let data_end := cast_i64 (Z.of_nat file_size - Z.of_nat FOOTER_SIZE) in
    let f := seekg_beg (cast_i64 header_end_pos) f in
    Some (mk_read_result footer footer_log
            (stream_blocks block_count (process_block max_events) data_end
               (S file_size) f (mk_reader_state [] 0) []))
  end.

End ReadDelila.

(** ** Integers in memory

    The unsigned integer whose object representation on a little-endian
    host is [bs], least significant byte first: what
    [std::memcpy(&x, bs, n)] leaves in [x], and what [read_u64_le] puts
    together from the eight bytes it reads. *)
Fixpoint le_value (bs : list byte) : Z :=
  match bs with
  | [] => 0
  | b :: bs' => u8 b + 2 ^ 8 * le_value bs'
  end.

(** ** The dump reader, [macros/read_dump.C]

    [read_dump] turns the flat file that "delila-recover dump" writes (a
    magic, an event count and 22 bytes per event) into the tree
    [DELILA_Tree].  The fields are copied out of the record with
    [std::memcpy]; the host is taken to be little-endian, the byte order the
    header comment of the macro gives for the format.  The name of the
    output file and what ROOT does with the entries are left out. *)

Module ReadDump.

(** The magic the macro compares with, ["DLDUMP01"]. *)
Definition DUMP_MAGIC : list byte :=
  [x44; x4c; x44; x55; x4d; x50; x30; x31].

(** [std::memcpy(&x, &buf[i], n)] *)
Definition field (buf : list byte) (i n : nat) : Z :=
  le_value (take n (drop i buf)).

(** [static_cast<ULong64_t>(d)], [d] a [double] given by its IEEE-754
    binary64 pattern (sign bit 63, biased exponent in bits 62-52, fraction
    in bits 51-0).  The conversion truncates toward zero; it is undefined
    ([None]) when the truncated value does not fit: for NaN and the
    infinities, for values of -1 and below, and from 2^64 on. *)
Definition double_to_u64 (bits : Z) : option Z :=
  let negative := Z.testbit bits 63 in
  let e := Z.land (Z.shiftr bits 52) 0x7ff in
  let m := Z.land bits (2 ^ 52 - 1) in
  if e =? 0x7ff then None
  else
    let t := if e =? 0 then 0 else Z.shiftl (2 ^ 52 + m) (e - 1075) in
    if t =? 0 then Some 0
    else if negative then None
    else if t <? 2 ^ 64 then Some t else None.

(** The branches of [DELILA_Tree]; [FineTS] is carried as the bit pattern
    of the [double]. *)
Record entry : Type := mk_entry {
  Mod : Z; Ch : Z;
  TimeStamp : Z; FineTS : Z;
  ChargeLong : Z; ChargeShort : Z; RecordLength : Z
}.

(** The body of the [while] loop up to [tree->Fill()], on the 22 bytes of
    one record; [flags_tmp] is copied out and goes nowhere. *)
Definition fill_record (buf : list byte) : option entry :=
  let Mod := buf_at buf 0 in
  let Ch := buf_at buf 1 in
  let ChargeLong := field buf 2 2 in
  let ChargeShort := field buf 4 2 in
  let flags_tmp := field buf 6 8 in
  let ts_tmp := field buf 14 8 in
  let FineTS := ts_tmp in
  TimeStamp ← double_to_u64 ts_tmp;
  let RecordLength := 0 in
  Some (mk_entry Mod Ch TimeStamp FineTS ChargeLong ChargeShort RecordLength).

(** How [read_dump] ends. *)
Inductive dump_result : Type :=
| BadMagic            (* the early [return] *)
| Converted (n_events : option Z) (tree : list entry) (count : Z)
| UndefinedTimeStamp  (* a time stamp that cannot be converted *)
| OutOfFuel.

(** [while (f.read(buf, 22)) { ...; tree->Fill(); count++; }]; [n_events]
    is what was printed before the loop. *)
Fixpoint read_events (fuel : nat) (f : ifstream) (n_events : option Z)
    (tree : list entry) (count : Z) : dump_result :=
  match fuel with
  | O => OutOfFuel
  | S fuel =>
    let '(buf, f) := stream_read 22 f in
    if negb (good f) then Converted n_events tree count
    else
      match fill_record buf with
      | None => UndefinedTimeStamp
      | Some e =>
        read_events fuel f n_events (tree ++ [e]) (cast_u64 (count + 1))
      end
  end.

(** [void read_dump(const char* input, const char* output)], as far as the
    input is concerned.  A file too short to hold the magic compares
    unequal, as in [read_header].  [n_events] is read into a variable that
    was not initialised: its value is known ([Some]) only if all eight bytes
    were there.  It is printed and not used again. *)
Definition read_dump (file : list byte) : dump_result :=
  let f := open_file file in
  let '(magic, f) := stream_read 8 f in
  if negb (bool_decide (magic = DUMP_MAGIC)) then BadMagic
  else
    let '(buf, f) := stream_read 8 f in
    let n_events := if good f then Some (le_value buf) else None in
    read_events (S (length file)) f n_events [] 0.

End ReadDump.

(** * Statements about the decoder

    The vocabulary in which the properties below are stated. *)

(** ** Decode primitives and failure for want of bytes *)

(** The five decode primitives; [read_bin] with its arguments. *)
Inductive primitive : Type :=
| PArrayHeader | PUInt | PInt | PFloat64
| PBin (max_size n : Z).

Definition run_primitive (p : primitive) (data : list byte) (pos : nat)
  : outcome unit * nat :=
  match p with
  | PArrayHeader =>
    let r := read_array_header data pos in (status (fst r), snd r)
  | PUInt => let r := read_uint data pos in (status (fst r), snd r)
  | PInt => let r := ConvertToTree.read_int data pos in (status (fst r), snd r)
  | PFloat64 => let r := read_float64 data pos in (status (fst r), snd r)
  | PBin max_size n =>
    let r := ConvertToTree.read_bin data max_size n pos in
    (ConvertToTree.ar_res r, ConvertToTree.ar_pos r)
  end.

(** A failure for want of bytes: the call returns [false], and would have
    returned [true] had the buffer gone on with suitable bytes. *)
Definition truncated (p : primitive) (data : list byte) (pos : nat) : Prop :=
  fst (run_primitive p data pos) = Fail /\
  exists more, fst (run_primitive p (data ++ more) pos) = Ok tt.

(** The claim as the specification words it. *)
Definition position_kept_on_truncation : Prop :=
  forall p data pos,
    truncated p data pos -> snd (run_primitive p data pos) = pos.

(** Bytes of tag and length field that a failing call may have consumed. *)
Definition prefix_width (p : primitive) : nat :=
  match p with
  | PBin _ _ => 5
  | _ => 1
  end.

(** ** Every operation of the two parsers *)

Inductive operation : Type :=
| Prim (p : primitive)
| OU8Array (max_size n : Z)
| OI16Array (max_size n : Z)
| OWaveform | OEvent | OBatchHeader      (* convert_to_tree.C *)
| OSummaryEvent | OSummaryBatch.         (* read_delila.C *)

Definition run_operation (op : operation) (data : list byte) (pos : nat)
  : outcome unit * nat :=
  match op with
  | Prim p => run_primitive p data pos
  | OU8Array max_size n =>
    let r := ConvertToTree.read_u8_array data max_size n pos in
    (ConvertToTree.ar_res r, ConvertToTree.ar_pos r)
  | OI16Array max_size n =>
    let r := ConvertToTree.read_i16_array data max_size n pos in
    (ConvertToTree.ar_res r, ConvertToTree.ar_pos r)
  | OWaveform =>
    let r := ConvertToTree.parse_waveform data pos in (status (fst r), snd r)
  | OEvent =>
    let r := ConvertToTree.parse_event data pos in (status (fst r), snd r)
  | OBatchHeader =>
    let r := ConvertToTree.parse_batch_header data pos in
    (status (fst r), snd r)
  | OSummaryEvent =>
    let r := ReadDelila.parse_event data pos in (status (fst r), snd r)
  | OSummaryBatch =>
    let r := ReadDelila.parse_batch data pos in (status (fst r), snd r)
  end.

(** The capacity handed to a reader that copies with [memcpy] is not
    negative. *)
Definition capacity_ok (op : operation) : Prop :=
  match op with
  | Prim (PBin max_size _) | OU8Array max_size _ => 0 <= max_size
  | _ => True
  end.

(** C9 as the specification words it. *)
Definition parser_stays_in_bounds : Prop :=
  forall op data pos,
    capacity_ok op -> (pos <= size data)%nat ->
    (pos <= snd (run_operation op data pos) <= size data)%nat /\
    fst (run_operation op data pos) <> Fault.

(** The headers of an empty byte string: bin8, bin16 and bin32 with a
    length field of zero. *)
Definition empty_bin_headers : list (list byte) :=
  [[xc4; x00]; [xc5; x00; x00]; [xc6; x00; x00; x00; x00]].

(** A buffer whose last bytes are the header of an empty byte string. *)
Definition ends_in_empty_bin (data : list byte) : Prop :=
  Exists (fun h => h `suffix_of` data) empty_bin_headers.
(** ** The three sample-sequence readers *)

Inductive reader : Type := RI16 | RU8 | RBin.

Definition run_reader (rk : reader) (data : list byte) (max_size n : Z)
    (pos : nat) : ConvertToTree.array_read :=
  match rk with
  | RI16 => ConvertToTree.read_i16_array data max_size n pos
  | RU8 => ConvertToTree.read_u8_array data max_size n pos
  | RBin => ConvertToTree.read_bin data max_size n pos
  end.

(** The form a sequence has on the wire. *)
Inductive wire_form : Type := IntArray | UIntArray | Binary.

(** The form a reader takes the bytes at [pos] for; [read_u8_array] decides
    by the tag. *)
Definition form_taken (rk : reader) (data : list byte) (pos : nat)
  : wire_form :=
  match rk with
  | RI16 => IntArray
  | RBin => Binary
  | RU8 =>
    match byte_at data pos with
    | Some b =>
      if (b =? 0xc4) || (b =? 0xc5) || (b =? 0xc6) then Binary else UIntArray
    | None => UIntArray
    end
  end.

(** The element count the stream declares, and where the elements start. *)
Definition declared (form : wire_form) (data : list byte) (pos : nat)
  : outcome nat * nat :=
  match form with
  | Binary => ConvertToTree.bin_header data pos
  | IntArray | UIntArray => read_array_header data pos
  end.

(** Where [count] elements read one after the other end, if all of them
    decode.  No cap is involved. *)
Fixpoint elems_end (rd : parser Z) (count pos : nat) : option nat :=
  match count with
  | O => Some pos
  | S count' =>
    match rd pos with
    | (Ok _, pos') => elems_end rd count' pos'
    | _ => None
    end
  end.

(** The position of the byte after a complete sequence of [count] elements
    that starts at [pos]. *)
Definition sequence_end (form : wire_form) (data : list byte)
    (count pos : nat) : option nat :=
  match form with
  | IntArray => elems_end (ConvertToTree.read_int data) count pos
  | UIntArray => elems_end (read_uint data) count pos
  | Binary =>
    if (size data <? pos + count)%nat then None else Some (pos + count)%nat
  end.

(** C2 as the specification words it: above the cap, the count handed back
    is the declared length. *)
Definition count_is_declared_length : Prop :=
  forall rk data n pos sz p0,
    declared (form_taken rk data pos) data pos = (Ok sz, p0) ->
    ConvertToTree.ar_res
      (run_reader rk data ConvertToTree.MAX_WAVEFORM_SAMPLES n pos) = Ok tt ->
    ConvertToTree.MAX_WAVEFORM_SAMPLES < Z.of_nat sz ->
    ConvertToTree.ar_n
      (run_reader rk data ConvertToTree.MAX_WAVEFORM_SAMPLES n pos)
    = Z.of_nat sz.

(** A [bin16] of 16385 bytes, one more than the cap. *)
Definition over_cap_bin : list byte :=
  [xc5; x40; x01] ++ replicate (Z.to_nat 16385) x07.
(** ** The two shapes of [parse_event] *)

Inductive shape : Type :=
| FullShape      (* [parse_event] of convert_to_tree.C *)
| SummaryShape.  (* [parse_event] of read_delila.C *)

(** How [parse_event] of a shape returns. *)
Definition decode_event (s : shape) (data : list byte) (pos : nat)
  : outcome unit :=
  match s with
  | FullShape => status (fst (ConvertToTree.parse_event data pos))
  | SummaryShape => status (fst (ReadDelila.parse_event data pos))
  end.

(** A shape accepts the count [c] when some event record that declares [c]
    elements decodes in it. *)
Definition accepts (s : shape) (c : nat) : Prop :=
  exists data pos p,
    read_array_header data pos = (Ok c, p) /\ decode_event s data pos = Ok tt.

(** C3 as the specification words it: in both shapes exactly the counts 6
    and 7 are accepted. *)
Definition both_shapes_accept_6_and_7 : Prop :=
  forall s c, accepts s c <-> (c = 6%nat \/ c = 7%nat).

(** The six fields of the specification's sample event
    (module 1, channel 2, energy 100, energy_short 50, 1234.5 ns, flags 0). *)
Definition sample_fields : list byte :=
  [x01; x02; x64; x32; xcb; x40; x93; x4a; x00; x00; x00; x00; x00; x00].

(** The same event without and with a waveform: analog probes [[-2, 300]]
    and [[]], digital probes [[1, 200]] as an array, [bin8 [7]], [[]] and
    [[]], time resolution 2, trigger threshold 1000. *)
Definition event6 : list byte := x96 :: sample_fields.
Definition event7 : list byte :=
  x97 :: sample_fields ++
  [x98; x92; xfe; xcd; x01; x2c; x90; x92; x01; xcc; xc8; xc4; x01; x07;
   x90; x90; x02; xcd; x03; xe8].

(** The fields the two shapes have in common. *)
Definition summary_of (ev : ConvertToTree.event) : ReadDelila.Event :=
  ReadDelila.mk_Event (ConvertToTree.module ev) (ConvertToTree.channel ev)
    (ConvertToTree.energy ev) (ConvertToTree.energy_short ev)
    (ConvertToTree.timestamp_ns ev) (ConvertToTree.flags ev).
(** ** The writer's side of the wire format

    The writer is the recorder (Rust), which is not among the sources.  What
    it writes is taken from the specification: the MessagePack forms of
    section 4.2 (a tag, then the value in big-endian order) and the file
    layout of section 6. *)

(** The byte with the value [z mod 256]. *)
Definition byte_of (z : Z) : byte :=
  default x00 (Byte.of_N (Z.to_N (z mod 256))).

(** Two, four and eight bytes, most significant first. *)
Definition be_bytes2 (z : Z) : list byte :=
  [byte_of (z / 2 ^ 8); byte_of z].
Definition be_bytes4 (z : Z) : list byte :=
  [byte_of (z / 2 ^ 24); byte_of (z / 2 ^ 16); byte_of (z / 2 ^ 8); byte_of z].
Definition be_bytes8 (z : Z) : list byte :=
  [byte_of (z / 2 ^ 56); byte_of (z / 2 ^ 48); byte_of (z / 2 ^ 40);
   byte_of (z / 2 ^ 32); byte_of (z / 2 ^ 24); byte_of (z / 2 ^ 16);
   byte_of (z / 2 ^ 8); byte_of z].

(** Modelled from the spec: the integer forms of the writer's encoding that
    the decoder knows (positive and negative fixint, uint8/16/32/64,
    int8/16/32). *)
Inductive int_form : Type :=
| PosFixint | NegFixint
| UInt8 | UInt16 | UInt32 | UInt64
| Int8 | Int16 | Int32.

(** Modelled from the spec: the values a form of the writer's encoding can
    carry. *)
Definition form_range (f : int_form) (v : Z) : Prop :=
  match f with
  | PosFixint => 0 <= v <= 0x7f
  | NegFixint => -32 <= v <= -1
  | UInt8 => 0 <= v < 2 ^ 8
  | UInt16 => 0 <= v < 2 ^ 16
  | UInt32 => 0 <= v < 2 ^ 32
  | UInt64 => 0 <= v < 2 ^ 64
  | Int8 => - 2 ^ 7 <= v < 2 ^ 7
  | Int16 => - 2 ^ 15 <= v < 2 ^ 15
  | Int32 => - 2 ^ 31 <= v < 2 ^ 31
  end.

(** Modelled from the spec: the writer's encoding of an integer in a given
    form, the tag 0xcc-0xcf or 0xd0-0xd2 followed by the big-endian value,
    or the value itself as the one byte of a fixint. *)
Definition encode_int (f : int_form) (v : Z) : list byte :=
  match f with
  | PosFixint | NegFixint => [byte_of v]
  | UInt8 => xcc :: [byte_of v]
  | UInt16 => xcd :: be_bytes2 v
  | UInt32 => xce :: be_bytes4 v
  | UInt64 => xcf :: be_bytes8 v
  | Int8 => xd0 :: [byte_of v]
  | Int16 => xd1 :: be_bytes2 v
  | Int32 => xd2 :: be_bytes4 v
  end.

Definition is_signed_form (f : int_form) : bool :=
  match f with
  | NegFixint | Int8 | Int16 | Int32 => true
  | _ => false
  end.

(** The reader a form is meant for: [read_uint] for the unsigned forms,
    [read_int] for the signed ones. *)
Definition reader_for (f : int_form) : list byte -> parser Z :=
  if is_signed_form f then ConvertToTree.read_int else read_uint.
(** Modelled from the spec: the writer's choice of form for an unsigned
    value, the smallest that holds it. *)
Definition smallest_unsigned_form (v : Z) : int_form :=
  if v <=? 0x7f then PosFixint
  else if v <? 2 ^ 8 then UInt8
  else if v <? 2 ^ 16 then UInt16
  else if v <? 2 ^ 32 then UInt32
  else UInt64.

(** Modelled from the spec: the writer's encoding of an unsigned value. *)
Definition encode_uint (v : Z) : list byte :=
  encode_int (smallest_unsigned_form v) v.

(** Modelled from the spec: the writer's array header, fixarray (0x90 plus
    the count) up to 15 elements, then array16 (0xdc), then array32
    (0xdd). *)
Definition encode_array_header (n : nat) : list byte :=
  if (n <=? 15)%nat then [byte_of (0x90 + Z.of_nat n)]
  else if Z.of_nat n <? 2 ^ 16 then xdc :: be_bytes2 (Z.of_nat n)
  else xdd :: be_bytes4 (Z.of_nat n).

(** Modelled from the spec: the writer's encoding of a sequence of 8-bit
    samples as an array of unsigned integers. *)
Definition encode_u8_array (xs : list Z) : list byte :=
  encode_array_header (length xs) ++ concat (map encode_uint xs).

(** Modelled from the spec: the writer's encoding of the same samples as a
    byte string, bin8 (0xc4, a length byte, the bytes). *)
Definition encode_bin8 (xs : list Z) : list byte :=
  xc4 :: byte_of (Z.of_nat (length xs)) :: map byte_of xs.

(** Modelled from the spec: the writer's byte string in the smallest form,
    bin8 up to 255 bytes, then bin16 (0xc5), then bin32 (0xc6). *)
Definition encode_bin (xs : list Z) : list byte :=
  if Z.of_nat (length xs) <? 2 ^ 8 then encode_bin8 xs
  else if Z.of_nat (length xs) <? 2 ^ 16 then
    xc5 :: be_bytes2 (Z.of_nat (length xs)) ++ map byte_of xs
  else xc6 :: be_bytes4 (Z.of_nat (length xs)) ++ map byte_of xs.

(** The stores that put the samples [xs] into cells 0, 1, 2, ... *)
Definition stores_of (xs : list Z) : list (nat * Z) :=
  imap (fun k x => (k, x)) xs.
(** ** The file as the recorder lays it out *)

(** Four bytes, least significant first. *)
Definition le_bytes4 (z : Z) : list byte :=
  [byte_of z; byte_of (z / 2 ^ 8); byte_of (z / 2 ^ 16); byte_of (z / 2 ^ 24)].

(** Modelled from the spec: a block as the recorder writes it,
    [Block := BlockLen(u32) BlockPayload], the length little-endian. *)
Definition frame (block : list byte) : list byte :=
  le_bytes4 (Z.of_nat (length block)) ++ block.

(** Modelled from the spec: the data region, block after block. *)
Definition frames (blocks : list (list byte)) : list byte :=
  concat (map frame blocks).

(** Modelled from the spec: a file as the recorder writes it,
    [File := Magic HeaderLen HeaderPayload Block* Footer]. *)
Definition delila_file (header : list byte) (blocks : list (list byte))
    (footer : list byte) : list byte :=
  FILE_MAGIC ++ le_bytes4 (Z.of_nat (length header)) ++ header
             ++ frames blocks ++ footer.

(** A block whose length passes the check of the loop. *)
Definition framed (block : list byte) : Prop :=
  0 < Z.of_nat (length block) <= 100000000.

(** The loop body applied to the blocks one after the other, with no
    stream in sight: [inl] when the body ran to its end on every block,
    [inr] with the way out when it left the loop. *)
Fixpoint body_over_blocks {Acc : Type}
    (process_block : list byte -> Acc -> body_result Acc)
    (blocks : list (list byte)) (acc : Acc) (log : list diagnostic)
  : (Acc * list diagnostic) + (loop_exit * Acc * list diagnostic) :=
  match blocks with
  | [] => inl (acc, log)
  | block :: blocks' =>
    match process_block block acc with
    | BodyUndefined => inr (Undefined, acc, log)
    | Break acc' l => inr (BodyBreak, acc', log ++ l)
    | Continue acc' l => body_over_blocks process_block blocks' acc' (log ++ l)
    end
  end.

(** The events of a block that [parse_batch] accepts. *)
Definition batch_events (block : list byte) : list ReadDelila.Event :=
  match ReadDelila.parse_batch block 0%nat with
  | (Ok (_, events), _) => events
  | _ => []
  end.

Definition parses (block : list byte) : Prop :=
  exists r p, ReadDelila.parse_batch block 0%nat = (Ok r, p).

(** A batch of one event: source 7, sequence number 0, timestamp 0, and the
    sample event without waveform. *)
Definition sample_block : list byte := [x94; x07; x00; x00; x91] ++ event6.

(** ** Turns of the block loop

    One turn of the [while] loop that goes on to the next: the condition
    holds, the length is accepted, the block is read in full and the body
    runs to its end.  A state is the stream, the state of the program and
    the diagnostics printed so far. *)
Inductive turn {Acc : Type}
    (process_block : list byte -> Acc -> body_result Acc) (data_end : Z)
  : ifstream * Acc * list diagnostic -> ifstream * Acc * list diagnostic
    -> Prop :=
| turn_block (f f1 f2 : ifstream) (acc acc' : Acc) (log l : list diagnostic)
    (len : Z) (block : list byte) :
    tellg f < data_end ->
    read_u32_le f = (len, f1) ->
    len <> 0 -> len <= 100000000 ->
    stream_read (Z.to_nat len) f1 = (block, f2) ->
    good f2 = true ->
    process_block block acc = Continue acc' l ->
    turn process_block data_end (f, acc, log) (f2, acc', log ++ l).

(** [n] turns in a row. *)
Inductive turns {Acc : Type}
    (process_block : list byte -> Acc -> body_result Acc) (data_end : Z)
  : nat -> ifstream * Acc * list diagnostic
    -> ifstream * Acc * list diagnostic -> Prop :=
| turns_none s : turns process_block data_end 0 s s
| turns_more n s1 s2 s3 :
    turn process_block data_end s1 s2 ->
    turns process_block data_end n s2 s3 ->
    turns process_block data_end (S n) s1 s3.

(** A data region of one block followed by a length field of zero and one
    more byte. *)
Definition block_then_zero_length : list byte :=
  frame sample_block ++ [x00; x00; x00; x00; x94].
(** Exit, state and diagnostics of a loop result, the stream left out. *)
Definition loop_summary {Acc : Type} (r : loop_result Acc)
  : loop_exit * Acc * list diagnostic :=
  (lr_exit r, lr_acc r, lr_log r).

(** What the body makes of the blocks of a data region that it runs
    through: leaving after the last block is leaving at the end of the
    data. *)
Definition blocks_summary {Acc : Type}
    (process_block : list byte -> Acc -> body_result Acc)
    (blocks : list (list byte)) (acc : Acc)
  : loop_exit * Acc * list diagnostic :=
  match body_over_blocks process_block blocks acc [] with
  | inl (acc', log) => (AtDataEnd, acc', log)
  | inr r => r
  end.

(** A trailer of 64 zero bytes, as an interrupted write may leave it. *)
Definition blank_footer : list byte := replicate 64 x00.

(** ** Events and batches on the wire *)

(** Modelled from the spec: a 64-bit float as the recorder writes it, the
    tag 0xcb and the eight bytes of the value, most significant first. *)
Definition encode_float64 (bits : Z) : list byte := xcb :: be_bytes8 bits.

(** Modelled from the spec: an event record without waveform as the
    recorder writes it, [[Module:u8, Channel:u8, Energy:u16,
    EnergyShort:u16, TimestampNs:f64, Flags:u64]]. *)
Definition encode_fields (ev : ReadDelila.Event) : list byte :=
  encode_uint (ReadDelila.module ev)
    ++ encode_uint (ReadDelila.channel ev)
    ++ encode_uint (ReadDelila.energy ev)
    ++ encode_uint (ReadDelila.energy_short ev)
    ++ encode_float64 (ReadDelila.timestamp_ns ev)
    ++ encode_uint (ReadDelila.flags ev).

Definition encode_event (ev : ReadDelila.Event) : list byte :=
  encode_array_header 6 ++ encode_fields ev.

(** Modelled from the spec: the values the fields of an event record
    hold, by their types. *)
Definition event_ok (ev : ReadDelila.Event) : Prop :=
  0 <= ReadDelila.module ev < 2 ^ 8 /\
  0 <= ReadDelila.channel ev < 2 ^ 8 /\
  0 <= ReadDelila.energy ev < 2 ^ 16 /\
  0 <= ReadDelila.energy_short ev < 2 ^ 16 /\
  0 <= ReadDelila.timestamp_ns ev < 2 ^ 64 /\
  0 <= ReadDelila.flags ev < 2 ^ 64.

(** Modelled from the spec: the batch of a block,
    [EventBatch := [SourceId:uint, SeqNum:uint, Timestamp:uint,
    Events:[EventRecord*]]]. *)
Record batch : Type := mk_batch {
  source : Z; sequence_number : Z; written_at : Z;
  records : list ReadDelila.Event
}.

(** The array of four, its first three elements and the header of the
    array of events, [n] the number of events it declares. *)
Definition encode_batch_header (src seq ts : Z) (n : nat) : list byte :=
  encode_array_header 4
    ++ encode_uint src ++ encode_uint seq ++ encode_uint ts
    ++ encode_array_header n.

Definition encode_batch (b : batch) : list byte :=
  encode_batch_header (source b) (sequence_number b) (written_at b)
                      (length (records b))
    ++ concat (map encode_event (records b)).

(** Modelled from the spec: a batch the recorder can have written and the
    block loop accepts: the fields within their types, the block not
    above the ceiling. *)
Definition batch_ok (b : batch) : Prop :=
  0 <= source b < 2 ^ 32 /\
  0 <= sequence_number b < 2 ^ 64 /\
  0 <= written_at b < 2 ^ 64 /\
  Forall event_ok (records b) /\
  Z.of_nat (length (encode_batch b)) <= 100000000.

(** The sample event of the specification
    (module 1, channel 2, energy 100, energy_short 50, 1234.5 ns,
    flags 0). *)
Definition sample_event : ReadDelila.Event :=
  ReadDelila.mk_Event 1 2 100 50 4653144203864309760 0.
(** ** Auxiliary notions of the proofs *)

(** The shape of one tagged read.

    Every primitive either finds no byte at [pos] and leaves the position
    alone, or takes the tag byte and from then on either succeeds inside the
    buffer, at most [w] bytes further, or gives up one byte past [pos]. *)

Definition tag_step {A} (data : list byte) (w : nat) (pos : nat)
    (r : outcome A * nat) : Prop :=
  ((size data <= pos)%nat /\ r = (Fail, pos)) \/
  ((pos < size data)%nat /\
   ((exists v p, r = (Ok v, p) /\ (pos < p <= size data)%nat
                 /\ (p <= pos + w)%nat)
    \/ r = (Fail, S pos))).

(** A parser that moves [pos_] forward and keeps it inside the buffer, and
    one that never indexes outside it. *)
Definition bounded {A} (data : list byte) (m : parser A) : Prop :=
  forall pos, (pos <= size data)%nat -> (pos <= snd (m pos) <= size data)%nat.

Definition faultless {A} (m : parser A) : Prop :=
  forall pos, fst (m pos) <> Fault.

(** [l] sits in [data] from position [p] on. *)
Fixpoint bytes_at (data : list byte) (p : nat) (l : list byte) : Prop :=
  match l with
  | [] => True
  | b :: l' => data !! p = Some b /\ bytes_at data (S p) l'
  end.

(** Length of the tag and length field of [encode_bin]. *)
Definition bin_prefix_length (xs : list Z) : nat :=
  if Z.of_nat (length xs) <? 2 ^ 8 then 2%nat
  else if Z.of_nat (length xs) <? 2 ^ 16 then 3%nat else 5%nat.

(** ** The events of a block, one after the other *)

(** The events the full reader decodes in a row from [pos] on: at most
    [count], and none after the first record [parse_event] refuses. *)
Fixpoint leading_events (data : list byte) (count pos : nat)
  : list ConvertToTree.event :=
  match count with
  | O => []
  | S count' =>
    match ConvertToTree.parse_event data pos with
    | (Ok ev, pos') => ev :: leading_events data count' pos'
    | _ => []
    end
  end.

(** How many of the events carry a waveform. *)
Definition waveforms (evs : list ConvertToTree.event) : Z :=
  Z.of_nat (length (List.filter ConvertToTree.has_waveform evs)).

(** [n] more events filled into the tree, [evs], in the same block; the
    [int] counter of the waveforms wraps like the sum. *)
Definition filled (st : ConvertToTree.tree_state)
    (evs : list ConvertToTree.event) : ConvertToTree.tree_state :=
  ConvertToTree.mk_tree_state
    (ConvertToTree.entries st ++ evs)
    (ConvertToTree.block_count st)
    (ConvertToTree.event_count st + Z.of_nat (length evs))
    (cast_int (ConvertToTree.waveform_count st + waveforms evs)).

(** The end of a block in [convert_to_tree]: [block_count++]. *)
Definition next_block (st : ConvertToTree.tree_state)
  : ConvertToTree.tree_state :=
  ConvertToTree.mk_tree_state
    (ConvertToTree.entries st) (cast_int (ConvertToTree.block_count st + 1))
    (ConvertToTree.event_count st) (ConvertToTree.waveform_count st).

(** A batch that declares two events and holds one (the sample event
    without waveform). *)
Definition short_block : list byte := [x94; x07; x00; x00; x92] ++ event6.

(** A file of one block: no header payload, the sample batch, and a blank
    trailer. *)
Definition sample_file : list byte :=
  delila_file [] [sample_block] blank_footer.

(** A length field that declares five bytes, followed by one. *)
Definition truncated_block : list byte := [x05; x00; x00; x00; x94].

(** A file that ends right after its magic and header length. *)
Definition header_only_file : list byte := FILE_MAGIC ++ [x00; x00; x00; x00].

(** A trailer as [struct Footer] lays it out: checksum 0, three events,
    300 data bytes, time stamps and end time 0, write complete. *)
Definition sample_footer : list byte :=
  FOOTER_MAGIC ++ replicate 8 x00 ++ [x03; x00; x00; x00; x00; x00; x00; x00]
    ++ [x2c; x01; x00; x00; x00; x00; x00; x00] ++ replicate 8 x00
    ++ replicate 8 x00 ++ replicate 8 x00 ++ [x01] ++ replicate 7 x00.

(** A dump that announces two events and holds one record (module 1,
    channel 2, charges 100 and 50, flags 0, 1234.5 ns) and two stray
    bytes. *)
Definition sample_record : list byte :=
  [x01; x02; x64; x00; x32; x00; x00; x00; x00; x00; x00; x00; x00; x00;
   x00; x00; x00; x00; x00; x4a; x93; x40].

Definition sample_dump : list byte :=
  ReadDump.DUMP_MAGIC ++ [x02; x00; x00; x00; x00; x00; x00; x00]
    ++ sample_record ++ [x01; x02].

(** ** Probes as the tree reads them *)



(** A batch of one event that carries a waveform, and a file made of it. *)
Definition waveform_block : list byte := [x94; x07; x00; x00; x91] ++ event7.


(** ** A waveform cut off behind an empty byte string *)

(** The sample event with a waveform whose block ends right behind the
    header of its first digital probe, an empty bin8: the array of eight,
    two empty analog probes, [0xc4 0x00]. *)
Definition cut_event : list byte :=
  x97 :: sample_fields ++ [x98; x90; x90; xc4; x00].

(** A batch of that one event, and a file made of the batch. *)
Definition cut_block : list byte := [x94; x07; x00; x00; x91] ++ cut_event.

Definition cut_file : list byte := delila_file [] [cut_block] blank_footer.

(** ** Events with a waveform on the wire *)

(** Modelled from the spec: the writer's choice of form for a signed
    value, the smallest that holds it. *)
Definition smallest_signed_form (v : Z) : int_form :=
  if 0 <=? v then smallest_unsigned_form v
  else if -32 <=? v then NegFixint
  else if - 2 ^ 7 <=? v then Int8
  else if - 2 ^ 15 <=? v then Int16
  else Int32.

(** Modelled from the spec: the writer's encoding of a signed value. *)
Definition encode_sint (v : Z) : list byte :=
  encode_int (smallest_signed_form v) v.

(** Modelled from the spec: an analog probe, [[i16*]]. *)
Definition encode_i16_array (xs : list Z) : list byte :=
  encode_array_header (length xs) ++ concat (map encode_sint xs).

(** Modelled from the spec: a digital probe, [(bin|[u8*])]: its samples
    go out as a byte string or as an array of unsigned integers. *)
Inductive probe_form : Type := AsArray | AsBin.

Definition encode_digital (d : probe_form * list Z) : list byte :=
  match fst d with
  | AsArray => encode_u8_array (snd d)
  | AsBin => encode_bin (snd d)
  end.

(** Modelled from the spec: the waveform of an event,
    [[Analog1, Analog2, Digital1, Digital2, Digital3, Digital4, TimeRes,
    TriggerThreshold]]. *)
Record wire_waveform : Type := mk_wire_waveform {
  analog_probe1 : list Z; analog_probe2 : list Z;
  digital_probe1 : probe_form * list Z; digital_probe2 : probe_form * list Z;
  digital_probe3 : probe_form * list Z; digital_probe4 : probe_form * list Z;
  resolution : Z; threshold : Z
}.

Definition encode_waveform (w : wire_waveform) : list byte :=
  encode_array_header 8
    ++ encode_i16_array (analog_probe1 w)
    ++ encode_i16_array (analog_probe2 w)
    ++ encode_digital (digital_probe1 w)
    ++ encode_digital (digital_probe2 w)
    ++ encode_digital (digital_probe3 w)
    ++ encode_digital (digital_probe4 w)
    ++ encode_uint (resolution w)
    ++ encode_uint (threshold w).

(** Modelled from the spec: an event record, with or without waveform:
    [EventRecord(with waveform) := EventRecord(no waveform) ++
    [Waveform]], an array of seven. *)
Record wire_event : Type := mk_wire_event {
  scalars : ReadDelila.Event;
  attached : option wire_waveform
}.

Definition encode_wire_event (e : wire_event) : list byte :=
  match attached e with
  | None => encode_event (scalars e)
  | Some w =>
    encode_array_header 7 ++ encode_fields (scalars e) ++ encode_waveform w
  end.

(** Modelled from the spec: samples within their type, and no more of
    them than the arrays of the tree hold. *)
Definition samples_ok (lo hi : Z) (xs : list Z) : Prop :=
  Forall (fun x => lo <= x < hi) xs /\
  Z.of_nat (length xs) <= ConvertToTree.MAX_WAVEFORM_SAMPLES.

Definition waveform_ok (w : wire_waveform) : Prop :=
  samples_ok (- 2 ^ 15) (2 ^ 15) (analog_probe1 w) /\
  samples_ok (- 2 ^ 15) (2 ^ 15) (analog_probe2 w) /\
  samples_ok 0 (2 ^ 8) (snd (digital_probe1 w)) /\
  samples_ok 0 (2 ^ 8) (snd (digital_probe2 w)) /\
  samples_ok 0 (2 ^ 8) (snd (digital_probe3 w)) /\
  samples_ok 0 (2 ^ 8) (snd (digital_probe4 w)) /\
  0 <= resolution w < 2 ^ 8 /\
  0 <= threshold w < 2 ^ 16.

Definition wire_event_ok (e : wire_event) : Prop :=
  event_ok (scalars e) /\
  match attached e with
  | None => True
  | Some w => waveform_ok w
  end.

(** What the tree is to hold for a probe: the number of samples, and the
    samples in the cells 0, 1, 2, ... of the branch array. *)
Definition probe_of (xs : list Z) : ConvertToTree.probe :=
  ConvertToTree.mk_probe (Z.of_nat (length xs)) (stores_of xs).

(** What the tree is to hold for an event. *)
Definition entry_of (e : wire_event) : ConvertToTree.event :=
  let ev := scalars e in
  ConvertToTree.mk_event
    (ReadDelila.module ev) (ReadDelila.channel ev) (ReadDelila.energy ev)
    (ReadDelila.energy_short ev) (ReadDelila.timestamp_ns ev)
    (ReadDelila.flags ev)
    (match attached e with Some _ => true | None => false end)
    (match attached e with
     | None => ConvertToTree.no_waveform
     | Some w =>
       ConvertToTree.mk_waveform
         (probe_of (analog_probe1 w)) (probe_of (analog_probe2 w))
         (probe_of (snd (digital_probe1 w)))
         (probe_of (snd (digital_probe2 w)))
         (probe_of (snd (digital_probe3 w)))
         (probe_of (snd (digital_probe4 w)))
         (resolution w) (threshold w)
     end).

(** Modelled from the spec: a batch of such events, and the block the
    recorder makes of it; [declared] is the number of events the header
    of the array of events announces. *)
Record wire_batch : Type := mk_wire_batch {
  batch_source : Z; batch_sequence : Z; batch_written_at : Z;
  batch_items : list wire_event
}.

Definition encode_wire_batch_declaring (n : nat) (b : wire_batch)
  : list byte :=
  encode_batch_header (batch_source b) (batch_sequence b)
                      (batch_written_at b) n
    ++ concat (map encode_wire_event (batch_items b)).

Definition encode_wire_batch (b : wire_batch) : list byte :=
  encode_wire_batch_declaring (length (batch_items b)) b.

(** A batch the recorder can have written and the block loop accepts. *)
Definition wire_batch_ok (b : wire_batch) : Prop :=
  0 <= batch_source b < 2 ^ 32 /\
  0 <= batch_sequence b < 2 ^ 64 /\
  0 <= batch_written_at b < 2 ^ 64 /\
  Forall wire_event_ok (batch_items b) /\
  Z.of_nat (length (encode_wire_batch b)) <= 100000000.

(** The sample event with a waveform: analog probes [[-2, 300]] and [[]],
    digital probes [[1, 200]] as an array, [[7]] as a byte string, [[]]
    and [[]] as arrays, time resolution 2, trigger threshold 1000. *)
Definition sample_waveform : wire_waveform :=
  mk_wire_waveform [-2; 300] [] (AsArray, [1; 200]) (AsBin, [7])
                   (AsArray, []) (AsArray, []) 2 1000.

Definition sample_wire_event : wire_event :=
  mk_wire_event sample_event (Some sample_waveform).

(** A batch whose header declares three events; the block holds the
    sample event with its waveform and the sample event without, and ends
    there. *)
Definition cut_batch : wire_batch :=
  mk_wire_batch 7 0 0 [sample_wire_event; mk_wire_event sample_event None].

(** A batch of one record of five elements. *)
Definition five_element_block : list byte :=
  [x94; x07; x00; x00; x91; x95; x01; x02; x64; x32; x00].

(** * Properties *)

(** ** Bytes, bounds checks and boolean tests *)

Lemma u8_range (b : byte) : 0 <= u8 b < 256.
Proof. unfold u8. pose proof (Byte.to_N_bounded b). lia. Qed.

Lemma byte_at_Some (data : list byte) (i : nat) :
  (i < size data)%nat -> exists v, byte_at data i = Some v /\ 0 <= v < 256.
Proof.
  intros H. unfold byte_at, size in *.
  destruct (lookup_lt_is_Some_2 data i H) as [b Hb].
  exists (u8 b). rewrite Hb. split; [done | apply u8_range].
Qed.

Lemma byte_at_None (data : list byte) (i : nat) :
  (size data <= i)%nat -> byte_at data i = None.
Proof. intros H. unfold byte_at. by rewrite lookup_ge_None_2. Qed.

Lemma be16_Some (data : list byte) (p : nat) :
  (p + 2 <= size data)%nat -> is_Some (be16 data p).
Proof.
  intros H. unfold be16.
  destruct (byte_at_Some data p) as (v0 & -> & _); [lia|].
  destruct (byte_at_Some data (p + 1)) as (v1 & -> & _); [lia|].
  by eexists.
Qed.

Lemma be32_Some (data : list byte) (p : nat) :
  (p + 4 <= size data)%nat -> is_Some (be32 data p).
Proof.
  intros H. unfold be32.
  destruct (byte_at_Some data p) as (v0 & -> & _); [lia|].
  destruct (byte_at_Some data (p + 1)) as (v1 & -> & _); [lia|].
  destruct (byte_at_Some data (p + 2)) as (v2 & -> & _); [lia|].
  destruct (byte_at_Some data (p + 3)) as (v3 & -> & _); [lia|].
  by eexists.
Qed.

Lemma be64_Some (data : list byte) (p : nat) :
  (p + 8 <= size data)%nat -> is_Some (be64 data p).
Proof.
  intros H. unfold be64.
  destruct (byte_at_Some data p) as (v0 & -> & _); [lia|].
  destruct (byte_at_Some data (p + 1)) as (v1 & -> & _); [lia|].
  destruct (byte_at_Some data (p + 2)) as (v2 & -> & _); [lia|].
  destruct (byte_at_Some data (p + 3)) as (v3 & -> & _); [lia|].
  destruct (byte_at_Some data (p + 4)) as (v4 & -> & _); [lia|].
  destruct (byte_at_Some data (p + 5)) as (v5 & -> & _); [lia|].
  destruct (byte_at_Some data (p + 6)) as (v6 & -> & _); [lia|].
  destruct (byte_at_Some data (p + 7)) as (v7 & -> & _); [lia|].
  by eexists.
Qed.

(** Turn the boolean tests met along a path of the code into facts. *)
Ltac bool_hyps :=
  repeat match goal with
  | H : _ && _ = true |- _ => apply andb_true_iff in H; destruct H
  | H : _ || _ = false |- _ => apply orb_false_iff in H; destruct H
  | H : (_ <=? _)%nat = true |- _ => apply Nat.leb_le in H
  | H : (_ <=? _)%nat = false |- _ => apply Nat.leb_gt in H
  | H : (_ <? _)%nat = true |- _ => apply Nat.ltb_lt in H
  | H : (_ <? _)%nat = false |- _ => apply Nat.ltb_ge in H
  | H : (_ =? _)%nat = true |- _ => apply Nat.eqb_eq in H
  | H : (_ =? _)%nat = false |- _ => apply Nat.eqb_neq in H
  | H : (_ =? _) = true |- _ => apply Z.eqb_eq in H
  | H : (_ =? _) = false |- _ => apply Z.eqb_neq in H
  | H : (_ <=? _) = true |- _ => apply Z.leb_le in H
  | H : (_ <=? _) = false |- _ => apply Z.leb_gt in H
  | H : (_ <? _) = true |- _ => apply Z.ltb_lt in H
  | H : (_ <? _) = false |- _ => apply Z.ltb_ge in H
  | H : negb _ = true |- _ => apply negb_true_iff in H
  | H : negb _ = false |- _ => apply negb_false_iff in H
  end.

(** ** The shape of one tagged read *)

Ltac step_ok := left; eexists _, _; split; [reflexivity | lia].

Ltac open_step :=
  match goal with
  | |- tag_step ?data _ ?pos _ =>
    destruct (size data <=? pos)%nat eqn:?; bool_hyps;
    [by left | right; split; [done|]];
    destruct (byte_at_Some data pos) as (? & -> & ?); [done|]
  end.

Ltac fetch_with lem :=
  let v := fresh "v" in
  let Hv := fresh "Hv" in
  destruct lem as [v Hv];
  [lia | rewrite Hv; cbn [fmap option_fmap option_map fetched]].

Lemma byte_at_is_Some (data : list byte) (i : nat) :
  (i < size data)%nat -> is_Some (byte_at data i).
Proof.
  intros H. destruct (byte_at_Some data i H) as (v & -> & _). by eexists.
Qed.

Lemma read_array_header_step (data : list byte) (pos : nat) :
  tag_step data 5 pos (read_array_header data pos).
Proof.
  unfold read_array_header. open_step.
  repeat case_match; bool_hyps; try (by right).
  - step_ok.
  - fetch_with (be16_Some data (S pos)). step_ok.
  - fetch_with (be32_Some data (S pos)). step_ok.
Qed.

Lemma read_uint_step (data : list byte) (pos : nat) :
  tag_step data 9 pos (read_uint data pos).
Proof.
  unfold read_uint. open_step.
  repeat case_match; bool_hyps; try (by right).
  - step_ok.
  - fetch_with (byte_at_is_Some data (S pos)). step_ok.
  - fetch_with (be16_Some data (S pos)). step_ok.
  - fetch_with (be32_Some data (S pos)). step_ok.
  - fetch_with (be64_Some data (S pos)). step_ok.
Qed.

Lemma read_float64_step (data : list byte) (pos : nat) :
  tag_step data 9 pos (read_float64 data pos).
Proof.
  unfold read_float64. open_step.
  repeat case_match; bool_hyps; try (by right).
  fetch_with (be64_Some data (S pos)). step_ok.
Qed.

Lemma read_int_step (data : list byte) (pos : nat) :
  tag_step data 9 pos (ConvertToTree.read_int data pos).
Proof.
  unfold ConvertToTree.read_int. open_step.
  destruct (read_uint_step data pos) as [[? _] | [_ Hu]]; [lia|].
  repeat case_match; bool_hyps; simplify_eq; try step_ok.
  - fetch_with (byte_at_is_Some data (S pos)). step_ok.
  - fetch_with (be16_Some data (S pos)). step_ok.
  - fetch_with (be32_Some data (S pos)). step_ok.
  - destruct Hu as [(v & p & Hu & ?) | Hu]; simplify_eq. step_ok.
  - destruct Hu as [(v & p & Hu & ?) | Hu]; simplify_eq. by right.
  - destruct Hu as [(v & p & Hu & ?) | Hu]; simplify_eq.
Qed.

Lemma bin_header_step (data : list byte) (pos : nat) :
  tag_step data 5 pos (ConvertToTree.bin_header data pos).
Proof.
  unfold ConvertToTree.bin_header. open_step.
  repeat case_match; bool_hyps; try (by right).
  - fetch_with (byte_at_is_Some data (S pos)). step_ok.
  - fetch_with (be16_Some data (S pos)). step_ok.
  - fetch_with (be32_Some data (S pos)). step_ok.
Qed.

(** ** C1: what a failing primitive does to the position *)

Lemma status_Fail {A} (o : outcome A) : status o = Fail -> o = Fail.
Proof. by destruct o. Qed.

Lemma tag_step_fail {A} (data : list byte) (w pos : nat) (r : outcome A * nat) :
  tag_step data w pos r -> fst r = Fail ->
  ((size data <= pos)%nat /\ snd r = pos) \/
  ((pos < size data)%nat /\ snd r = S pos).
Proof.
  intros [[? ->] | [? [(v & p & -> & ?) | ->]]] Hf; simpl in *;
    [by left | done | by right].
Qed.

Lemma read_bin_fail (data : list byte) (max_size n : Z) (pos : nat) :
  ConvertToTree.ar_res (ConvertToTree.read_bin data max_size n pos) = Fail ->
  ((size data <= pos)%nat /\
   ConvertToTree.ar_pos (ConvertToTree.read_bin data max_size n pos) = pos) \/
  ((pos < size data)%nat /\
   (pos < ConvertToTree.ar_pos (ConvertToTree.read_bin data max_size n pos) <= pos + 5)%nat /\
   (ConvertToTree.ar_pos (ConvertToTree.read_bin data max_size n pos) <= size data)%nat).
Proof.
  unfold ConvertToTree.read_bin.
  destruct (bin_header_step data pos)
    as [[? ->] | [? [(sz & p & -> & ? & ?) | ->]]]; simpl.
  - by left.
  - intros Hf. right. repeat case_match; simplify_eq/=; lia.
  - intros _. right. lia.
Qed.

(** C1, as amended.  A primitive that returns [false] leaves [pos_] where it
    was only when no byte was left at [pos_]; otherwise the tag byte (and,
    in [read_bin], possibly the length field) stays consumed, and the
    position is still inside the buffer. *)
Theorem failed_primitive_position (p : primitive) (data : list byte)
    (pos : nat) :
  fst (run_primitive p data pos) = Fail ->
  ((size data <= pos)%nat /\ snd (run_primitive p data pos) = pos) \/
  ((pos < size data)%nat /\
   (pos < snd (run_primitive p data pos) <= pos + prefix_width p)%nat /\
   (snd (run_primitive p data pos) <= size data)%nat).
Proof.
  destruct p as [| | | |max_size n]; simpl; intros Hf.
  - apply status_Fail in Hf.
    destruct (tag_step_fail _ _ _ _ (read_array_header_step data pos) Hf)
      as [? | [? ->]]; [by left | right; lia].
  - apply status_Fail in Hf.
    destruct (tag_step_fail _ _ _ _ (read_uint_step data pos) Hf)
      as [? | [? ->]]; [by left | right; lia].
  - apply status_Fail in Hf.
    destruct (tag_step_fail _ _ _ _ (read_int_step data pos) Hf)
      as [? | [? ->]]; [by left | right; lia].
  - apply status_Fail in Hf.
    destruct (tag_step_fail _ _ _ _ (read_float64_step data pos) Hf)
      as [? | [? ->]]; [by left | right; lia].
  - by apply read_bin_fail.
Qed.

Lemma failed_primitive_position_witness :
  fst (run_primitive PUInt [xcc] 0) = Fail /\
  (((size [xcc] <= 0)%nat /\ snd (run_primitive PUInt [xcc] 0) = 0%nat) \/
   ((0 < size [xcc])%nat /\
    (0 < snd (run_primitive PUInt [xcc] 0) <= 0 + prefix_width PUInt)%nat /\
    (snd (run_primitive PUInt [xcc] 0) <= size [xcc])%nat)).
Proof.
  split; [reflexivity|].
  apply (failed_primitive_position PUInt [xcc] 0). reflexivity.
Defined.

(** C1 as stated does not hold: [read_uint] on the lone tag [0xcc] fails for
    want of its operand byte, and has moved past the tag. *)
Lemma position_kept_on_truncation_fails : ~ position_kept_on_truncation.
Proof.
  intros H. specialize (H PUInt [xcc] 0%nat).
  assert (Ht : truncated PUInt [xcc] 0).
  { split; [reflexivity|]. exists [x05]. reflexivity. }
  specialize (H Ht). vm_compute in H. discriminate.
Qed.

(** ** C9: the position moves forward and stays inside the buffer *)

Lemma tag_step_bounded {A} (data : list byte) (w : nat) (m : parser A) :
  (forall pos, tag_step data w pos (m pos)) -> bounded data m.
Proof.
  intros H pos Hp.
  destruct (H pos) as [[? ->] | [? [(v & p & -> & ?) | ->]]]; simpl; lia.
Qed.

Lemma tag_step_faultless {A} (data : list byte) (w : nat) (m : parser A) :
  (forall pos, tag_step data w pos (m pos)) -> faultless m.
Proof.
  intros H pos.
  by destruct (H pos) as [[? ->] | [? [(v & p & -> & ?) | ->]]].
Qed.

Lemma bounded_bind {A B} (data : list byte) (m : parser A)
    (k : A -> parser B) :
  bounded data m -> (forall a, bounded data (k a)) -> bounded data (bind m k).
Proof.
  intros Hm Hk pos Hp. unfold bind.
  specialize (Hm pos Hp). destruct (m pos) as [[a| |] p]; simpl in *; try lia.
  specialize (Hk a p). lia.
Qed.

Lemma faultless_bind {A B} (m : parser A) (k : A -> parser B) :
  faultless m -> (forall a, faultless (k a)) -> faultless (bind m k).
Proof.
  intros Hm Hk pos. unfold bind.
  specialize (Hm pos). destruct (m pos) as [[a| |] p]; simpl in *; try done.
  apply Hk.
Qed.

Lemma bounded_ret {A} (data : list byte) (a : A) : bounded data (ret a).
Proof. intros pos Hp. simpl. lia. Qed.

Lemma bounded_fail {A} (data : list byte) : bounded data (@fail A).
Proof. intros pos Hp. simpl. lia. Qed.

Lemma faultless_ret {A} (a : A) : faultless (ret a).
Proof. by intros pos. Qed.

Lemma faultless_fail {A} : faultless (@fail A).
Proof. by intros pos. Qed.

Lemma bounded_if {A} (data : list byte) (c : bool) (m1 m2 : parser A) :
  bounded data m1 -> bounded data m2 -> bounded data (if c then m1 else m2).
Proof. by destruct c. Qed.

Lemma faultless_if {A} (c : bool) (m1 m2 : parser A) :
  faultless m1 -> faultless m2 -> faultless (if c then m1 else m2).
Proof. by destruct c. Qed.

Lemma read_array_header_bounded data : bounded data (read_array_header data).
Proof. eapply tag_step_bounded, read_array_header_step. Qed.
Lemma read_uint_bounded data : bounded data (read_uint data).
Proof. eapply tag_step_bounded, read_uint_step. Qed.
Lemma read_float64_bounded data : bounded data (read_float64 data).
Proof. eapply tag_step_bounded, read_float64_step. Qed.
Lemma read_int_bounded data : bounded data (ConvertToTree.read_int data).
Proof. eapply tag_step_bounded, read_int_step. Qed.

Lemma read_array_header_faultless data : faultless (read_array_header data).
Proof. eapply tag_step_faultless, read_array_header_step. Qed.
Lemma read_uint_faultless data : faultless (read_uint data).
Proof. eapply tag_step_faultless, read_uint_step. Qed.
Lemma read_float64_faultless data : faultless (read_float64 data).
Proof. eapply tag_step_faultless, read_float64_step. Qed.
Lemma read_int_faultless data : faultless (ConvertToTree.read_int data).
Proof. eapply tag_step_faultless, read_int_step. Qed.

(** The element loop inherits both properties from its element reader. *)
Lemma read_elems_bounded (data : list byte) (rd : parser Z) conv max_size :
  bounded data rd ->
  forall count i pos, (pos <= size data)%nat ->
    (pos <= snd (ConvertToTree.read_elems rd conv max_size count i pos)
         <= size data)%nat.
Proof.
  intros Hrd. induction count as [|count IH]; intros i pos Hp; simpl; [lia|].
  specialize (Hrd pos Hp). destruct (rd pos) as [[v| |] p]; simpl in *; try lia.
  specialize (IH (S i) p).
  destruct (ConvertToTree.read_elems rd conv max_size count (S i) p)
    as [[res sts] q]; simpl in *. lia.
Qed.

Lemma read_elems_faultless (rd : parser Z) conv max_size :
  faultless rd ->
  forall count i pos,
    fst (fst (ConvertToTree.read_elems rd conv max_size count i pos)) <> Fault.
Proof.
  intros Hrd. induction count as [|count IH]; intros i pos; simpl; [done|].
  specialize (Hrd pos). destruct (rd pos) as [[v| |] p]; simpl in *; try done.
  specialize (IH (S i) p).
  by destruct (ConvertToTree.read_elems rd conv max_size count (S i) p)
    as [[res sts] q].
Qed.

Lemma read_i16_array_bounded data max_size n pos :
  (pos <= size data)%nat ->
  (pos <= ConvertToTree.ar_pos (ConvertToTree.read_i16_array data max_size n pos)
       <= size data)%nat.
Proof.
  intros Hp. unfold ConvertToTree.read_i16_array.
  pose proof (read_array_header_bounded data pos Hp) as Hh.
  destruct (read_array_header data pos) as [[sz| |] p]; simpl in *; try lia.
  pose proof (read_elems_bounded data _ cast_i16 max_size
                (read_int_bounded data) sz 0%nat p) as He.
  destruct (ConvertToTree.read_elems _ _ _ sz 0%nat p) as [[res sts] q].
  simpl in *. lia.
Qed.

Lemma read_i16_array_faultless data max_size n pos :
  ConvertToTree.ar_res (ConvertToTree.read_i16_array data max_size n pos)
  <> Fault.
Proof.
  unfold ConvertToTree.read_i16_array.
  pose proof (read_array_header_faultless data pos) as Hh.
  destruct (read_array_header data pos) as [[sz| |] p]; simpl in *; try done.
  pose proof (read_elems_faultless _ cast_i16 max_size
                (read_int_faultless data) sz 0%nat p) as He.
  by destruct (ConvertToTree.read_elems _ _ _ sz 0%nat p) as [[res sts] q].
Qed.

Lemma read_bin_bounded data max_size n pos :
  (pos <= size data)%nat ->
  (pos <= ConvertToTree.ar_pos (ConvertToTree.read_bin data max_size n pos)
       <= size data)%nat.
Proof.
  intros Hp. unfold ConvertToTree.read_bin.
  destruct (bin_header_step data pos)
    as [[? ->] | [? [(sz & p & -> & ? & ?) | ->]]]; simpl; try lia.
  repeat case_match; bool_hyps; simpl; lia.
Qed.

(** Small numbers are unchanged by the casts. *)
Lemma cast_int_small (z : Z) : 0 <= z < 2147483648 -> cast_int z = z.
Proof.
  intros H. unfold cast_int, cast_signed.
  change (2 ^ (32 - 1)) with 2147483648. change (2 ^ 32) with 4294967296.
  rewrite Z.mod_small; lia.
Qed.

Lemma cast_u64_small (z : Z) : 0 <= z < 2 ^ 64 -> cast_u64 z = z.
Proof. intros H. unfold cast_u64, cast_unsigned. by rewrite Z.mod_small. Qed.

(** *** Where [read_bin] leaves the buffer *)

Lemma u8_inj (b b' : byte) : u8 b = u8 b' -> b = b'.
Proof.
  unfold u8. intros H. apply N2Z.inj in H.
  pose proof (Byte.of_to_N b) as Hb. rewrite H, Byte.of_to_N in Hb.
  by injection Hb.
Qed.

Lemma byte_at_lookup (data : list byte) (i : nat) (b : byte) :
  byte_at data i = Some (u8 b) -> data !! i = Some b.
Proof.
  unfold byte_at. destruct (data !! i) as [b'|]; simpl; [|done].
  intros [= H]. f_equal. by apply u8_inj.
Qed.

(** What sits in [data] is what [take] and [drop] cut out of it. *)
Lemma bytes_at_take_drop (data : list byte) (p : nat) (l : list byte) :
  bytes_at data p l -> take (length l) (drop p data) = l.
Proof.
  revert p. induction l as [|b l IH]; intros p; simpl; [done|].
  intros [Hb Hl]. rewrite (drop_S _ _ _ Hb). simpl. f_equal. by apply IH.
Qed.

Lemma bytes_at_suffix (data : list byte) (p : nat) (l : list byte) :
  bytes_at data p l -> size data = (p + length l)%nat -> l `suffix_of` data.
Proof.
  intros Hl Hs. exists (take p data).
  rewrite <- (take_drop p data) at 1. f_equal.
  rewrite <- (bytes_at_take_drop _ _ _ Hl). symmetry. apply take_ge.
  rewrite length_drop. unfold size in Hs. lia.
Qed.

Lemma lor_shiftl_zero (hi lo k : Z) :
  0 <= hi -> 0 <= lo -> 0 <= k -> Z.lor (Z.shiftl hi k) lo = 0 ->
  hi = 0 /\ lo = 0.
Proof.
  intros Hhi Hlo Hk H. apply Z.lor_eq_0_iff in H as [H1 H2].
  split; [|done]. by apply Z.shiftl_eq_0_iff in H1.
Qed.

Lemma be16_bytes (data : list byte) (p : nat) (v : Z) :
  be16 data p = Some v ->
  exists b0 b1, bytes_at data p [b0; b1] /\
    v = Z.lor (Z.shiftl (u8 b0) 8) (u8 b1).
Proof.
  unfold be16, byte_at. rewrite Nat.add_1_r.
  destruct (data !! p) as [b0|] eqn:E0; [|done].
  destruct (data !! S p) as [b1|] eqn:E1; [|done].
  intros [= <-]. by exists b0, b1.
Qed.

Lemma be32_bytes (data : list byte) (p : nat) (v : Z) :
  be32 data p = Some v ->
  exists b0 b1 b2 b3, bytes_at data p [b0; b1; b2; b3] /\
    v = Z.lor (Z.lor (Z.lor (Z.shiftl (u8 b0) 24) (Z.shiftl (u8 b1) 16))
                     (Z.shiftl (u8 b2) 8)) (u8 b3).
Proof.
  unfold be32, byte_at.
  replace (p + 1)%nat with (S p) by lia.
  replace (p + 2)%nat with (S (S p)) by lia.
  replace (p + 3)%nat with (S (S (S p))) by lia.
  destruct (data !! p) as [b0|] eqn:E0; [|done].
  destruct (data !! S p) as [b1|] eqn:E1; [|done].
  destruct (data !! S (S p)) as [b2|] eqn:E2; [|done].
  destruct (data !! S (S (S p))) as [b3|] eqn:E3; [|done].
  intros [= <-]. by exists b0, b1, b2, b3.
Qed.

Lemma u8_zero (b : byte) : u8 b = 0 -> b = x00.
Proof. intros H. by apply u8_inj. Qed.

(** An empty byte string whose header ends the buffer is a header from
    the list, sitting at the end. *)
Lemma bin_header_at_end (data : list byte) (pos : nat) :
  ConvertToTree.bin_header data pos = (Ok 0%nat, size data) ->
  ends_in_empty_bin data.
Proof.
  unfold ConvertToTree.bin_header, ends_in_empty_bin, empty_bin_headers.
  destruct (size data <=? pos)%nat eqn:Hp; [done|].
  apply Nat.leb_gt in Hp. unfold byte_at at 1.
  destruct (data !! pos) as [t|] eqn:Et;
    cbn [fmap option_fmap option_map]; [|done].
  destruct (u8 t =? 196) eqn:T8; cbn [andb].
  { apply Z.eqb_eq in T8.
    destruct (S pos + 1 <=? size data)%nat; [|by rewrite T8].
    unfold byte_at. destruct (data !! S pos) as [b0|] eqn:E0; [|done].
    intros [= Hv Hs]. pose proof (u8_range b0).
    apply Exists_cons_hd, (bytes_at_suffix data pos); [|simpl; lia].
    assert (t = xc4) as -> by (by apply u8_inj).
    assert (b0 = x00) as -> by (apply u8_zero; lia).
    by repeat split. }
  destruct (u8 t =? 197) eqn:T16; cbn [andb].
  { apply Z.eqb_eq in T16.
    destruct (S pos + 2 <=? size data)%nat; [|by rewrite T16].
    destruct (be16 data (S pos)) as [v|] eqn:Ev; [|done].
    apply be16_bytes in Ev as (b0 & b1 & Hb & ->).
    intros [= Hv Hs]. pose proof (u8_range b0). pose proof (u8_range b1).
    assert (Hz : Z.lor (Z.shiftl (u8 b0) 8) (u8 b1) = 0).
    { assert (0 <= Z.lor (Z.shiftl (u8 b0) 8) (u8 b1)); [|lia].
      apply Z.lor_nonneg. split; [apply Z.shiftl_nonneg|]; lia. }
    apply lor_shiftl_zero in Hz as [Hz0 Hz1]; [|lia..].
    apply Exists_cons_tl, Exists_cons_hd, (bytes_at_suffix data pos);
      [|simpl; lia].
    assert (t = xc5) as -> by (by apply u8_inj).
    apply u8_zero in Hz0, Hz1. subst b0 b1. by split. }
  destruct (u8 t =? 198) eqn:T32; cbn [andb]; [|done].
  apply Z.eqb_eq in T32.
  destruct (S pos + 4 <=? size data)%nat; [|done].
  destruct (be32 data (S pos)) as [v|] eqn:Ev; [|done].
  apply be32_bytes in Ev as (b0 & b1 & b2 & b3 & Hb & ->).
  intros [= Hv Hs].
  pose proof (u8_range b0). pose proof (u8_range b1).
  pose proof (u8_range b2). pose proof (u8_range b3).
  assert (Hz : Z.lor (Z.lor (Z.lor (Z.shiftl (u8 b0) 24)
                 (Z.shiftl (u8 b1) 16)) (Z.shiftl (u8 b2) 8)) (u8 b3) = 0).
  { match goal with |- ?v = 0 => assert (0 <= v); [|lia] end.
    repeat (apply Z.lor_nonneg; split); try apply Z.shiftl_nonneg; lia. }
  apply Z.lor_eq_0_iff in Hz as [Hz Hz3].
  apply Z.lor_eq_0_iff in Hz as [Hz Hz2].
  apply Z.lor_eq_0_iff in Hz as [Hz0 Hz1].
  apply Z.shiftl_eq_0_iff in Hz0; [|lia].
  apply Z.shiftl_eq_0_iff in Hz1; [|lia].
  apply Z.shiftl_eq_0_iff in Hz2; [|lia].
  do 2 apply Exists_cons_tl.
  apply Exists_cons_hd, (bytes_at_suffix data pos); [|simpl; lia].
  assert (t = xc6) as -> by (by apply u8_inj).
  apply u8_zero in Hz0, Hz1, Hz2, Hz3. subst b0 b1 b2 b3. by split.
Qed.

(** [read_bin] takes the address of [data_[pos_]] with [pos_] at
    [data_.size()] exactly when the header of an empty byte string ends the
    buffer; below 2 GiB that is the only way it leaves the buffer. *)
Lemma read_bin_at_end data max_size n pos :
  ConvertToTree.bin_header data pos = (Ok 0%nat, size data) ->
  ConvertToTree.read_bin data max_size n pos =
  ConvertToTree.mk_array_read Fault (Z.min 0 max_size) [] (size data).
Proof.
  intros H. unfold ConvertToTree.read_bin. rewrite H.
  rewrite Nat.add_0_r, Nat.ltb_irrefl, byte_at_None by done.
  reflexivity.
Qed.

Lemma read_bin_fault data max_size n pos :
  (Z.of_nat (size data) < 2147483648) -> 0 <= max_size ->
  ConvertToTree.ar_res (ConvertToTree.read_bin data max_size n pos) = Fault ->
  ConvertToTree.bin_header data pos = (Ok 0%nat, size data).
Proof.
  intros Hsz Hmax. unfold ConvertToTree.read_bin.
  destruct (bin_header_step data pos)
    as [[? ->] | [? [(sz & p & -> & ? & ?) | ->]]]; simpl; try done.
  destruct (size data <? p + sz)%nat eqn:Hfit; bool_hyps; [done|].
  destruct (byte_at data p) as [b|] eqn:Hb.
  - unfold ConvertToTree.memcpy_faults.
    rewrite cast_int_small by lia.
    rewrite cast_u64_small by (change (2 ^ 64) with 18446744073709551616; lia).
    rewrite length_drop.
    destruct (_ <? _)%nat eqn:Hc; bool_hyps; [|done].
    unfold size in *. lia.
  - intros _.
    destruct (decide (p < size data)%nat) as [Hlt|Hge].
    + destruct (byte_at_Some data p Hlt) as (v & Hv & _). congruence.
    + do 2 f_equal; lia.
Qed.

Lemma read_bin_faultless data max_size n pos :
  (Z.of_nat (size data) < 2147483648) -> 0 <= max_size ->
  ~ ends_in_empty_bin data ->
  ConvertToTree.ar_res (ConvertToTree.read_bin data max_size n pos) <> Fault.
Proof.
  intros Hsz Hmax Hne Hf. apply Hne, (bin_header_at_end data pos).
  by apply (read_bin_fault data max_size n).
Qed.

Lemma read_u8_array_bounded data max_size n pos :
  (pos <= size data)%nat ->
  (pos <= ConvertToTree.ar_pos (ConvertToTree.read_u8_array data max_size n pos)
       <= size data)%nat.
Proof.
  intros Hp. unfold ConvertToTree.read_u8_array.
  destruct (size data <=? pos)%nat; simpl; [lia|].
  destruct (byte_at data pos); simpl; [|lia].
  destruct (_ || _); [by apply read_bin_bounded|].
  pose proof (read_array_header_bounded data pos Hp) as Hh.
  destruct (read_array_header data pos) as [[sz| |] p]; simpl in *; try lia.
  pose proof (read_elems_bounded data _ cast_u8 max_size
                (read_uint_bounded data) sz 0%nat p) as He.
  destruct (ConvertToTree.read_elems _ _ _ sz 0%nat p) as [[res sts] q].
  simpl in *. lia.
Qed.

Lemma read_u8_array_faultless data max_size n pos :
  (Z.of_nat (size data) < 2147483648) -> 0 <= max_size ->
  ~ ends_in_empty_bin data ->
  ConvertToTree.ar_res (ConvertToTree.read_u8_array data max_size n pos)
  <> Fault.
Proof.
  intros Hsz Hmax Hne. unfold ConvertToTree.read_u8_array.
  destruct (size data <=? pos)%nat eqn:Hp; bool_hyps; simpl; [done|].
  destruct (byte_at_Some data pos Hp) as (b & -> & _).
  destruct (_ || _); [by apply read_bin_faultless|].
  pose proof (read_array_header_faultless data pos) as Hh.
  destruct (read_array_header data pos) as [[sz| |] p]; simpl in *; try done.
  pose proof (read_elems_faultless _ cast_u8 max_size
                (read_uint_faultless data) sz 0%nat p) as He.
  by destruct (ConvertToTree.read_elems _ _ _ sz 0%nat p) as [[res sts] q].
Qed.

Lemma as_probe_bounded data (r : nat -> ConvertToTree.array_read) :
  (forall pos, (pos <= size data)%nat ->
     (pos <= ConvertToTree.ar_pos (r pos) <= size data)%nat) ->
  bounded data (ConvertToTree.as_probe r).
Proof. intros H pos Hp. simpl. by apply H. Qed.

Lemma as_probe_faultless (r : nat -> ConvertToTree.array_read) :
  (forall pos, ConvertToTree.ar_res (r pos) <> Fault) ->
  faultless (ConvertToTree.as_probe r).
Proof.
  intros H pos. unfold ConvertToTree.as_probe. simpl.
  specialize (H pos). by destruct (ConvertToTree.ar_res (r pos)).
Qed.

Create HintDb parser_db.
#[local] Hint Resolve
  bounded_ret bounded_fail faultless_ret faultless_fail
  read_array_header_bounded read_uint_bounded read_float64_bounded
  read_int_bounded read_array_header_faultless read_uint_faultless
  read_float64_faultless read_int_faultless
  read_i16_array_bounded read_u8_array_bounded read_bin_bounded
  read_i16_array_faultless read_u8_array_faultless read_bin_faultless
  : parser_db.

(** Walk down a parser written with [let*]. *)
Ltac walk_bounded :=
  repeat first
    [ solve [eauto with parser_db]
    | apply bounded_bind; [| intros ?]
    | apply bounded_if
    | apply as_probe_bounded; intros ? ? ].

Ltac walk_faultless :=
  repeat first
    [ solve [eauto with parser_db]
    | apply faultless_bind; [| intros ?]
    | apply faultless_if
    | apply as_probe_faultless; intros ? ].

Lemma parse_waveform_bounded data :
  bounded data (ConvertToTree.parse_waveform data).
Proof. unfold ConvertToTree.parse_waveform. walk_bounded. Qed.

Lemma parse_waveform_faultless data :
  Z.of_nat (size data) < 2147483648 -> ~ ends_in_empty_bin data ->
  faultless (ConvertToTree.parse_waveform data).
Proof.
  intros Hsz Hne. assert (0 <= ConvertToTree.MAX_WAVEFORM_SAMPLES) by done.
  unfold ConvertToTree.parse_waveform. walk_faultless.
Qed.

Lemma full_parse_event_bounded data :
  bounded data (ConvertToTree.parse_event data).
Proof.
  pose proof (parse_waveform_bounded data).
  unfold ConvertToTree.parse_event. walk_bounded.
Qed.

Lemma full_parse_event_faultless data :
  Z.of_nat (size data) < 2147483648 -> ~ ends_in_empty_bin data ->
  faultless (ConvertToTree.parse_event data).
Proof.
  intros Hsz Hne. pose proof (parse_waveform_faultless data Hsz Hne).
  unfold ConvertToTree.parse_event. walk_faultless.
Qed.

Lemma parse_batch_header_bounded data :
  bounded data (ConvertToTree.parse_batch_header data).
Proof. unfold ConvertToTree.parse_batch_header. walk_bounded. Qed.

Lemma parse_batch_header_faultless data :
  faultless (ConvertToTree.parse_batch_header data).
Proof. unfold ConvertToTree.parse_batch_header. walk_faultless. Qed.

Lemma summary_parse_event_bounded data :
  bounded data (ReadDelila.parse_event data).
Proof. unfold ReadDelila.parse_event. walk_bounded. Qed.

Lemma summary_parse_event_faultless data :
  faultless (ReadDelila.parse_event data).
Proof. unfold ReadDelila.parse_event. walk_faultless. Qed.

Lemma parse_events_bounded data count :
  bounded data (ReadDelila.parse_events data count).
Proof.
  pose proof (summary_parse_event_bounded data).
  induction count as [|count IH]; simpl; walk_bounded.
Qed.

Lemma parse_events_faultless data count :
  faultless (ReadDelila.parse_events data count).
Proof.
  pose proof (summary_parse_event_faultless data).
  induction count as [|count IH]; simpl; walk_faultless.
Qed.

Lemma parse_batch_bounded data : bounded data (ReadDelila.parse_batch data).
Proof.
  pose proof (parse_events_bounded data).
  unfold ReadDelila.parse_batch. walk_bounded.
Qed.

Lemma parse_batch_faultless data : faultless (ReadDelila.parse_batch data).
Proof.
  pose proof (parse_events_faultless data).
  unfold ReadDelila.parse_batch. walk_faultless.
Qed.

Lemma status_not_Fault {A} (o : outcome A) : o <> Fault -> status o <> Fault.
Proof. by destruct o. Qed.

(** C9.  The claim does not hold of the code.  On the two bytes
    [0xc4 0x00], an empty bin8 that ends the buffer, [read_bin] passes its
    size test and evaluates [&data_[pos_]] with [pos_ = data_.size() = 2];
    [read_u8_array] hands such bytes to [read_bin].  A block whose
    waveform stops right behind that header brings [parse_event] there,
    and with it the block loop of [convert_to_tree]. *)
Theorem empty_bin_at_buffer_end_is_indexed :
  ConvertToTree.read_bin [xc4; x00] ConvertToTree.MAX_WAVEFORM_SAMPLES 0 0
  = ConvertToTree.mk_array_read Fault 0 [] 2 /\
  ConvertToTree.read_u8_array [xc4; x00]
    ConvertToTree.MAX_WAVEFORM_SAMPLES 0 0
  = ConvertToTree.mk_array_read Fault 0 [] 2 /\
  run_operation OEvent cut_event 0 = (Fault, size cut_event) /\
  ConvertToTree.process_block 0 cut_block
    (ConvertToTree.mk_tree_state [] 0 0 0) = BodyUndefined /\
  lr_exit <$> ConvertToTree.convert_to_tree cut_file 0 = Some Undefined /\
  ~ parser_stays_in_bounds.
Proof.
  repeat (split; [by vm_compute|]).
  intros H.
  destruct (H (Prim (PBin ConvertToTree.MAX_WAVEFORM_SAMPLES 0))
              [xc4; x00] 0%nat) as [_ Hf]; [done | simpl; lia |].
  by apply Hf.
Qed.

(** The operations that can come to [read_bin]. *)
Lemma operation_without_bin_faultless (op : operation) (data : list byte)
    (pos : nat) :
  match op with
  | Prim (PBin _ _) | OU8Array _ _ | OWaveform | OEvent => False
  | _ => True
  end ->
  fst (run_operation op data pos) <> Fault.
Proof.
  destruct op as [[| | | |m n]|m n|m n| | | | |]; simpl; try done; intros _.
  - apply status_not_Fault, read_array_header_faultless.
  - apply status_not_Fault, read_uint_faultless.
  - apply status_not_Fault, read_int_faultless.
  - apply status_not_Fault, read_float64_faultless.
  - apply read_i16_array_faultless.
  - apply status_not_Fault, parse_batch_header_faultless.
  - apply status_not_Fault, summary_parse_event_faultless.
  - apply status_not_Fault, parse_batch_faultless.
Qed.

(** X19.  Whatever the operation, the buffer and the outcome, [pos_] does
    not decrease and does not pass [data_.size()].  In a buffer shorter
    than 2^31 bytes (every block is, the block loop refuses lengths above
    100,000,000) an operation indexes [data_] out of bounds only when the
    buffer ends in the header of an empty byte string ([c4 00], [c5 00 00]
    or [c6 00 00 00 00]), and only [read_bin] and its callers do; and
    [read_bin] does so whenever it is called on such a header. *)
Theorem position_stays_inside_the_buffer (op : operation) (data : list byte)
    (pos : nat) :
  capacity_ok op -> (pos <= size data)%nat ->
  (pos <= snd (run_operation op data pos) <= size data)%nat /\
  (Z.of_nat (size data) < 2147483648 ->
   fst (run_operation op data pos) = Fault ->
   ends_in_empty_bin data /\
   match op with
   | Prim (PBin _ _) | OU8Array _ _ | OWaveform | OEvent => True
   | _ => False
   end) /\
  (forall max_size n,
     ConvertToTree.bin_header data pos = (Ok 0%nat, size data) ->
     run_operation (Prim (PBin max_size n)) data pos = (Fault, size data)).
Proof.
  intros Hcap Hp. split; [|split].
  - destruct op as [[| | | |m n]|m n|m n| | | | |]; simpl in *.
    + by apply read_array_header_bounded.
    + by apply read_uint_bounded.
    + by apply read_int_bounded.
    + by apply read_float64_bounded.
    + by apply read_bin_bounded.
    + by apply read_u8_array_bounded.
    + by apply read_i16_array_bounded.
    + by apply parse_waveform_bounded.
    + by apply full_parse_event_bounded.
    + by apply parse_batch_header_bounded.
    + by apply summary_parse_event_bounded.
    + by apply parse_batch_bounded.
  - intros Hsz Hf. split.
    + destruct (decide (ends_in_empty_bin data)) as [|Hne]; [done|].
      exfalso. revert Hf.
      destruct op as [[| | | |m n]|m n|m n| | | | |];
        try (by apply operation_without_bin_faultless); simpl in *.
      * by apply read_bin_faultless.
      * by apply read_u8_array_faultless.
      * by apply status_not_Fault, parse_waveform_faultless.
      * by apply status_not_Fault, full_parse_event_faultless.
    + destruct op as [[| | | |m n]|m n|m n| | | | |]; try done;
        by apply operation_without_bin_faultless in Hf.
  - intros max_size n Hh. simpl. by rewrite read_bin_at_end.
Qed.

Lemma position_stays_inside_the_buffer_witness :
  capacity_ok OEvent /\ (0 <= size cut_event)%nat /\
  Z.of_nat (size cut_event) < 2147483648 /\
  fst (run_operation OEvent cut_event 0) = Fault /\
  snd (run_operation OEvent cut_event 0) = size cut_event /\
  ends_in_empty_bin cut_event.
Proof.
  assert (Hp : (0 <= size cut_event)%nat) by (simpl; lia).
  assert (Hs : Z.of_nat (size cut_event) < 2147483648) by (by vm_compute).
  assert (Hf : fst (run_operation OEvent cut_event 0) = Fault)
    by (by vm_compute).
  split; [exact I|]. split; [exact Hp|]. split; [exact Hs|].
  split; [exact Hf|]. split; [by vm_compute|].
  exact (proj1 (proj1 (proj2
    (position_stays_inside_the_buffer OEvent cut_event 0 I Hp)) Hs Hf)).
Defined.

(** ** C2, C8, C10: counts, cursor and stores of the sample readers *)

Lemma run_reader_header (rk : reader) data max_size n pos :
  match declared (form_taken rk data pos) data pos with
  | (Ok sz, p0) =>
    ConvertToTree.ar_n (run_reader rk data max_size n pos)
    = Z.min (cast_int (Z.of_nat sz)) max_size
  | _ => True
  end.
Proof.
  destruct rk; simpl.
  - unfold ConvertToTree.read_i16_array.
    destruct (read_array_header data pos) as [[sz| |] p]; [|done..].
    by destruct (ConvertToTree.read_elems _ _ _ _ _ _) as [[??]?].
  - unfold ConvertToTree.read_u8_array.
    destruct (size data <=? pos)%nat eqn:Hp; bool_hyps.
    { rewrite byte_at_None by done. simpl.
      destruct (read_array_header_step data pos)
        as [[_ ->] | [? _]]; [done | lia]. }
    destruct (byte_at_Some data pos Hp) as (b & -> & _).
    destruct (_ || _); simpl.
    + unfold ConvertToTree.read_bin.
      destruct (ConvertToTree.bin_header data pos) as [[sz| |] p]; [|done..].
      by repeat case_match.
    + destruct (read_array_header data pos) as [[sz| |] p]; [|done..].
      by destruct (ConvertToTree.read_elems _ _ _ _ _ _) as [[??]?].
  - unfold ConvertToTree.read_bin.
    destruct (ConvertToTree.bin_header data pos) as [[sz| |] p]; [|done..].
    by repeat case_match.
Qed.

(** C2, as amended.  The count handed back is the smaller of the declared
    length and the cap: above the cap (and below 2^31, where [int] still
    holds the declared length) it is the cap, not the declared length. *)
Theorem count_is_capped (rk : reader) (data : list byte) (max_size n : Z)
    (pos sz p0 : nat) :
  declared (form_taken rk data pos) data pos = (Ok sz, p0) ->
  Z.of_nat sz < 2147483648 ->
  ConvertToTree.ar_n (run_reader rk data max_size n pos)
  = Z.min (Z.of_nat sz) max_size /\
  (max_size < Z.of_nat sz ->
   ConvertToTree.ar_n (run_reader rk data max_size n pos) = max_size).
Proof.
  intros Hd Hsz. pose proof (run_reader_header rk data max_size n pos) as H.
  rewrite Hd in H. rewrite cast_int_small in H by lia. split; [done|lia].
Qed.

Lemma over_cap_bin_declared :
  declared (form_taken RBin over_cap_bin 0) over_cap_bin 0
  = (Ok (Z.to_nat 16385), 3%nat).
Proof. vm_compute. reflexivity. Qed.

Lemma count_is_capped_witness :
  declared (form_taken RBin over_cap_bin 0) over_cap_bin 0
  = (Ok (Z.to_nat 16385), 3%nat) /\
  Z.of_nat (Z.to_nat 16385) < 2147483648 /\
  (ConvertToTree.ar_n (run_reader RBin over_cap_bin 16384 0 0)
   = Z.min (Z.of_nat (Z.to_nat 16385)) 16384 /\
   (16384 < Z.of_nat (Z.to_nat 16385) ->
    ConvertToTree.ar_n (run_reader RBin over_cap_bin 16384 0 0) = 16384)).
Proof.
  assert (H2 : Z.of_nat (Z.to_nat 16385) < 2147483648) by lia.
  split; [exact over_cap_bin_declared|]. split; [exact H2|].
  exact (count_is_capped RBin over_cap_bin 16384 0 0 (Z.to_nat 16385) 3
           over_cap_bin_declared H2).
Defined.

(** C2 as stated does not hold: a [bin16] of 16385 bytes decodes with the
    count 16384. *)
Lemma count_is_declared_length_fails : ~ count_is_declared_length.
Proof.
  intros H.
  specialize (H RBin over_cap_bin 0 0%nat (Z.to_nat 16385) 3%nat
                over_cap_bin_declared).
  assert (Hok : ConvertToTree.ar_res
            (run_reader RBin over_cap_bin ConvertToTree.MAX_WAVEFORM_SAMPLES
               0 0) = Ok tt) by (vm_compute; reflexivity).
  specialize (H Hok).
  assert (Hn : ConvertToTree.ar_n
            (run_reader RBin over_cap_bin ConvertToTree.MAX_WAVEFORM_SAMPLES
               0 0) = 16384) by (vm_compute; reflexivity).
  rewrite Hn in H. unfold ConvertToTree.MAX_WAVEFORM_SAMPLES in H. lia.
Qed.

(** The element loop ends where the elements end, cap or no cap. *)
Lemma read_elems_end (rd : parser Z) conv max_size :
  forall count i pos sts p,
    ConvertToTree.read_elems rd conv max_size count i pos = (Ok tt, sts, p) ->
    elems_end rd count pos = Some p.
Proof.
  induction count as [|count IH]; intros i pos sts p; simpl.
  - by intros [= _ ->].
  - destruct (rd pos) as [[v| |] q]; [|done..].
    destruct (ConvertToTree.read_elems rd conv max_size count (S i) q)
      as [[res sts'] p'] eqn:He.
    intros [= -> _ ->]. by eapply IH.
Qed.

(** C8.  A sample reader that returns [true] has moved [pos_] past every
    declared element, whatever the cap: the next read starts at the byte
    after the complete sequence. *)
Theorem cursor_past_declared_length (rk : reader) (data : list byte)
    (max_size n : Z) (pos : nat) :
  ConvertToTree.ar_res (run_reader rk data max_size n pos) = Ok tt ->
  exists sz p0,
    declared (form_taken rk data pos) data pos = (Ok sz, p0) /\
    sequence_end (form_taken rk data pos) data sz p0
    = Some (ConvertToTree.ar_pos (run_reader rk data max_size n pos)).
Proof.
  assert (Hbin : forall pos,
    ConvertToTree.ar_res (ConvertToTree.read_bin data max_size n pos) = Ok tt ->
    exists sz p0,
      ConvertToTree.bin_header data pos = (Ok sz, p0) /\
      sequence_end Binary data sz p0
      = Some (ConvertToTree.ar_pos (ConvertToTree.read_bin data max_size n pos))).
  { intros q. unfold ConvertToTree.read_bin.
    destruct (ConvertToTree.bin_header data q) as [[sz| |] p]; [|done..].
    simpl. destruct (size data <? p + sz)%nat eqn:Hfit; [done|].
    destruct (byte_at data p); [|done].
    destruct (ConvertToTree.memcpy_faults _ _ _); [done|]. simpl.
    intros _. exists sz, p. by rewrite Hfit. }
  destruct rk; simpl.
  - unfold ConvertToTree.read_i16_array.
    destruct (read_array_header data pos) as [[sz| |] p]; [|done..].
    destruct (ConvertToTree.read_elems _ _ _ _ _ _) as [[res sts] q] eqn:He.
    simpl. intros ->. exists sz, p. split; [done|].
    by eapply read_elems_end.
  - unfold ConvertToTree.read_u8_array.
    destruct (size data <=? pos)%nat eqn:Hp; [done|].
    destruct (byte_at data pos) as [b|]; [|done].
    destruct (_ || _); simpl; [apply Hbin|].
    destruct (read_array_header data pos) as [[sz| |] p]; [|done..].
    destruct (ConvertToTree.read_elems _ _ _ _ _ _) as [[res sts] q] eqn:He.
    simpl. intros ->. exists sz, p. split; [done|].
    by eapply read_elems_end.
  - apply Hbin.
Qed.

(** Each store of the element loop belongs to an element that was read, and
    passed the test against the cap. *)
Lemma read_elems_stores (data : list byte) (rd : parser Z) conv max_size
    (w : nat) :
  (forall pos, tag_step data w pos (rd pos)) ->
  forall count i pos j v,
    In (j, v)
       (snd (fst (ConvertToTree.read_elems rd conv max_size count i pos))) ->
    (i <= j)%nat /\ (j - i < size data - pos)%nat /\
    cast_int (Z.of_nat j) < max_size.
Proof.
  intros Hrd. induction count as [|count IH]; intros i pos j v; simpl; [done|].
  destruct (Hrd pos) as [[? ->] | [? [(x & p & -> & ? & ?) | ->]]];
    [done | | done].
  specialize (IH (S i) p j v).
  destruct (ConvertToTree.read_elems rd conv max_size count (S i) p)
    as [[res sts] q]. simpl in *.
  rewrite in_app_iff. intros [Hin | Hin].
  - destruct (cast_int (Z.of_nat i) <? max_size) eqn:Hc; [|done].
    destruct Hin as [[= <- <-] | []]. bool_hyps. split; [lia|]. split; [lia|done].
  - destruct (IH Hin) as (? & ? & ?). split; [lia|]. split; [lia|done].
Qed.

Lemma memcpy_stores_index (data : list byte) (pos : nat) (n : Z) i v :
  In (i, v) (ConvertToTree.memcpy_stores data pos n) ->
  (i < Z.to_nat (cast_u64 n))%nat.
Proof.
  unfold ConvertToTree.memcpy_stores, ConvertToTree.memcpy_source.
  intros Hin. apply list_elem_of_In, list_elem_of_lookup in Hin.
  destruct Hin as [k Hk]. rewrite list_lookup_imap in Hk.
  destruct (take _ _ !! k) as [b|] eqn:Hb; [|done].
  simpl in Hk. injection Hk as <- _.
  apply lookup_lt_Some in Hb. rewrite length_take in Hb. lia.
Qed.

Lemma read_bin_stores data max_size n pos i v :
  Z.of_nat (size data) < 2147483648 -> 0 <= max_size ->
  In (i, v) (ConvertToTree.ar_stores (ConvertToTree.read_bin data max_size n pos)) ->
  Z.of_nat i < max_size.
Proof.
  intros Hsz Hmax. unfold ConvertToTree.read_bin.
  destruct (ConvertToTree.bin_header data pos) as [[sz| |] p]; [|done..].
  simpl. destruct (size data <? p + sz)%nat eqn:Hfit; bool_hyps; [done|].
  rewrite cast_int_small by lia.
  assert (Hi : In (i, v) (ConvertToTree.memcpy_stores data p
                            (Z.min (Z.of_nat sz) max_size)) ->
               Z.of_nat i < max_size).
  { intros Hin. apply memcpy_stores_index in Hin.
    rewrite cast_u64_small in Hin
      by (change (2 ^ 64) with 18446744073709551616; lia). lia. }
  destruct (byte_at data p); [|done].
  by destruct (ConvertToTree.memcpy_faults _ _ _).
Qed.

(** C10.  With a capacity that is not negative, on a buffer shorter than
    2^31 bytes, no reader stores at an index at or above [max_size],
    whatever count the stream declares and however the call ends.  Both
    hypotheses hold of every call the programs make: the capacity is
    [MAX_WAVEFORM_SAMPLES], and a parser is only ever built on a block the
    loop has accepted, of at most 100,000,000 bytes. *)
Theorem stores_below_capacity_in_blocks (rk : reader) (data : list byte)
    (max_size n : Z) (pos i : nat) (v : Z) :
  Z.of_nat (size data) < 2147483648 -> 0 <= max_size ->
  In (i, v) (ConvertToTree.ar_stores (run_reader rk data max_size n pos)) ->
  Z.of_nat i < max_size.
Proof.
  intros Hsz Hmax.
  assert (Harr : forall (rd : parser Z) conv w sz p,
    (forall pos, tag_step data w pos (rd pos)) ->
    In (i, v) (snd (fst (ConvertToTree.read_elems rd conv max_size sz 0 p))) ->
    Z.of_nat i < max_size).
  { intros rd conv w sz p Hrd Hin.
    destruct (read_elems_stores data rd conv max_size w Hrd sz 0%nat p i v Hin)
      as (_ & Hlt & Hc).
    rewrite cast_int_small in Hc; [done|]. unfold size in *. lia. }
  destruct rk; simpl.
  - unfold ConvertToTree.read_i16_array.
    destruct (read_array_header data pos) as [[sz| |] p]; [|done..].
    destruct (ConvertToTree.read_elems _ _ _ _ _ _) as [[res sts] q] eqn:He.
    simpl. intros Hin. eapply (Harr _ _ _ sz p (read_int_step data)).
    by rewrite He.
  - unfold ConvertToTree.read_u8_array.
    destruct (size data <=? pos)%nat; [done|].
    destruct (byte_at data pos) as [b|]; [|done].
    destruct (_ || _); [by apply read_bin_stores|].
    destruct (read_array_header data pos) as [[sz| |] p]; [|done..].
    destruct (ConvertToTree.read_elems _ _ _ _ _ _) as [[res sts] q] eqn:He.
    simpl. intros Hin. eapply (Harr _ _ _ sz p (read_uint_step data)).
    by rewrite He.
  - by apply read_bin_stores.
Qed.

Lemma cursor_past_declared_length_witness :
  ConvertToTree.ar_res (run_reader RBin over_cap_bin 16384 0 0) = Ok tt /\
  exists sz p0,
    declared (form_taken RBin over_cap_bin 0) over_cap_bin 0 = (Ok sz, p0) /\
    sequence_end (form_taken RBin over_cap_bin 0) over_cap_bin sz p0
    = Some (ConvertToTree.ar_pos (run_reader RBin over_cap_bin 16384 0 0)).
Proof.
  assert (Hok : ConvertToTree.ar_res (run_reader RBin over_cap_bin 16384 0 0)
                = Ok tt) by (vm_compute; reflexivity).
  split; [exact Hok|].
  exact (cursor_past_declared_length RBin over_cap_bin 16384 0 0 Hok).
Defined.

Lemma stores_below_capacity_in_blocks_witness :
  Z.of_nat (size [xc4; x03; x01; x02; x09]) < 2147483648 /\
  0 <= 2 /\
  In (1%nat, 2)
     (ConvertToTree.ar_stores (run_reader RBin [xc4; x03; x01; x02; x09] 2 0 0))
  /\ Z.of_nat 1 < 2.
Proof.
  assert (H1 : Z.of_nat (size [xc4; x03; x01; x02; x09]) < 2147483648)
    by (simpl; lia).
  assert (H2 : 0 <= 2) by lia.
  assert (H3 : In (1%nat, 2)
     (ConvertToTree.ar_stores
        (run_reader RBin [xc4; x03; x01; x02; x09] 2 0 0)))
    by (vm_compute; right; left; reflexivity).
  split; [exact H1|]. split; [exact H2|]. split; [exact H3|].
  exact (stores_below_capacity_in_blocks RBin [xc4; x03; x01; x02; x09]
           2 0 0 1 2 H1 H2 H3).
Defined.

(** ** C3: which element counts [parse_event] takes *)

Lemma bind_Ok {A B} (m : parser A) (k : A -> parser B) pos b q :
  bind m k pos = (Ok b, q) ->
  exists a p, m pos = (Ok a, p) /\ k a p = (Ok b, q).
Proof.
  unfold bind. destruct (m pos) as [[a| |] p]; [|done..]. intros H.
  by exists a, p.
Qed.

Lemma status_Ok {A} (o : outcome A) : status o = Ok tt -> exists a, o = Ok a.
Proof. destruct o; [by eexists | done..]. Qed.

(** The full reader: a count other than 6 and 7 is refused, and the count
    alone decides whether a waveform is read. *)
Lemma full_parse_event_count data pos ev q :
  ConvertToTree.parse_event data pos = (Ok ev, q) ->
  exists c p,
    read_array_header data pos = (Ok c, p) /\
    (c = 6%nat \/ c = 7%nat) /\
    ConvertToTree.has_waveform ev = (c =? 7)%nat.
Proof.
  unfold ConvertToTree.parse_event. intros H.
  apply bind_Ok in H as (c & p & Hh & H). exists c, p. split; [done|].
  destruct (negb (c =? 6)%nat && negb (c =? 7)%nat) eqn:Hc; [done|].
  repeat (apply bind_Ok in H as (? & ? & _ & H)).
  split.
  - apply andb_false_iff in Hc as [Hc | Hc]; bool_hyps; lia.
  - destruct (c =? 7)%nat eqn:H7.
    + apply bind_Ok in H as (w & ? & _ & H). by injection H as <- _.
    + by injection H as <- _.
Qed.

(** The summary reader: any count but 6 is refused. *)
Lemma summary_parse_event_count data pos ev q :
  ReadDelila.parse_event data pos = (Ok ev, q) ->
  exists p, read_array_header data pos = (Ok 6%nat, p).
Proof.
  unfold ReadDelila.parse_event. intros H.
  apply bind_Ok in H as (c & p & Hh & H). exists p.
  destruct (negb (c =? 6)%nat) eqn:Hc; [done|]. bool_hyps. by subst.
Qed.

(** On a six-element record the two shapes do the same. *)
Lemma full_is_summary_on_six data pos p :
  read_array_header data pos = (Ok 6%nat, p) ->
  ReadDelila.parse_event data pos =
  match ConvertToTree.parse_event data pos with
  | (Ok ev, q) => (Ok (summary_of ev), q)
  | (Fail, q) => (Fail, q)
  | (Fault, q) => (Fault, q)
  end.
Proof.
  intros Hh. unfold ReadDelila.parse_event, ConvertToTree.parse_event, bind.
  rewrite Hh. simpl.
  repeat match goal with
  | |- context [read_uint data ?q] =>
    destruct (read_uint data q) as [[?| |] ?]; try reflexivity
  | |- context [read_float64 data ?q] =>
    destruct (read_float64 data q) as [[?| |] ?]; try reflexivity
  end.
Qed.

Lemma event6_full : ConvertToTree.parse_event event6 0%nat =
  (Ok (ConvertToTree.mk_event 1 2 100 50 4653144203864309760 0 false
         ConvertToTree.no_waveform), 15%nat).
Proof. vm_compute. reflexivity. Qed.

Lemma event6_summary : ReadDelila.parse_event event6 0%nat =
  (Ok (ReadDelila.mk_Event 1 2 100 50 4653144203864309760 0), 15%nat).
Proof. vm_compute. reflexivity. Qed.

Lemma event7_full : ConvertToTree.parse_event event7 0%nat =
  (Ok (ConvertToTree.mk_event 1 2 100 50 4653144203864309760 0 true
         (ConvertToTree.mk_waveform
            (ConvertToTree.mk_probe 2 [(0%nat, -2); (1%nat, 300)])
            (ConvertToTree.mk_probe 0 [])
            (ConvertToTree.mk_probe 2 [(0%nat, 1); (1%nat, 200)])
            (ConvertToTree.mk_probe 1 [(0%nat, 7)])
            (ConvertToTree.mk_probe 0 [])
            (ConvertToTree.mk_probe 0 [])
            2 1000)), 35%nat).
Proof. vm_compute. reflexivity. Qed.

Lemma event7_summary : ReadDelila.parse_event event7 0%nat = (Fail, 1%nat).
Proof. vm_compute. reflexivity. Qed.

(** C3, as amended.  The full reader accepts exactly the counts 6 and 7 and
    reads a waveform exactly when the count is 7; the summary reader accepts
    exactly the count 6, where it agrees with the full reader, and refuses
    7 like any other count. *)
Theorem event_counts_accepted :
  (forall c, accepts FullShape c <-> (c = 6%nat \/ c = 7%nat)) /\
  (forall c, accepts SummaryShape c <-> c = 6%nat) /\
  (forall data pos ev q,
     ConvertToTree.parse_event data pos = (Ok ev, q) ->
     exists c p, read_array_header data pos = (Ok c, p) /\
                 ConvertToTree.has_waveform ev = (c =? 7)%nat) /\
  (forall data pos ev q p,
     read_array_header data pos = (Ok 6%nat, p) ->
     ConvertToTree.parse_event data pos = (Ok ev, q) ->
     ReadDelila.parse_event data pos = (Ok (summary_of ev), q)).
Proof.
  split; [|split; [|split]].
  - intros c. split.
    + intros (data & pos & p & Hh & Hok). simpl in Hok.
      apply status_Ok in Hok as [ev Hev].
      destruct (ConvertToTree.parse_event data pos) as [o q] eqn:He.
      simpl in Hev. subst o.
      apply full_parse_event_count in He as (c' & p' & Hh' & Hc & _).
      rewrite Hh in Hh'. by injection Hh' as <- _.
    + intros [-> | ->].
      * exists event6, 0%nat, 1%nat. split; [reflexivity|].
        unfold decode_event. by rewrite event6_full.
      * exists event7, 0%nat, 1%nat. split; [reflexivity|].
        unfold decode_event. by rewrite event7_full.
  - intros c. split.
    + intros (data & pos & p & Hh & Hok). simpl in Hok.
      apply status_Ok in Hok as [ev Hev].
      destruct (ReadDelila.parse_event data pos) as [o q] eqn:He.
      simpl in Hev. subst o.
      apply summary_parse_event_count in He as (p' & Hh').
      rewrite Hh in Hh'. by injection Hh' as -> _.
    + intros ->. exists event6, 0%nat, 1%nat. split; [reflexivity|].
      unfold decode_event. by rewrite event6_summary.
  - intros data pos ev q He.
    apply full_parse_event_count in He as (c & p & Hh & _ & Hw). eauto.
  - intros data pos ev q p Hh He.
    rewrite (full_is_summary_on_six data pos p Hh). by rewrite He.
Qed.

(** The sample event with its waveform, in both shapes. *)
Lemma event_counts_accepted_witness :
  ConvertToTree.parse_event event7 0%nat <> (Fail, 1%nat) /\
  ReadDelila.parse_event event7 0%nat = (Fail, 1%nat) /\
  accepts FullShape 7 /\ ~ accepts SummaryShape 7.
Proof.
  destruct event_counts_accepted as (Hfull & Hsum & _ & _).
  split; [by rewrite event7_full|]. split; [exact event7_summary|].
  split.
  - apply Hfull. by right.
  - intros H. apply Hsum in H. discriminate.
Defined.

(** C3 as stated does not hold: no record of seven elements decodes in the
    summary shape; [event7], which the full reader takes, is refused after
    its first byte. *)
Lemma both_shapes_accept_6_and_7_fails : ~ both_shapes_accept_6_and_7.
Proof.
  intros H.
  assert (Ha : accepts SummaryShape 7) by (apply H; by right).
  destruct Ha as (data & pos & p & Hh & Hok). simpl in Hok.
  apply status_Ok in Hok as [ev Hev].
  destruct (ReadDelila.parse_event data pos) as [o q] eqn:He.
  simpl in Hev. subst o.
  apply summary_parse_event_count in He as (p' & Hh').
  rewrite Hh in Hh'. discriminate.
Qed.

(** ** C4: integers come back as they were written *)

Lemma u8_byte_of (z : Z) : u8 (byte_of z) = z mod 256.
Proof.
  unfold byte_of, u8.
  assert (Hr : 0 <= z mod 256 < 256) by (apply Z.mod_pos_bound; lia).
  destruct (Byte.of_N (Z.to_N (z mod 256))) as [b|] eqn:Hb.
  - apply Byte.to_of_N in Hb. simpl. rewrite Hb. lia.
  - apply Byte.of_N_None_iff in Hb. lia.
Qed.

(** [hi * 2^k | lo] is [hi * 2^k + lo] when [lo] fits in [k] bits. *)
Lemma lor_mul_add (hi lo k : Z) :
  0 <= k -> 0 <= lo < 2 ^ k -> Z.lor (hi * 2 ^ k) lo = hi * 2 ^ k + lo.
Proof.
  intros Hk Hlo. symmetry. apply Z.add_nocarry_lor.
  apply Z.bits_inj'. intros i Hi. rewrite Z.land_spec, Z.bits_0.
  destruct (Z.lt_ge_cases i k) as [Hlt | Hge].
  - rewrite Z.mul_pow2_bits_low by done. done.
  - replace (Z.testbit lo i) with false; [by rewrite andb_false_r|].
    symmetry. destruct (Z.eq_dec lo 0) as [-> | Hne]; [apply Z.bits_0|].
    apply Z.bits_above_log2; [lia|].
    apply Z.log2_lt_pow2; [lia|]. eapply Z.lt_le_trans; [apply Hlo|].
    apply Z.pow_le_mono_r; lia.
Qed.

Section ByteCombinations.
Variables b0 b1 b2 b3 b4 b5 b6 b7 : Z.
Hypothesis r0 : 0 <= b0 < 256.
Hypothesis r1 : 0 <= b1 < 256.
Hypothesis r2 : 0 <= b2 < 256.
Hypothesis r3 : 0 <= b3 < 256.
Hypothesis r4 : 0 <= b4 < 256.
Hypothesis r5 : 0 <= b5 < 256.
Hypothesis r6 : 0 <= b6 < 256.
Hypothesis r7 : 0 <= b7 < 256.

Lemma be16_value : Z.lor (Z.shiftl b0 8) b1 = b0 * 2 ^ 8 + b1.
Proof. rewrite Z.shiftl_mul_pow2 by lia. apply lor_mul_add; lia. Qed.

Lemma be32_value :
  Z.lor (Z.lor (Z.lor (Z.shiftl b0 24) (Z.shiftl b1 16)) (Z.shiftl b2 8)) b3
  = b0 * 2 ^ 24 + b1 * 2 ^ 16 + b2 * 2 ^ 8 + b3.
Proof.
  rewrite !Z.shiftl_mul_pow2 by lia.
  rewrite (lor_mul_add b0 (b1 * 2 ^ 16) 24) by lia.
  replace (b0 * 2 ^ 24 + b1 * 2 ^ 16) with ((b0 * 2 ^ 8 + b1) * 2 ^ 16) by lia.
  rewrite (lor_mul_add _ (b2 * 2 ^ 8) 16) by lia.
  replace ((b0 * 2 ^ 8 + b1) * 2 ^ 16 + b2 * 2 ^ 8)
    with ((b0 * 2 ^ 16 + b1 * 2 ^ 8 + b2) * 2 ^ 8) by lia.
  rewrite (lor_mul_add _ b3 8) by lia. lia.
Qed.

Lemma be64_value :
  Z.lor (Z.lor (Z.lor (Z.lor (Z.lor (Z.lor (Z.lor
    (Z.shiftl b0 56) (Z.shiftl b1 48)) (Z.shiftl b2 40)) (Z.shiftl b3 32))
    (Z.shiftl b4 24)) (Z.shiftl b5 16)) (Z.shiftl b6 8)) b7
  = b0 * 2 ^ 56 + b1 * 2 ^ 48 + b2 * 2 ^ 40 + b3 * 2 ^ 32
    + b4 * 2 ^ 24 + b5 * 2 ^ 16 + b6 * 2 ^ 8 + b7.
Proof.
  rewrite !Z.shiftl_mul_pow2 by lia.
  rewrite (lor_mul_add b0 (b1 * 2 ^ 48) 56) by lia.
  replace (b0 * 2 ^ 56 + b1 * 2 ^ 48) with ((b0 * 2 ^ 8 + b1) * 2 ^ 48) by lia.
  rewrite (lor_mul_add _ (b2 * 2 ^ 40) 48) by lia.
  replace ((b0 * 2 ^ 8 + b1) * 2 ^ 48 + b2 * 2 ^ 40)
    with ((b0 * 2 ^ 16 + b1 * 2 ^ 8 + b2) * 2 ^ 40) by lia.
  rewrite (lor_mul_add _ (b3 * 2 ^ 32) 40) by lia.
  replace ((b0 * 2 ^ 16 + b1 * 2 ^ 8 + b2) * 2 ^ 40 + b3 * 2 ^ 32)
    with ((b0 * 2 ^ 24 + b1 * 2 ^ 16 + b2 * 2 ^ 8 + b3) * 2 ^ 32) by lia.
  rewrite (lor_mul_add _ (b4 * 2 ^ 24) 32) by lia.
  replace ((b0 * 2 ^ 24 + b1 * 2 ^ 16 + b2 * 2 ^ 8 + b3) * 2 ^ 32
           + b4 * 2 ^ 24)
    with ((b0 * 2 ^ 32 + b1 * 2 ^ 24 + b2 * 2 ^ 16 + b3 * 2 ^ 8 + b4)
          * 2 ^ 24) by lia.
  rewrite (lor_mul_add _ (b5 * 2 ^ 16) 24) by lia.
  replace ((b0 * 2 ^ 32 + b1 * 2 ^ 24 + b2 * 2 ^ 16 + b3 * 2 ^ 8 + b4)
           * 2 ^ 24 + b5 * 2 ^ 16)
    with ((b0 * 2 ^ 40 + b1 * 2 ^ 32 + b2 * 2 ^ 24 + b3 * 2 ^ 16
           + b4 * 2 ^ 8 + b5) * 2 ^ 16) by lia.
  rewrite (lor_mul_add _ (b6 * 2 ^ 8) 16) by lia.
  replace ((b0 * 2 ^ 40 + b1 * 2 ^ 32 + b2 * 2 ^ 24 + b3 * 2 ^ 16
            + b4 * 2 ^ 8 + b5) * 2 ^ 16 + b6 * 2 ^ 8)
    with ((b0 * 2 ^ 48 + b1 * 2 ^ 40 + b2 * 2 ^ 32 + b3 * 2 ^ 24
           + b4 * 2 ^ 16 + b5 * 2 ^ 8 + b6) * 2 ^ 8) by lia.
  rewrite (lor_mul_add _ b7 8) by lia. lia.
Qed.
End ByteCombinations.

Lemma bytes_at_app_r (data : list byte) p l1 l2 :
  bytes_at data p (l1 ++ l2) <->
  bytes_at data p l1 /\ bytes_at data (p + length l1) l2.
Proof.
  revert p. induction l1 as [|b l1 IH]; intros p; simpl.
  - rewrite Nat.add_0_r. tauto.
  - rewrite IH.
    replace (S p + length l1)%nat with (p + S (length l1))%nat by lia.
    tauto.
Qed.

Lemma bytes_at_middle (pre l suf : list byte) :
  bytes_at (pre ++ l ++ suf) (length pre) l.
Proof.
  revert pre. induction l as [|b l IH]; intros pre; simpl; [done|]. split.
  - rewrite lookup_app_r by lia. by rewrite Nat.sub_diag.
  - specialize (IH (pre ++ [b])).
    rewrite length_app, Nat.add_1_r, <- app_assoc in IH. exact IH.
Qed.

Lemma bytes_at_size (data : list byte) p l :
  bytes_at data p l -> l <> [] -> (p + length l <= size data)%nat.
Proof.
  revert p. induction l as [|b l IH]; intros p; [done|]. simpl.
  intros [Hb Hl] _. apply lookup_lt_Some in Hb. unfold size in *.
  destruct l as [|b' l]; [simpl; lia|].
  specialize (IH (S p) Hl ltac:(done)). simpl in *. lia.
Qed.

Lemma bytes_at_byte (data : list byte) p b l :
  bytes_at data p (b :: l) -> byte_at data p = Some (u8 b).
Proof. intros [Hb _]. unfold byte_at. by rewrite Hb. Qed.

Lemma bytes_at_tail (data : list byte) p b l :
  bytes_at data p (b :: l) -> bytes_at data (S p) l.
Proof. by intros [_ Hl]. Qed.

Lemma be16_at (data : list byte) p b0 b1 l :
  bytes_at data p (b0 :: b1 :: l) ->
  be16 data p = Some (u8 b0 * 2 ^ 8 + u8 b1).
Proof.
  intros H. unfold be16.
  rewrite (bytes_at_byte _ _ _ _ H). apply bytes_at_tail in H.
  rewrite Nat.add_1_r, (bytes_at_byte _ _ _ _ H). simpl.
  by rewrite be16_value by apply u8_range.
Qed.

Lemma be32_at (data : list byte) p b0 b1 b2 b3 l :
  bytes_at data p (b0 :: b1 :: b2 :: b3 :: l) ->
  be32 data p = Some (u8 b0 * 2 ^ 24 + u8 b1 * 2 ^ 16 + u8 b2 * 2 ^ 8 + u8 b3).
Proof.
  intros H. unfold be32.
  rewrite (bytes_at_byte _ _ _ _ H). apply bytes_at_tail in H.
  rewrite Nat.add_1_r, (bytes_at_byte _ _ _ _ H). apply bytes_at_tail in H.
  replace (p + 2)%nat with (S (S p)) by lia.
  rewrite (bytes_at_byte _ _ _ _ H). apply bytes_at_tail in H.
  replace (p + 3)%nat with (S (S (S p))) by lia.
  rewrite (bytes_at_byte _ _ _ _ H). simpl.
  by rewrite be32_value by apply u8_range.
Qed.

Lemma be64_at (data : list byte) p b0 b1 b2 b3 b4 b5 b6 b7 l :
  bytes_at data p (b0 :: b1 :: b2 :: b3 :: b4 :: b5 :: b6 :: b7 :: l) ->
  be64 data p =
  Some (u8 b0 * 2 ^ 56 + u8 b1 * 2 ^ 48 + u8 b2 * 2 ^ 40 + u8 b3 * 2 ^ 32
        + u8 b4 * 2 ^ 24 + u8 b5 * 2 ^ 16 + u8 b6 * 2 ^ 8 + u8 b7).
Proof.
  intros H. unfold be64.
  rewrite (bytes_at_byte _ _ _ _ H). apply bytes_at_tail in H.
  rewrite Nat.add_1_r, (bytes_at_byte _ _ _ _ H). apply bytes_at_tail in H.
  replace (p + 2)%nat with (S (S p)) by lia.
  rewrite (bytes_at_byte _ _ _ _ H). apply bytes_at_tail in H.
  replace (p + 3)%nat with (S (S (S p))) by lia.
  rewrite (bytes_at_byte _ _ _ _ H). apply bytes_at_tail in H.
  replace (p + 4)%nat with (S (S (S (S p)))) by lia.
  rewrite (bytes_at_byte _ _ _ _ H). apply bytes_at_tail in H.
  replace (p + 5)%nat with (S (S (S (S (S p))))) by lia.
  rewrite (bytes_at_byte _ _ _ _ H). apply bytes_at_tail in H.
  replace (p + 6)%nat with (S (S (S (S (S (S p)))))) by lia.
  rewrite (bytes_at_byte _ _ _ _ H). apply bytes_at_tail in H.
  replace (p + 7)%nat with (S (S (S (S (S (S (S p))))))) by lia.
  rewrite (bytes_at_byte _ _ _ _ H). simpl.
  by rewrite be64_value by apply u8_range.
Qed.

(** Replace the powers of two by their values. *)
Ltac pow2_eval :=
  repeat match goal with
  | |- context [2 ^ ?n] =>
    let v := eval vm_compute in (2 ^ n) in change (2 ^ n) with v
  | H : context [2 ^ ?n] |- _ =>
    let v := eval vm_compute in (2 ^ n) in change (2 ^ n) with v in H
  end.

(** The big-endian bytes of [z] combine to [z] modulo the width. *)
Lemma be_bytes2_value z :
  u8 (byte_of (z / 2 ^ 8)) * 2 ^ 8 + u8 (byte_of z) = z mod 2 ^ 16.
Proof. rewrite !u8_byte_of. pow2_eval. Z.div_mod_to_equations. lia. Qed.

Lemma be_bytes4_value z :
  u8 (byte_of (z / 2 ^ 24)) * 2 ^ 24 + u8 (byte_of (z / 2 ^ 16)) * 2 ^ 16
  + u8 (byte_of (z / 2 ^ 8)) * 2 ^ 8 + u8 (byte_of z) = z mod 2 ^ 32.
Proof. rewrite !u8_byte_of. pow2_eval. Z.div_mod_to_equations. lia. Qed.

Lemma be_bytes8_value z :
  u8 (byte_of (z / 2 ^ 56)) * 2 ^ 56 + u8 (byte_of (z / 2 ^ 48)) * 2 ^ 48
  + u8 (byte_of (z / 2 ^ 40)) * 2 ^ 40 + u8 (byte_of (z / 2 ^ 32)) * 2 ^ 32
  + u8 (byte_of (z / 2 ^ 24)) * 2 ^ 24 + u8 (byte_of (z / 2 ^ 16)) * 2 ^ 16
  + u8 (byte_of (z / 2 ^ 8)) * 2 ^ 8 + u8 (byte_of z) = z mod 2 ^ 64.
Proof. rewrite !u8_byte_of. pow2_eval. Z.div_mod_to_equations. lia. Qed.

Lemma leb_false_of_lt (a b : nat) : (b < a)%nat -> (a <=? b)%nat = false.
Proof. intros. by apply Nat.leb_gt. Qed.

Lemma leb_true_of_le (a b : nat) : (a <= b)%nat -> (a <=? b)%nat = true.
Proof. intros. by apply Nat.leb_le. Qed.

(** Enter a primitive whose tag byte and operands are known to be in
    [data]: settle the first bounds check and read the tag. *)
Ltac enter_at H :=
  let Hs := fresh "Hs" in
  pose proof (bytes_at_size _ _ _ H ltac:(done)) as Hs; simpl length in Hs;
  match type of H with
  | bytes_at ?data ?p _ =>
    rewrite (leb_false_of_lt (size data) p) by lia;
    rewrite (bytes_at_byte _ _ _ _ H)
  end.

(** The bounds check that follows a known tag. *)
Ltac room :=
  match goal with
  | |- context [(?a <=? size ?data)%nat] =>
    rewrite (leb_true_of_le a (size data)) by lia
  end.

(** Decide the tests on a tag byte whose value is known. *)
Ltac known_tag :=
  cbn [Z.leb Z.compare Pos.compare Pos.compare_cont Z.eqb Pos.eqb Z.land
       Pos.land Z.of_N Pos.Nsucc_double Pos.Ndouble andb].

(** *** What [read_uint] makes of each unsigned form *)

Lemma read_uint_fixint data p b l :
  bytes_at data p (b :: l) -> u8 b <= 0x7f ->
  read_uint data p = (Ok (u8 b), S p).
Proof.
  intros H Hb. unfold read_uint. enter_at H.
  by rewrite (proj2 (Z.leb_le _ _) Hb).
Qed.

Lemma read_uint_uint8 data p b l :
  bytes_at data p (xcc :: b :: l) ->
  read_uint data p = (Ok (u8 b), (p + 2)%nat).
Proof.
  intros H. unfold read_uint. enter_at H. apply bytes_at_tail in H.
  change (u8 xcc) with 204.
  known_tag.
  room. rewrite (bytes_at_byte _ _ _ _ H).
  simpl. f_equal. lia.
Qed.

Lemma read_uint_uint16 data p b0 b1 l :
  bytes_at data p (xcd :: b0 :: b1 :: l) ->
  read_uint data p = (Ok (u8 b0 * 2 ^ 8 + u8 b1), (p + 3)%nat).
Proof.
  intros H. unfold read_uint. enter_at H. apply bytes_at_tail in H.
  change (u8 xcd) with 205.
  known_tag.
  room. rewrite (be16_at _ _ _ _ _ H).
  simpl. f_equal. lia.
Qed.

Lemma read_uint_uint32 data p b0 b1 b2 b3 l :
  bytes_at data p (xce :: b0 :: b1 :: b2 :: b3 :: l) ->
  read_uint data p =
  (Ok (u8 b0 * 2 ^ 24 + u8 b1 * 2 ^ 16 + u8 b2 * 2 ^ 8 + u8 b3), (p + 5)%nat).
Proof.
  intros H. unfold read_uint. enter_at H. apply bytes_at_tail in H.
  change (u8 xce) with 206.
  known_tag.
  room. rewrite (be32_at _ _ _ _ _ _ _ H).
  simpl. f_equal. lia.
Qed.

Lemma read_uint_uint64 data p b0 b1 b2 b3 b4 b5 b6 b7 l :
  bytes_at data p (xcf :: b0 :: b1 :: b2 :: b3 :: b4 :: b5 :: b6 :: b7 :: l) ->
  read_uint data p =
  (Ok (u8 b0 * 2 ^ 56 + u8 b1 * 2 ^ 48 + u8 b2 * 2 ^ 40 + u8 b3 * 2 ^ 32
       + u8 b4 * 2 ^ 24 + u8 b5 * 2 ^ 16 + u8 b6 * 2 ^ 8 + u8 b7),
   (p + 9)%nat).
Proof.
  intros H. unfold read_uint. enter_at H. apply bytes_at_tail in H.
  change (u8 xcf) with 207.
  known_tag.
  room. rewrite (be64_at _ _ _ _ _ _ _ _ _ _ _ H).
  simpl. f_equal. lia.
Qed.

(** *** What [read_int] makes of each form *)

Lemma read_int_fixint data p b l :
  bytes_at data p (b :: l) -> u8 b <= 0x7f ->
  ConvertToTree.read_int data p = (Ok (u8 b), S p).
Proof.
  intros H Hb. unfold ConvertToTree.read_int. enter_at H.
  by rewrite (proj2 (Z.leb_le _ _) Hb).
Qed.

Lemma read_int_negative_fixint data p b l :
  bytes_at data p (b :: l) -> 0xe0 <= u8 b ->
  ConvertToTree.read_int data p = (Ok (cast_i8 (u8 b)), S p).
Proof.
  intros H Hb. unfold ConvertToTree.read_int. enter_at H.
  rewrite (proj2 (Z.leb_gt _ _)) by lia.
  by rewrite (proj2 (Z.leb_le _ _) Hb).
Qed.

Lemma read_int_int8 data p b l :
  bytes_at data p (xd0 :: b :: l) ->
  ConvertToTree.read_int data p = (Ok (cast_i8 (u8 b)), (p + 2)%nat).
Proof.
  intros H. unfold ConvertToTree.read_int. enter_at H. apply bytes_at_tail in H.
  change (u8 xd0) with 208.
  known_tag.
  room. rewrite (bytes_at_byte _ _ _ _ H).
  simpl. f_equal. lia.
Qed.

Lemma read_int_int16 data p b0 b1 l :
  bytes_at data p (xd1 :: b0 :: b1 :: l) ->
  ConvertToTree.read_int data p
  = (Ok (cast_i16 (u8 b0 * 2 ^ 8 + u8 b1)), (p + 3)%nat).
Proof.
  intros H. unfold ConvertToTree.read_int. enter_at H. apply bytes_at_tail in H.
  change (u8 xd1) with 209.
  known_tag.
  room. rewrite (be16_at _ _ _ _ _ H).
  simpl. f_equal. lia.
Qed.

Lemma read_int_int32 data p b0 b1 b2 b3 l :
  bytes_at data p (xd2 :: b0 :: b1 :: b2 :: b3 :: l) ->
  ConvertToTree.read_int data p
  = (Ok (cast_i32 (u8 b0 * 2 ^ 24 + u8 b1 * 2 ^ 16 + u8 b2 * 2 ^ 8 + u8 b3)),
     (p + 5)%nat).
Proof.
  intros H. unfold ConvertToTree.read_int. enter_at H. apply bytes_at_tail in H.
  change (u8 xd2) with 210.
  known_tag.
  room. rewrite (be32_at _ _ _ _ _ _ _ H).
  simpl. f_equal. lia.
Qed.

(** On the tags [0xcc] to [0xcf], [read_int] is [read_uint] followed by the
    conversion to [int64_t]. *)
Lemma read_int_unsigned_tag data p t l :
  bytes_at data p (t :: l) -> 0xcc <= u8 t <= 0xcf ->
  ConvertToTree.read_int data p =
  match read_uint data p with
  | (Ok uval, p') => (Ok (cast_i64 uval), p')
  | (Fail, p') => (Fail, p')
  | (Fault, p') => (Fault, p')
  end.
Proof.
  intros H Ht. unfold ConvertToTree.read_int. enter_at H.
  rewrite (proj2 (Z.leb_gt (u8 t) 0x7f)) by lia.
  rewrite (proj2 (Z.leb_gt 0xe0 (u8 t))) by lia.
  rewrite (proj2 (Z.eqb_neq (u8 t) 0xd0)) by lia.
  rewrite (proj2 (Z.eqb_neq (u8 t) 0xd1)) by lia.
  rewrite (proj2 (Z.eqb_neq (u8 t) 0xd2)) by lia.
  reflexivity.
Qed.

(** The casts give back what fits. *)
Lemma cast_signed_fits (w v : Z) :
  0 < w -> - 2 ^ (w - 1) <= v < 2 ^ (w - 1) -> cast_signed w (v mod 2 ^ w) = v.
Proof.
  intros Hw Hv. unfold cast_signed.
  assert (Hp : 2 ^ w = 2 * 2 ^ (w - 1)).
  { rewrite <- Z.pow_succ_r by lia. f_equal. lia. }
  assert (0 < 2 ^ (w - 1)) by (apply Z.pow_pos_nonneg; lia).
  rewrite Zplus_mod_idemp_l.
  rewrite Z.mod_small by lia. lia.
Qed.

Lemma cast_i64_small (v : Z) : 0 <= v < 2 ^ 63 -> cast_i64 v = v.
Proof.
  intros Hv. unfold cast_i64, cast_signed.
  change (64 - 1) with 63. change (2 ^ 64) with (2 * 2 ^ 63).
  assert (0 < 2 ^ 63) by done. rewrite Z.mod_small by lia. lia.
Qed.

Lemma length_encode_int f v :
  length (encode_int f v) =
  match f with
  | PosFixint | NegFixint => 1
  | UInt8 | Int8 => 2
  | UInt16 | Int16 => 3
  | UInt32 | Int32 => 5
  | UInt64 => 9
  end%nat.
Proof. by destruct f. Qed.

(** Each form through the reader it is meant for. *)
Lemma reader_for_encoded (f : int_form) (v : Z) (data : list byte) (p : nat)
    (l : list byte) :
  form_range f v -> bytes_at data p (encode_int f v ++ l) ->
  reader_for f data p = (Ok v, (p + length (encode_int f v))%nat).
Proof.
  intros Hr H. rewrite length_encode_int.
  destruct f; simpl in Hr, H; unfold reader_for, is_signed_form;
    cbv beta iota.
  - rewrite (read_uint_fixint _ _ _ _ H)
      by (rewrite u8_byte_of; pow2_eval; Z.div_mod_to_equations; lia).
    rewrite u8_byte_of, Z.mod_small by lia. f_equal. lia.
  - rewrite (read_int_negative_fixint _ _ _ _ H)
      by (rewrite u8_byte_of; Z.div_mod_to_equations; lia).
    rewrite u8_byte_of. change 256 with (2 ^ 8).
    unfold cast_i8. rewrite cast_signed_fits by (pow2_eval; lia).
    f_equal. lia.
  - rewrite (read_uint_uint8 _ _ _ _ H), u8_byte_of.
    rewrite Z.mod_small by (pow2_eval; lia). done.
  - rewrite (read_uint_uint16 _ _ _ _ _ H), be_bytes2_value.
    rewrite Z.mod_small by done. done.
  - rewrite (read_uint_uint32 _ _ _ _ _ _ _ H), be_bytes4_value.
    rewrite Z.mod_small by done. done.
  - rewrite (read_uint_uint64 _ _ _ _ _ _ _ _ _ _ _ H), be_bytes8_value.
    rewrite Z.mod_small by done. done.
  - rewrite (read_int_int8 _ _ _ _ H), u8_byte_of. change 256 with (2 ^ 8).
    unfold cast_i8. by rewrite cast_signed_fits by (pow2_eval; lia).
  - rewrite (read_int_int16 _ _ _ _ _ H), be_bytes2_value.
    unfold cast_i16. by rewrite cast_signed_fits by (pow2_eval; lia).
  - rewrite (read_int_int32 _ _ _ _ _ _ _ H), be_bytes4_value.
    unfold cast_i32. by rewrite cast_signed_fits by (pow2_eval; lia).
Qed.

(** Each form through [read_int], the unsigned ones by way of the fallback. *)
Lemma read_int_encoded (f : int_form) (v : Z) (data : list byte) (p : nat)
    (l : list byte) :
  form_range f v -> v < 2 ^ 63 -> bytes_at data p (encode_int f v ++ l) ->
  ConvertToTree.read_int data p = (Ok v, (p + length (encode_int f v))%nat).
Proof.
  intros Hr Hv H.
  destruct (is_signed_form f) eqn:Hs.
  { pose proof (reader_for_encoded f v data p l Hr H) as Hd.
    unfold reader_for in Hd. by rewrite Hs in Hd. }
  pose proof (reader_for_encoded f v data p l Hr H) as Hd.
  unfold reader_for in Hd. rewrite Hs in Hd.
  destruct f; try discriminate; simpl in Hr;
    cbn [encode_int be_bytes2 be_bytes4 be_bytes8 app] in H.
  - rewrite (read_int_fixint _ _ _ _ H)
      by (rewrite u8_byte_of; pow2_eval; Z.div_mod_to_equations; lia).
    rewrite u8_byte_of, Z.mod_small by lia. f_equal. simpl. lia.
  - rewrite (read_int_unsigned_tag _ _ _ _ H) by done.
    rewrite Hd, cast_i64_small by (pow2_eval; lia). done.
  - rewrite (read_int_unsigned_tag _ _ _ _ H) by done.
    rewrite Hd, cast_i64_small by (pow2_eval; lia). done.
  - rewrite (read_int_unsigned_tag _ _ _ _ H) by done.
    rewrite Hd, cast_i64_small by (pow2_eval; lia). done.
  - rewrite (read_int_unsigned_tag _ _ _ _ H) by done.
    rewrite Hd, cast_i64_small by (pow2_eval; lia). done.
Qed.

(** C4.  Written in any of the integer forms and read back with the reader
    the form is meant for ([read_uint] for positive fixint and the tags
    0xcc to 0xcf, [read_int] for negative fixint and the tags 0xd0 to
    0xd2), a value in the range of the form comes back unchanged, and the
    position ends right behind the form; [read_int] does the same for the
    unsigned forms as long as the value is below 2^63. *)
Theorem integer_forms_round_trip (f : int_form) (v : Z)
    (pre suf : list byte) :
  form_range f v ->
  reader_for f (pre ++ encode_int f v ++ suf) (length pre)
  = (Ok v, (length pre + length (encode_int f v))%nat) /\
  (v < 2 ^ 63 ->
   ConvertToTree.read_int (pre ++ encode_int f v ++ suf) (length pre)
   = (Ok v, (length pre + length (encode_int f v))%nat)).
Proof.
  intros Hr.
  pose proof (bytes_at_middle pre (encode_int f v ++ suf) []) as H.
  rewrite app_nil_r in H. split.
  - by apply (reader_for_encoded f v _ _ suf).
  - intros Hv. by apply (read_int_encoded f v _ _ suf).
Qed.

(** The boundary 0x80, the smallest value that needs the tag 0xcc. *)
Lemma integer_forms_round_trip_witness :
  form_range UInt8 0x80 /\
  (reader_for UInt8 ([] ++ encode_int UInt8 0x80 ++ []) (length (@nil byte))
   = (Ok 0x80, (length (@nil byte) + length (encode_int UInt8 0x80))%nat) /\
   (0x80 < 2 ^ 63 ->
    ConvertToTree.read_int ([] ++ encode_int UInt8 0x80 ++ [])
      (length (@nil byte))
    = (Ok 0x80, (length (@nil byte) + length (encode_int UInt8 0x80))%nat))).
Proof.
  assert (Hr : form_range UInt8 0x80) by (simpl; lia).
  split; [exact Hr|].
  exact (integer_forms_round_trip UInt8 0x80 [] [] Hr).
Defined.

(** The other boundaries the specification names, on the bytes
    themselves. *)
Example max_positive_fixint :
  encode_int PosFixint 0x7f = [x7f] /\
  read_uint [x7f] 0%nat = (Ok 0x7f, 1%nat) /\
  ConvertToTree.read_int [x7f] 0%nat = (Ok 0x7f, 1%nat).
Proof. by vm_compute. Qed.

Example min_uint8_form :
  encode_int UInt8 0x80 = [xcc; x80] /\
  read_uint [xcc; x80] 0%nat = (Ok 0x80, 2%nat).
Proof. by vm_compute. Qed.

Example negative_fixint_ff :
  encode_int NegFixint (-1) = [xff] /\
  ConvertToTree.read_int [xff] 0%nat = (Ok (-1), 1%nat).
Proof. by vm_compute. Qed.

(** ** C5: a byte string and an array of integers decode alike *)

Lemma length_encode_array_header n :
  length (encode_array_header n) =
  if (n <=? 15)%nat then 1%nat
  else if Z.of_nat n <? 2 ^ 16 then 3%nat else 5%nat.
Proof. unfold encode_array_header. by repeat case_match. Qed.

Lemma fixarray_tag (k : nat) :
  (k <= 15)%nat ->
  Z.land (0x90 + Z.of_nat k) 0xf0 = 0x90 /\
  Z.land (0x90 + Z.of_nat k) 0x0f = Z.of_nat k.
Proof.
  intros Hk. do 16 (destruct k as [|k]; [by vm_compute|]). lia.
Qed.

(** An array header as the writer puts it is read back with its count. *)
Lemma read_array_header_encoded (n : nat) (data : list byte) (p : nat)
    (l : list byte) :
  Z.of_nat n < 2 ^ 32 ->
  bytes_at data p (encode_array_header n ++ l) ->
  read_array_header data p
  = (Ok n, (p + length (encode_array_header n))%nat).
Proof.
  intros Hn H. rewrite length_encode_array_header.
  unfold encode_array_header in H. unfold read_array_header.
  destruct (n <=? 15)%nat eqn:H15; bool_hyps.
  - cbn [app] in H. enter_at H. rewrite u8_byte_of.
    rewrite Z.mod_small by lia.
    destruct (fixarray_tag n H15) as [-> ->].
    rewrite Z.eqb_refl, Nat2Z.id. f_equal. lia.
  - destruct (Z.of_nat n <? 2 ^ 16) eqn:H16; bool_hyps.
    + cbn [app be_bytes2] in H. enter_at H. apply bytes_at_tail in H.
      change (u8 xdc) with 220.
      known_tag.
      room. rewrite (be16_at _ _ _ _ _ H), be_bytes2_value.
      rewrite Z.mod_small by lia. simpl. rewrite Nat2Z.id. f_equal. lia.
    + cbn [app be_bytes4] in H. enter_at H. apply bytes_at_tail in H.
      change (u8 xdd) with 221.
      known_tag.
      room. rewrite (be32_at _ _ _ _ _ _ _ H), be_bytes4_value.
      rewrite Z.mod_small by lia. simpl. rewrite Nat2Z.id. f_equal. lia.
Qed.

Lemma smallest_unsigned_form_range (v : Z) :
  0 <= v < 2 ^ 64 -> form_range (smallest_unsigned_form v) v.
Proof.
  intros Hv. unfold smallest_unsigned_form.
  repeat case_match; bool_hyps; simpl; lia.
Qed.

Lemma smallest_unsigned_form_unsigned (v : Z) :
  is_signed_form (smallest_unsigned_form v) = false.
Proof. unfold smallest_unsigned_form. by repeat case_match. Qed.

Lemma read_uint_encoded (v : Z) (data : list byte) (p : nat) (l : list byte) :
  0 <= v < 2 ^ 64 -> bytes_at data p (encode_uint v ++ l) ->
  read_uint data p = (Ok v, (p + length (encode_uint v))%nat).
Proof.
  intros Hv H.
  pose proof (reader_for_encoded (smallest_unsigned_form v) v data p l
                (smallest_unsigned_form_range v Hv) H) as Hd.
  unfold reader_for in Hd. by rewrite smallest_unsigned_form_unsigned in Hd.
Qed.

Lemma cast_u8_small (v : Z) : 0 <= v < 256 -> cast_u8 v = v.
Proof. intros. unfold cast_u8, cast_unsigned. by rewrite Z.mod_small. Qed.

(** The element loop over samples written one after the other: every
    element is read, and those below the cap are stored in order. *)
Lemma read_elems_encoded (data : list byte) (max_size : Z) :
  forall (xs : list Z) (i p : nat) (l : list byte),
    Forall (fun x => 0 <= x < 256) xs ->
    Z.of_nat (i + length xs) <= max_size ->
    Z.of_nat (i + length xs) < 2147483648 ->
    bytes_at data p (concat (map encode_uint xs) ++ l) ->
    ConvertToTree.read_elems (read_uint data) cast_u8 max_size (length xs) i p
    = (Ok tt, imap (fun k x => ((i + k)%nat, x)) xs,
       (p + length (concat (map encode_uint xs)))%nat).
Proof.
  induction xs as [|x xs IH]; intros i p l Hxs Hmax Hint H.
  - simpl. by rewrite Nat.add_0_r.
  - inversion Hxs as [|x' xs' Hx Hxs']; subst x' xs'. clear Hxs.
    rename Hxs' into Hxs.
    cbn [map concat] in H. rewrite <- app_assoc in H.
    cbn [length ConvertToTree.read_elems].
    rewrite (read_uint_encoded x data p _ ltac:(pow2_eval; lia) H).
    apply bytes_at_app_r in H as [_ H].
    simpl length in Hmax, Hint.
    rewrite (IH (S i) _ l Hxs ltac:(lia) ltac:(lia) H).
    rewrite cast_int_small by lia.
    rewrite (proj2 (Z.ltb_lt _ _)) by lia.
    rewrite cast_u8_small by done.
    cbn [map concat imap app]. rewrite length_app, Nat.add_0_r.
    f_equal; [|lia]. f_equal. f_equal.
    apply imap_ext. intros k y _. simpl. f_equal. lia.
Qed.

Lemma imap_byte_of_gen (g : nat -> nat) (xs : list Z) :
  Forall (fun x => 0 <= x < 256) xs ->
  imap (fun k b => (g k, u8 b)) (map byte_of xs)
  = imap (fun k x => (g k, x)) xs.
Proof.
  intros Hxs. revert g.
  induction Hxs as [|x xs Hx Hxs IH]; intros g; simpl; [done|].
  rewrite u8_byte_of, Z.mod_small by done. f_equal. apply (IH (g ∘ S)).
Qed.

Lemma imap_byte_of (xs : list Z) :
  Forall (fun x => 0 <= x < 256) xs ->
  imap (fun k b => (k, u8 b)) (map byte_of xs) = stores_of xs.
Proof. intros Hxs. apply (imap_byte_of_gen (fun k => k) xs Hxs). Qed.

Lemma length_encode_bin xs :
  length (encode_bin xs) = (bin_prefix_length xs + length xs)%nat.
Proof.
  unfold encode_bin, bin_prefix_length, encode_bin8.
  repeat case_match; simpl; rewrite ?length_map; lia.
Qed.

Lemma bin_header_encoded (xs : list Z) (data : list byte) (p : nat)
    (l : list byte) :
  Z.of_nat (length xs) < 2 ^ 32 ->
  bytes_at data p (encode_bin xs ++ l) ->
  ConvertToTree.bin_header data p
  = (Ok (length xs), (p + bin_prefix_length xs)%nat) /\
  bytes_at data (p + bin_prefix_length xs) (map byte_of xs ++ l) /\
  exists t, byte_at data p = Some t /\ 0xc4 <= t <= 0xc6.
Proof.
  intros Hn H. unfold encode_bin, encode_bin8, bin_prefix_length in *.
  unfold ConvertToTree.bin_header.
  destruct (Z.of_nat (length xs) <? 2 ^ 8) eqn:H8; bool_hyps;
    [|destruct (Z.of_nat (length xs) <? 2 ^ 16) eqn:H16; bool_hyps].
  - cbn [app] in H. enter_at H.
    split; [|split; [|by exists (u8 xc4)]].
    + apply bytes_at_tail in H. change (u8 xc4) with 196.
      known_tag. room.
      rewrite (bytes_at_byte _ _ _ _ H), u8_byte_of.
      rewrite Z.mod_small by (pow2_eval; lia). simpl.
      rewrite Nat2Z.id. f_equal. lia.
    + do 2 apply bytes_at_tail in H.
      by replace (p + 2)%nat with (S (S p)) by lia.
  - cbn [app be_bytes2] in H. enter_at H.
    split; [|split; [|by exists (u8 xc5)]].
    + apply bytes_at_tail in H. change (u8 xc5) with 197.
      known_tag. room.
      rewrite (be16_at _ _ _ _ _ H), be_bytes2_value.
      rewrite Z.mod_small by lia. simpl. rewrite Nat2Z.id. f_equal. lia.
    + do 3 apply bytes_at_tail in H.
      by replace (p + 3)%nat with (S (S (S p))) by lia.
  - cbn [app be_bytes4] in H. enter_at H.
    split; [|split; [|by exists (u8 xc6)]].
    + apply bytes_at_tail in H. change (u8 xc6) with 198.
      known_tag. room.
      rewrite (be32_at _ _ _ _ _ _ _ H), be_bytes4_value.
      rewrite Z.mod_small by lia. simpl. rewrite Nat2Z.id. f_equal. lia.
    + do 5 apply bytes_at_tail in H.
      by replace (p + 5)%nat with (S (S (S (S (S p))))) by lia.
Qed.

Lemma bytes_at_inside (data : list byte) (p : nat) (l : list byte) :
  bytes_at data p l -> (p <= size data)%nat -> (p + length l <= size data)%nat.
Proof.
  intros H Hp. destruct l as [|b l]; [simpl; lia|].
  by apply bytes_at_size.
Qed.

(** [read_bin] on a byte string as the writer puts it, when a byte
    follows the header: a payload byte, or whatever comes next. *)
Lemma read_bin_encoded (xs : list Z) (data : list byte) (max_size n : Z)
    (p : nat) (l : list byte) :
  Forall (fun x => 0 <= x < 256) xs ->
  Z.of_nat (length xs) <= max_size ->
  Z.of_nat (length xs) < 2147483648 ->
  xs <> [] \/ l <> [] ->
  bytes_at data p (encode_bin xs ++ l) ->
  ConvertToTree.read_bin data max_size n p
  = ConvertToTree.mk_array_read (Ok tt) (Z.of_nat (length xs)) (stores_of xs)
      (p + length (encode_bin xs)).
Proof.
  intros Hxs Hmax Hint Hmore H.
  pose proof (bytes_at_size _ _ _ H) as Hsz.
  destruct (bin_header_encoded xs data p l ltac:(pow2_eval; lia) H)
    as (Hh & Hpay & _).
  assert (Hnext : is_Some (byte_at data (p + bin_prefix_length xs))).
  { destruct (map byte_of xs ++ l) as [|b rest] eqn:Hrest.
    - apply app_eq_nil in Hrest as [Hm ->]. apply map_eq_nil in Hm.
      by destruct Hmore.
    - rewrite (bytes_at_byte _ _ _ _ Hpay). by eexists. }
  apply bytes_at_app_r in Hpay as [Hpay _].
  assert (Hin : (p + bin_prefix_length xs + length xs <= size data)%nat).
  { rewrite <- (length_map byte_of xs). apply bytes_at_inside; [done|].
    specialize
      (Hsz ltac:(unfold encode_bin, encode_bin8; by repeat case_match)).
    rewrite length_app, length_encode_bin in Hsz. lia. }
  unfold ConvertToTree.read_bin. rewrite Hh.
  rewrite cast_int_small by lia. rewrite Z.min_l by lia.
  rewrite (proj2 (Nat.ltb_ge _ _)) by lia.
  destruct Hnext as [b ->].
  unfold ConvertToTree.memcpy_faults, ConvertToTree.memcpy_stores,
    ConvertToTree.memcpy_source.
  rewrite cast_u64_small by (pow2_eval; lia). rewrite Nat2Z.id.
  rewrite length_drop.
  rewrite (proj2 (Nat.ltb_ge _ _)) by (unfold size in *; lia).
  rewrite <- (length_map byte_of xs) at 2.
  rewrite (bytes_at_take_drop _ _ _ Hpay), imap_byte_of by done.
  rewrite length_encode_bin. f_equal. lia.
Qed.

(** [read_u8_array] takes the byte string by its tag ... *)
Lemma read_u8_array_bin (xs : list Z) (data : list byte) (max_size n : Z)
    (p : nat) (l : list byte) :
  Forall (fun x => 0 <= x < 256) xs ->
  Z.of_nat (length xs) <= max_size ->
  Z.of_nat (length xs) < 2147483648 ->
  xs <> [] \/ l <> [] ->
  bytes_at data p (encode_bin xs ++ l) ->
  ConvertToTree.read_u8_array data max_size n p
  = ConvertToTree.mk_array_read (Ok tt) (Z.of_nat (length xs)) (stores_of xs)
      (p + length (encode_bin xs)).
Proof.
  intros Hxs Hmax Hint Hmore H.
  destruct (bin_header_encoded xs data p l ltac:(pow2_eval; lia) H)
    as (_ & _ & t & Ht & Hr).
  pose proof (bytes_at_size _ _ _ H
    ltac:(unfold encode_bin, encode_bin8; by repeat case_match)) as Hsz.
  rewrite length_app, length_encode_bin in Hsz.
  unfold ConvertToTree.read_u8_array.
  rewrite (leb_false_of_lt (size data) p)
    by (unfold bin_prefix_length in Hsz; repeat case_match; lia).
  rewrite Ht.
  assert (Htag : (t =? 0xc4) || (t =? 0xc5) || (t =? 0xc6) = true).
  { assert (Hc : t = 0xc4 \/ t = 0xc5 \/ t = 0xc6) by lia.
    destruct Hc as [-> | [-> | ->]]; reflexivity. }
  rewrite Htag. by apply read_bin_encoded with (l := l).
Qed.

(** An empty byte string with nothing behind it: the subscript of
    [&data_[pos_]] is [data_.size()]. *)
Lemma read_u8_array_bin_at_end (pre : list byte) (max_size n : Z) :
  ConvertToTree.read_u8_array (pre ++ encode_bin []) max_size n (length pre)
  = ConvertToTree.mk_array_read Fault (Z.min 0 max_size) []
      (size (pre ++ encode_bin [])).
Proof.
  pose proof (bytes_at_middle pre (encode_bin []) []) as H.
  destruct (bin_header_encoded [] _ (length pre) [] ltac:(done) H)
    as (Hh & _ & t & Ht & Hr).
  rewrite app_nil_r in *.
  assert (Hs : size (pre ++ encode_bin []) = (length pre + 2)%nat)
    by (unfold size; rewrite length_app; reflexivity).
  unfold ConvertToTree.read_u8_array.
  rewrite (leb_false_of_lt (size (pre ++ encode_bin [])) (length pre))
    by lia.
  rewrite Ht.
  assert (Htag : (t =? 0xc4) || (t =? 0xc5) || (t =? 0xc6) = true).
  { assert (Hc : t = 0xc4 \/ t = 0xc5 \/ t = 0xc6) by lia.
    destruct Hc as [-> | [-> | ->]]; reflexivity. }
  rewrite Htag. apply read_bin_at_end. rewrite Hh, Hs. reflexivity.
Qed.

(** ... and the array of integers by its header. *)
Lemma read_u8_array_array (xs : list Z) (data : list byte) (max_size n : Z)
    (p : nat) (l : list byte) :
  Forall (fun x => 0 <= x < 256) xs ->
  Z.of_nat (length xs) <= max_size ->
  Z.of_nat (length xs) < 2147483648 ->
  bytes_at data p (encode_u8_array xs ++ l) ->
  ConvertToTree.read_u8_array data max_size n p
  = ConvertToTree.mk_array_read (Ok tt) (Z.of_nat (length xs)) (stores_of xs)
      (p + length (encode_u8_array xs)).
Proof.
  intros Hxs Hmax Hint H. unfold encode_u8_array in *.
  rewrite <- app_assoc in H.
  pose proof (read_array_header_encoded (length xs) data p _
                ltac:(pow2_eval; lia) H) as Hh.
  assert (Htag : exists t, byte_at data p = Some t /\
                   (t =? 0xc4) || (t =? 0xc5) || (t =? 0xc6) = false).
  { unfold encode_array_header in H.
    destruct (length xs <=? 15)%nat eqn:H15; bool_hyps;
      [|destruct (Z.of_nat (length xs) <? 2 ^ 16)].
    - cbn [app] in H. rewrite (bytes_at_byte _ _ _ _ H). eexists.
      split; [done|].
      rewrite u8_byte_of, Z.mod_small by lia.
      rewrite !(proj2 (Z.eqb_neq _ _)) by lia. done.
    - cbn [app] in H. rewrite (bytes_at_byte _ _ _ _ H). by eexists.
    - cbn [app] in H. rewrite (bytes_at_byte _ _ _ _ H). by eexists. }
  destruct Htag as (t & Ht & Htag).
  pose proof (bytes_at_size _ _ _ H
    ltac:(unfold encode_array_header; by repeat case_match)) as Hsz.
  rewrite length_app, length_encode_array_header in Hsz.
  unfold ConvertToTree.read_u8_array.
  rewrite (leb_false_of_lt (size data) p) by (repeat case_match; lia).
  rewrite Ht, Htag, Hh.
  apply bytes_at_app_r in H as [_ H].
  rewrite (read_elems_encoded data max_size xs 0 _ l Hxs)
    by (simpl; done || lia).
  rewrite cast_int_small by lia. rewrite Z.min_l by lia.
  rewrite length_app. unfold stores_of. f_equal. lia.
Qed.

(** Running the stores of [xs] from cell [i] on overwrites exactly the
    cells [i .. i + length xs). *)
Lemma run_stores_from (xs : list Z) :
  forall (i : nat) (arr : list Z),
    (i + length xs <= length arr)%nat ->
    ConvertToTree.run_stores (imap (fun k x => ((i + k)%nat, x)) xs) arr
    = take i arr ++ xs ++ drop (i + length xs) arr.
Proof.
  unfold ConvertToTree.run_stores.
  induction xs as [|x xs IH]; intros i arr Hlen; simpl.
  - by rewrite Nat.add_0_r, take_drop.
  - simpl in Hlen. rewrite Nat.add_0_r.
    rewrite (imap_ext _ (fun k y => ((S i + k)%nat, y)))
      by (intros k y _; simpl; f_equal; lia).
    rewrite IH by (rewrite length_insert; lia).
    rewrite drop_insert_lt by lia.
    rewrite (take_S_r _ _ x) by (apply list_lookup_insert_eq; lia).
    rewrite take_insert_ge by lia.
    rewrite <- app_assoc. simpl. repeat f_equal. lia.
Qed.

Lemma probe_cells_stores_of (xs arr : list Z) :
  (length xs <= length arr)%nat ->
  ConvertToTree.probe_cells arr
    (ConvertToTree.mk_probe (Z.of_nat (length xs)) (stores_of xs)) = xs.
Proof.
  intros Hlen. unfold ConvertToTree.probe_cells, stores_of. simpl.
  rewrite Nat2Z.id.
  change (imap (fun k x => (k, x)) xs)
    with (imap (fun k x => ((0 + k)%nat, x)) xs).
  rewrite (run_stores_from xs 0 arr) by (simpl; lia).
  simpl. by rewrite take_app_length.
Qed.

(** C5.  Up to [max_len] 8-bit samples written as an array of unsigned
    integers come out of [read_u8_array] as they went in: the count, one
    store per sample, the position right behind the sequence.  Written as
    a byte string (bin8 as long as 255 bytes suffice, bin16 beyond) they
    come out the same way, count, stores, cells and position, as long as
    one byte follows the header: a sample, or whatever comes behind the
    sequence.  The claim fails in what is left: for no sample at all at
    the very end of the buffer the array form ([0x90]) decodes to zero
    samples, and the byte-string form ([0xc4 0x00]) takes [read_bin] to
    [&data_[pos_]] with [pos_ = data_.size()]. *)
Theorem bin_and_array_decode_alike (xs : list Z)
    (pre suf pre' suf' : list byte) (n n' : Z) :
  Forall (fun x => 0 <= x < 256) xs ->
  Z.of_nat (length xs) <= ConvertToTree.MAX_WAVEFORM_SAMPLES ->
  let rb := ConvertToTree.read_u8_array (pre ++ encode_bin xs ++ suf)
              ConvertToTree.MAX_WAVEFORM_SAMPLES n (length pre) in
  let ra := ConvertToTree.read_u8_array (pre' ++ encode_u8_array xs ++ suf')
              ConvertToTree.MAX_WAVEFORM_SAMPLES n' (length pre') in
  (Z.of_nat (length xs) < 2 ^ 8 -> encode_bin xs = encode_bin8 xs) /\
  ConvertToTree.ar_res ra = Ok tt /\
  ConvertToTree.ar_n ra = Z.of_nat (length xs) /\
  ConvertToTree.ar_stores ra = stores_of xs /\
  ConvertToTree.ar_pos ra = (length pre' + length (encode_u8_array xs))%nat /\
  (forall arr, (length xs <= length arr)%nat ->
     ConvertToTree.probe_cells arr
       (ConvertToTree.mk_probe (ConvertToTree.ar_n ra)
          (ConvertToTree.ar_stores ra)) = xs) /\
  (xs <> [] \/ suf <> [] ->
   ConvertToTree.ar_res rb = Ok tt /\
   ConvertToTree.ar_n rb = ConvertToTree.ar_n ra /\
   ConvertToTree.ar_stores rb = ConvertToTree.ar_stores ra /\
   ConvertToTree.ar_pos rb = (length pre + length (encode_bin xs))%nat /\
   (forall arr, (length xs <= length arr)%nat ->
      ConvertToTree.probe_cells arr
        (ConvertToTree.mk_probe (ConvertToTree.ar_n rb)
           (ConvertToTree.ar_stores rb)) = xs)) /\
  (xs = [] -> suf = [] ->
   ConvertToTree.ar_res rb = Fault /\ ConvertToTree.ar_stores rb = [] /\
   ConvertToTree.ar_pos rb = size (pre ++ encode_bin xs ++ suf)).
Proof.
  intros Hxs Hmax rb ra.
  assert (Hint : Z.of_nat (length xs) < 2147483648)
    by (unfold ConvertToTree.MAX_WAVEFORM_SAMPLES in Hmax; lia).
  pose proof (bytes_at_middle pre (encode_bin xs ++ suf) []) as Hb.
  pose proof (bytes_at_middle pre' (encode_u8_array xs ++ suf') []) as Ha.
  rewrite app_nil_r in Hb, Ha.
  assert (Era : ra = ConvertToTree.mk_array_read (Ok tt)
                  (Z.of_nat (length xs)) (stores_of xs)
                  (length pre' + length (encode_u8_array xs)))
    by (by apply read_u8_array_array with (l := suf')).
  rewrite Era. simpl.
  split.
  { intros H8. unfold encode_bin. by rewrite (proj2 (Z.ltb_lt _ _) H8). }
  repeat (split; [reflexivity|]).
  split; [intros arr Hlen; by rewrite probe_cells_stores_of|].
  split.
  - intros Hmore.
    assert (Erb : rb = ConvertToTree.mk_array_read (Ok tt)
                    (Z.of_nat (length xs)) (stores_of xs)
                    (length pre + length (encode_bin xs)))
      by (by apply read_u8_array_bin with (l := suf)).
    rewrite Erb. simpl. repeat (split; [reflexivity|]).
    intros arr Hlen. by rewrite probe_cells_stores_of.
  - intros -> ->. subst rb. rewrite app_nil_r.
    by rewrite read_u8_array_bin_at_end.
Qed.

(** The corner: no sample, nothing behind the sequence. *)
Lemma bin_and_array_decode_alike_witness :
  Forall (fun x => 0 <= x < 256) (@nil Z) /\
  Z.of_nat (length (@nil Z)) <= ConvertToTree.MAX_WAVEFORM_SAMPLES /\
  encode_u8_array [] = [x90] /\ encode_bin [] = [xc4; x00] /\
  ConvertToTree.ar_res
    (ConvertToTree.read_u8_array ([] ++ encode_u8_array [] ++ [])
       ConvertToTree.MAX_WAVEFORM_SAMPLES 0 (length (@nil byte))) = Ok tt /\
  ConvertToTree.ar_res
    (ConvertToTree.read_u8_array ([] ++ encode_bin [] ++ [])
       ConvertToTree.MAX_WAVEFORM_SAMPLES 0 (length (@nil byte))) = Fault.
Proof.
  assert (H1 : Forall (fun x => 0 <= x < 256) (@nil Z)) by constructor.
  assert (H2 : Z.of_nat (length (@nil Z))
               <= ConvertToTree.MAX_WAVEFORM_SAMPLES)
    by (vm_compute; discriminate).
  split; [exact H1|]. split; [exact H2|].
  split; [reflexivity|]. split; [reflexivity|].
  pose proof (bin_and_array_decode_alike [] [] [] [] [] 0 0 H1 H2) as H.
  cbv zeta in H.
  split; [exact (proj1 (proj2 H))|].
  exact (proj1 (proj2 (proj2 (proj2 (proj2 (proj2 (proj2 (proj2 H))))))
                  eq_refl eq_refl)).
Defined.

Example bin8_and_array_of_three :
  encode_bin [1; 200; 0] = [xc4; x03; x01; xc8; x00] /\
  encode_u8_array [1; 200; 0] = [x93; x01; xcc; xc8; x00] /\
  ConvertToTree.read_u8_array [xc4; x03; x01; xc8; x00] 16384 0 0
  = ConvertToTree.mk_array_read (Ok tt) 3
      [(0%nat, 1); (1%nat, 200); (2%nat, 0)] 5 /\
  ConvertToTree.read_u8_array [x93; x01; xcc; xc8; x00] 16384 0 0
  = ConvertToTree.mk_array_read (Ok tt) 3
      [(0%nat, 1); (1%nat, 200); (2%nat, 0)] 5.
Proof. by vm_compute. Qed.

(** ** C6: a block length of 0 or above the ceiling ends the file *)

Section BadLength.
Context {Acc : Type}.
Variable block_count_of : Acc -> Z.
Variable process_block : list byte -> Acc -> body_result Acc.
Variable data_end : Z.

(** One turn of the loop that reads a refused length: the loop is left
    at once, with the stream as [read_u32_le] left it and the state as it
    was. *)
Lemma stream_blocks_bad_length (fuel : nat) (f f' : ifstream) (len : Z)
    (acc : Acc) (log : list diagnostic) :
  tellg f < data_end ->
  read_u32_le f = (len, f') ->
  len = 0 \/ 100000000 < len ->
  stream_blocks block_count_of process_block data_end (S fuel) f acc log
  = mk_loop_result BadBlockLength f' acc (log ++ [InvalidBlockLength len]).
Proof.
  intros Ht Hr Hlen. simpl.
  rewrite (proj2 (Z.ltb_lt _ _) Ht). simpl. rewrite Hr.
  replace ((len =? 0) || (100000000 <? len)) with true; [done|].
  symmetry. apply orb_true_iff.
  destruct Hlen as [-> | Hl]; [by left | right; by apply Z.ltb_lt].
Qed.

(** The loop cannot run out of fuel: a turn that goes on to the next has
    moved the stream by at least five bytes, inside the file. *)
Lemma stream_blocks_enough_fuel (fuel : nat) :
  forall (f : ifstream) (acc : Acc) (log : list diagnostic),
    (length (contents f) - gpos f < fuel)%nat ->
    lr_exit (stream_blocks block_count_of process_block data_end
               fuel f acc log) <> OutOfFuel.
Proof.
  induction fuel as [|fuel IH]; intros f acc log Hf; [lia|]. simpl.
  destruct (negb (tellg f <? data_end)); [done|].
  unfold read_u32_le.
  destruct (stream_read 4 f) as [buf f1] eqn:H4.
  set (len := cast_u32 _).
  destruct ((len =? 0) || (100000000 <? len)) eqn:Hlen; [done|].
  destruct (stream_read (Z.to_nat len) f1) as [block f2] eqn:Hb.
  destruct (negb (good f2)) eqn:Hg; [done|].
  destruct (process_block block acc) as [acc' l|acc' l|]; [|done..].
  apply IH.
  unfold good in Hg. apply negb_false_iff, negb_true_iff in Hg.
  unfold stream_read in H4, Hb.
  destruct (failbit f) eqn:Hf0.
  { injection H4 as <- <-. rewrite Hf0 in Hb. injection Hb as <- <-.
    congruence. }
  destruct (length (take 4 (drop (gpos f) (contents f))) <? 4)%nat eqn:H4';
    injection H4 as <- <-; simpl in Hb.
  { injection Hb as <- <-. simpl in Hg. congruence. }
  destruct (_ <? Z.to_nat len)%nat eqn:Hb'; injection Hb as <- <-;
    simpl in Hg; [congruence|].
  simpl. bool_hyps.
  rewrite length_take, length_drop in *. lia.
Qed.
End BadLength.

(** What the loop returns does not depend on the turns already taken. *)
Lemma stream_blocks_turns {Acc : Type} (block_count_of : Acc -> Z)
    (process_block : list byte -> Acc -> body_result Acc) (data_end : Z)
    (n fuel : nat) (f f' : ifstream) (acc acc' : Acc)
    (log log' : list diagnostic) :
  turns process_block data_end n (f, acc, log) (f', acc', log') ->
  stream_blocks block_count_of process_block data_end (n + fuel) f acc log
  = stream_blocks block_count_of process_block data_end fuel f' acc' log'.
Proof.
  intros Ht.
  remember (f, acc, log) as s eqn:Es. remember (f', acc', log') as s' eqn:Es'.
  revert f acc log Es Es'.
  induction Ht as [s | n s1 s2 s3 Hturn Hrest IH]; intros f acc log Es Es'.
  - subst s. by injection Es' as <- <- <-.
  - subst s1.
    inversion Hturn
      as [g g1 g2 a a' lg l len block Hc Hr Hn Hle Hb Hg Hp E1 E2].
    subst. cbn [Nat.add stream_blocks].
    rewrite (proj2 (Z.ltb_lt _ _) Hc). cbn [negb]. rewrite Hr.
    rewrite (proj2 (Z.eqb_neq _ _) Hn), (proj2 (Z.ltb_ge _ _) Hle). cbn [orb].
    rewrite Hb, Hg. cbn [negb]. rewrite Hp. by apply IH.
Qed.

(** C6.  In both programs: after any number of turns of the loop, when the
    loop reads a block length that is 0 or above 100,000,000 it is left at
    once, and what it returns is the result of the whole loop.  The
    stream stays where the four length bytes left it (no payload byte is
    read), the events and counters are those of the turns before, the one
    addition is the warning, and no further block is looked at. *)
Theorem invalid_block_length_stops_the_file (max_events data_end : Z)
    (n fuel : nat) (f0 f f' : ifstream) (len : Z) :
  tellg f < data_end ->
  read_u32_le f = (len, f') ->
  len = 0 \/ 100000000 < len ->
  (forall st0 log0 st log,
     turns (ReadDelila.process_block max_events) data_end n
       (f0, st0, log0) (f, st, log) ->
     stream_blocks ReadDelila.block_count
       (ReadDelila.process_block max_events) data_end (n + S fuel)
       f0 st0 log0
     = mk_loop_result BadBlockLength f' st (log ++ [InvalidBlockLength len])) /\
  (forall st0 log0 st log,
     turns (ConvertToTree.process_block max_events) data_end n
       (f0, st0, log0) (f, st, log) ->
     stream_blocks ConvertToTree.block_count
       (ConvertToTree.process_block max_events) data_end (n + S fuel)
       f0 st0 log0
     = mk_loop_result BadBlockLength f' st (log ++ [InvalidBlockLength len])) /\
  contents f' = contents f /\ (gpos f' <= gpos f + 4)%nat.
Proof.
  intros Ht Hr Hlen. split; [|split].
  - intros st0 log0 st log Hturns.
    rewrite (stream_blocks_turns _ _ _ _ _ _ _ _ _ _ _ Hturns).
    by apply stream_blocks_bad_length.
  - intros st0 log0 st log Hturns.
    rewrite (stream_blocks_turns _ _ _ _ _ _ _ _ _ _ _ Hturns).
    by apply stream_blocks_bad_length.
  - unfold read_u32_le, stream_read in Hr.
    destruct (failbit f); [injection Hr as _ <-; split; [done|lia]|].
    destruct (_ <? _)%nat; injection Hr as _ <-; simpl;
      (split; [done|]); rewrite ?length_take; lia.
Qed.

(** One block of one event, then a length field of zero: the event is
    kept, the byte after the length field is never read. *)
Lemma invalid_block_length_stops_the_file_witness :
  let f0 := mk_ifstream block_then_zero_length 0 false in
  let f := mk_ifstream block_then_zero_length 24 false in
  let f' := mk_ifstream block_then_zero_length 28 false in
  let st := ReadDelila.mk_reader_state (batch_events sample_block) 1 in
  tellg f < 29 /\ read_u32_le f = (0, f') /\ (0 = 0 \/ 100000000 < 0) /\
  turns (ReadDelila.process_block (-1)) 29 1
    (f0, ReadDelila.mk_reader_state [] 0, []) (f, st, [] ++ []) /\
  stream_blocks ReadDelila.block_count (ReadDelila.process_block (-1)) 29
    (1 + 1) f0 (ReadDelila.mk_reader_state [] 0) []
  = mk_loop_result BadBlockLength f' st (([] ++ []) ++ [InvalidBlockLength 0]).
Proof.
  intros f0 f f' st.
  assert (H1 : tellg f < 29) by (vm_compute; reflexivity).
  assert (H2 : read_u32_le f = (0, f')) by (vm_compute; reflexivity).
  assert (H3 : 0 = 0 \/ 100000000 < 0) by (left; reflexivity).
  assert (H4 : turns (ReadDelila.process_block (-1)) 29 1
                 (f0, ReadDelila.mk_reader_state [] 0, []) (f, st, [] ++ [])).
  { eapply turns_more; [|apply turns_none].
    apply (turn_block _ _ f0 (mk_ifstream block_then_zero_length 4 false)
             f _ _ [] [] 20 sample_block);
      vm_compute; (reflexivity || discriminate). }
  split; [exact H1|]. split; [exact H2|]. split; [exact H3|].
  split; [exact H4|].
  exact (proj1 (invalid_block_length_stops_the_file (-1) 29 1 0 f0 f f' 0
                  H1 H2 H3)
           (ReadDelila.mk_reader_state [] 0) [] st ([] ++ []) H4).
Defined.

(** ** What the readers make of events and batches as the recorder
    writes them *)

(** [parse_batch] is [parse_batch_header] of the full reader followed by
    the loop over the events. *)
Lemma parse_batch_header_events (data : list byte) (pos : nat) :
  ReadDelila.parse_batch data pos
  = match ConvertToTree.parse_batch_header data pos with
    | (Ok (source_id, n), q) =>
      match ReadDelila.parse_events data n q with
      | (Ok evs, p) => (Ok (source_id, evs), p)
      | (Fail, p) => (Fail, p)
      | (Fault, p) => (Fault, p)
      end
    | (Fail, q) => (Fail, q)
    | (Fault, q) => (Fault, q)
    end.
Proof.
  unfold ReadDelila.parse_batch, ConvertToTree.parse_batch_header, bind.
  destruct (read_array_header data pos) as [[c| |] p0]; [|done..].
  destruct (negb (c =? 4)%nat); [done|].
  destruct (read_uint data p0) as [[src| |] p1]; [|done..].
  destruct (read_uint data p1) as [[seq| |] p2]; [|done..].
  destruct (read_uint data p2) as [[ts| |] p3]; [|done..].
  destruct (read_array_header data p3) as [[n| |] p4]; [|done..].
  simpl. by destruct (ReadDelila.parse_events data n p4) as [[evs| |] p5].
Qed.

Lemma cast_u16_small (v : Z) : 0 <= v < 2 ^ 16 -> cast_u16 v = v.
Proof. intros. unfold cast_u16, cast_unsigned. by rewrite Z.mod_small. Qed.

Lemma cast_u32_small (v : Z) : 0 <= v < 2 ^ 32 -> cast_u32 v = v.
Proof. intros. unfold cast_u32, cast_unsigned. by rewrite Z.mod_small. Qed.

Lemma read_float64_encoded (bits : Z) (data : list byte) (p : nat)
    (l : list byte) :
  0 <= bits < 2 ^ 64 -> bytes_at data p (encode_float64 bits ++ l) ->
  read_float64 data p = (Ok bits, (p + 9)%nat).
Proof.
  intros Hb H. unfold encode_float64, be_bytes8 in H. cbn [app] in H.
  unfold read_float64. enter_at H. apply bytes_at_tail in H.
  change (u8 xcb) with 203. known_tag. room.
  rewrite (be64_at _ _ _ _ _ _ _ _ _ _ _ H), be_bytes8_value.
  rewrite Z.mod_small by done. simpl. f_equal. lia.
Qed.

(** One field read off the front of what is known to sit in [data]. *)
Ltac read_field lem :=
  match goal with
  | H : bytes_at ?data ?q (?enc ?v ++ ?rest) |- _ =>
    rewrite (lem v data q rest)
      by first [exact H | pow2_eval; simpl; lia | done];
    apply bytes_at_app_r in H as [_ H]
  end.

Lemma length_encode_float64 bits : length (encode_float64 bits) = 9%nat.
Proof. reflexivity. Qed.

Lemma summary_parse_event_encoded (ev : ReadDelila.Event) (data : list byte)
    (p : nat) (l : list byte) :
  event_ok ev -> bytes_at data p (encode_event ev ++ l) ->
  ReadDelila.parse_event data p
  = (Ok ev, (p + length (encode_event ev))%nat).
Proof.
  intros (Hm & Hc & He & Hs & Ht & Hf) H.
  unfold encode_event, encode_fields in *. rewrite <- !app_assoc in H.
  unfold ReadDelila.parse_event, bind.
  read_field read_array_header_encoded. cbn [Nat.eqb negb].
  read_field read_uint_encoded. read_field read_uint_encoded.
  read_field read_uint_encoded. read_field read_uint_encoded.
  read_field read_float64_encoded. rewrite length_encode_float64 in H.
  rewrite (read_uint_encoded (ReadDelila.flags ev) data _ l)
    by first [exact H | lia].
  unfold ret. rewrite !cast_u8_small, !cast_u16_small by lia.
  destruct ev. cbn [ReadDelila.module ReadDelila.channel ReadDelila.energy
    ReadDelila.energy_short ReadDelila.timestamp_ns ReadDelila.flags].
  f_equal. rewrite !length_app, length_encode_float64. lia.
Qed.

Lemma parse_events_encoded (evs : list ReadDelila.Event) (data : list byte)
    (l : list byte) :
  Forall event_ok evs ->
  forall p, bytes_at data p (concat (map encode_event evs) ++ l) ->
  ReadDelila.parse_events data (length evs) p
  = (Ok evs, (p + length (concat (map encode_event evs)))%nat).
Proof.
  induction 1 as [|ev evs Hev Hevs IH]; intros p H.
  - simpl. unfold ret. f_equal. lia.
  - cbn [map concat length ReadDelila.parse_events] in *.
    rewrite <- app_assoc in H. unfold bind.
    rewrite (summary_parse_event_encoded ev data p _ Hev H).
    apply bytes_at_app_r in H as [_ H]. rewrite (IH _ H).
    unfold ret. f_equal. rewrite length_app. lia.
Qed.

Lemma length_encode_event ev : (1 <= length (encode_event ev))%nat.
Proof. unfold encode_event. rewrite length_app. simpl. lia. Qed.

(** The header of a batch as the recorder writes it: both programs read
    the source and the number of events it declares. *)
Lemma parse_batch_header_encoded (src seq ts : Z) (n : nat)
    (data l : list byte) :
  0 <= src < 2 ^ 32 -> 0 <= seq < 2 ^ 64 -> 0 <= ts < 2 ^ 64 ->
  Z.of_nat n < 2 ^ 32 ->
  bytes_at data 0%nat (encode_batch_header src seq ts n ++ l) ->
  ConvertToTree.parse_batch_header data 0%nat
  = (Ok (src, n), length (encode_batch_header src seq ts n)).
Proof.
  intros Hsrc Hseq Hts Hn H.
  unfold ConvertToTree.parse_batch_header, bind.
  unfold encode_batch_header in *. rewrite <- !app_assoc in H.
  read_field read_array_header_encoded. cbn [Nat.eqb negb].
  read_field read_uint_encoded. read_field read_uint_encoded.
  read_field read_uint_encoded.
  rewrite (read_array_header_encoded n data _ l) by first [exact H | lia].
  unfold ret. rewrite cast_u32_small by lia.
  f_equal. rewrite !length_app. simpl. lia.
Qed.

Lemma length_records (b : batch) :
  (length (records b) <= length (encode_batch b))%nat.
Proof.
  unfold encode_batch. rewrite !length_app.
  assert (length (records b)
          <= length (concat (map encode_event (records b))))%nat; [|lia].
  induction (records b) as [|ev evs IH]; [simpl; lia|].
  cbn [map concat length]. rewrite length_app.
  pose proof (length_encode_event ev). lia.
Qed.

(** A batch as the recorder writes it parses to its source and its
    records, and the parser ends at the end of the batch. *)
Lemma parse_batch_encoded_at (b : batch) (data l : list byte) :
  batch_ok b -> bytes_at data 0%nat (encode_batch b ++ l) ->
  ReadDelila.parse_batch data 0%nat
  = (Ok (source b, records b), length (encode_batch b)).
Proof.
  intros (Hsrc & Hseq & Hts & Hevs & Hlen) H.
  pose proof (length_records b) as Hn.
  assert (Hn32 : Z.of_nat (length (records b)) < 2 ^ 32)
    by (pow2_eval; lia).
  rewrite parse_batch_header_events.
  unfold encode_batch in *. rewrite <- app_assoc in H.
  rewrite (parse_batch_header_encoded (source b) (sequence_number b)
             (written_at b) (length (records b)) data _ Hsrc Hseq Hts
             Hn32 H).
  apply bytes_at_app_r in H as [_ H]. rewrite Nat.add_0_l in H.
  rewrite (parse_events_encoded (records b) data l Hevs _ H).
  f_equal. rewrite length_app. lia.
Qed.

Lemma parse_batch_encoded (b : batch) :
  batch_ok b ->
  ReadDelila.parse_batch (encode_batch b) 0%nat
  = (Ok (source b, records b), length (encode_batch b)).
Proof.
  intros Hb. apply (parse_batch_encoded_at b _ []); [done|].
  pose proof (bytes_at_middle [] (encode_batch b ++ []) []) as H.
  by rewrite !app_nil_r in *.
Qed.

(** ** C7: a footer without its magic costs a warning, not the events *)

Lemma le_bytes4_value (z : Z) :
  0 <= z < 2 ^ 32 ->
  cast_u32
    (Z.lor (Z.lor (Z.lor (u8 (byte_of z))
                         (Z.shiftl (u8 (byte_of (z / 2 ^ 8))) 8))
                  (Z.shiftl (u8 (byte_of (z / 2 ^ 16))) 16))
           (Z.shiftl (u8 (byte_of (z / 2 ^ 24))) 24)) = z.
Proof.
  intros Hz. rewrite !u8_byte_of.
  set (c0 := z mod 256). set (c1 := (z / 2 ^ 8) mod 256).
  set (c2 := (z / 2 ^ 16) mod 256). set (c3 := (z / 2 ^ 24) mod 256).
  assert (0 <= c0 < 256) by (apply Z.mod_pos_bound; lia).
  assert (0 <= c1 < 256) by (apply Z.mod_pos_bound; lia).
  assert (0 <= c2 < 256) by (apply Z.mod_pos_bound; lia).
  assert (0 <= c3 < 256) by (apply Z.mod_pos_bound; lia).
  rewrite !Z.shiftl_mul_pow2 by lia.
  rewrite (Z.lor_comm c0), (lor_mul_add c1 c0 8) by (pow2_eval; lia).
  rewrite (Z.lor_comm _ (c2 * 2 ^ 16)),
    (lor_mul_add c2 _ 16) by (pow2_eval; lia).
  rewrite (Z.lor_comm _ (c3 * 2 ^ 24)),
    (lor_mul_add c3 _ 24) by (pow2_eval; lia).
  unfold cast_u32, cast_unsigned. rewrite Z.mod_small by (pow2_eval; lia).
  subst c0 c1 c2 c3. pow2_eval. Z.div_mod_to_equations. lia.
Qed.

(** A read that finds all its bytes. *)
Lemma stream_read_exact (file pre l rest : list byte) :
  file = pre ++ l ++ rest ->
  stream_read (length l) (mk_ifstream file (length pre) false)
  = (l, mk_ifstream file (length pre + length l) false).
Proof.
  intros ->. unfold stream_read. simpl.
  rewrite drop_app_length, take_app_length.
  by rewrite Nat.ltb_irrefl.
Qed.

Lemma read_u32_le_exact (file pre rest : list byte) (z : Z) :
  0 <= z < 2 ^ 32 ->
  file = pre ++ le_bytes4 z ++ rest ->
  read_u32_le (mk_ifstream file (length pre) false)
  = (z, mk_ifstream file (length pre + 4) false).
Proof.
  intros Hz Hfile. unfold read_u32_le.
  change 4%nat with (length (le_bytes4 z)) at 1.
  rewrite (stream_read_exact file pre (le_bytes4 z) rest Hfile).
  unfold le_bytes4 at 1 2 3 4. unfold buf_at. simpl lookup.
  cbn [fmap option_fmap option_map default]. unfold id.
  by rewrite le_bytes4_value.
Qed.

Lemma length_frame (block : list byte) :
  length (frame block) = (4 + length block)%nat.
Proof. unfold frame. by rewrite length_app. Qed.

Lemma length_frames_ge (blocks : list (list byte)) :
  (length blocks <= length (frames blocks))%nat.
Proof.
  unfold frames. induction blocks as [|b bs IH]; [simpl; lia|].
  cbn [map concat length]. rewrite length_app, length_frame. lia.
Qed.

Section FramedBlocks.
Context {Acc : Type}.
Variable block_count_of : Acc -> Z.
Variable process_block : list byte -> Acc -> body_result Acc.
Variable data_end : Z.

(** One turn of the loop on a well-framed block. *)
Lemma stream_blocks_step (file pre rest b : list byte) (fuel : nat)
    (acc : Acc) (log : list diagnostic) :
  framed b ->
  file = pre ++ frame b ++ rest ->
  Z.of_nat (length pre) < data_end ->
  stream_blocks block_count_of process_block data_end (S fuel)
    (mk_ifstream file (length pre) false) acc log
  = let f := mk_ifstream file (length pre + length (frame b)) false in
    match process_block b acc with
    | BodyUndefined => mk_loop_result Undefined f acc log
    | Break acc' l => mk_loop_result BodyBreak f acc' (log ++ l)
    | Continue acc' l =>
      stream_blocks block_count_of process_block data_end fuel f acc'
        (log ++ l)
    end.
Proof.
  intros Hb Hfile Hend. unfold framed in Hb.
  cbn [stream_blocks]. unfold tellg. cbn [failbit gpos].
  rewrite (proj2 (Z.ltb_lt _ _)) by lia. cbn [negb].
  unfold frame in Hfile. rewrite <- app_assoc in Hfile.
  assert (Hlen : 0 <= Z.of_nat (length b) < 2 ^ 32) by (pow2_eval; lia).
  rewrite (read_u32_le_exact file pre _ _ Hlen Hfile).
  rewrite (proj2 (Z.eqb_neq _ _)) by lia.
  rewrite (proj2 (Z.ltb_ge _ _)) by lia. cbn [orb].
  rewrite Nat2Z.id.
  assert (Hfile' : file = (pre ++ le_bytes4 (Z.of_nat (length b))) ++ b
                          ++ rest) by (by rewrite <- app_assoc).
  pose proof (stream_read_exact file _ b _ Hfile') as Hrd.
  rewrite length_app in Hrd. change (length (le_bytes4 _)) with 4%nat in Hrd.
  rewrite Hrd. cbn [good failbit negb].
  rewrite length_frame.
  replace (length pre + (4 + length b))%nat
    with (length pre + 4 + length b)%nat by lia.
  reflexivity.
Qed.

(** Over a run of well-framed blocks that lies before [data_end], the
    loop does to the state what the body does block by block. *)
Lemma stream_blocks_framed (blocks : list (list byte)) :
  forall (file pre rest : list byte) (fuel : nat) (acc : Acc)
         (log : list diagnostic),
    Forall framed blocks ->
    file = pre ++ frames blocks ++ rest ->
    Z.of_nat (length pre + length (frames blocks)) <= data_end ->
    match body_over_blocks process_block blocks acc log with
    | inl (acc', log') =>
      stream_blocks block_count_of process_block data_end
        (length blocks + fuel) (mk_ifstream file (length pre) false) acc log
      = stream_blocks block_count_of process_block data_end fuel
          (mk_ifstream file (length pre + length (frames blocks)) false)
          acc' log'
    | inr r =>
      loop_summary
        (stream_blocks block_count_of process_block data_end
           (length blocks + fuel) (mk_ifstream file (length pre) false)
           acc log) = r
    end.
Proof.
  induction blocks as [|b bs IH];
    intros file pre rest fuel acc log Hfr Hfile Hend.
  - simpl. by rewrite Nat.add_0_r.
  - inversion Hfr as [|b' bs' Hb Hbs]; subst b' bs'.
    unfold frames in *. cbn [map concat] in *.
    rewrite length_app, length_frame in Hend.
    rewrite <- app_assoc in Hfile.
    cbn [length Nat.add body_over_blocks].
    rewrite (stream_blocks_step file pre _ b _ acc log Hb Hfile) by lia.
    cbv zeta.
    destruct (process_block b acc) as [acc' l|acc' l|]; [|done..].
    assert (Hfile' : file = (pre ++ frame b) ++ concat (map frame bs) ++ rest)
      by (by rewrite <- app_assoc).
    specialize (IH file (pre ++ frame b) rest fuel acc' (log ++ l) Hbs Hfile').
    rewrite !length_app in IH. rewrite length_app.
    replace (length pre + (length (frame b) + length (concat (map frame bs))))%nat
      with (length pre + length (frame b) + length (concat (map frame bs)))%nat
      by lia.
    apply IH. rewrite length_frame. lia.
Qed.
End FramedBlocks.

Lemma length_delila_file header blocks footer :
  length (delila_file header blocks footer)
  = (12 + length header + length (frames blocks) + length footer)%nat.
Proof. unfold delila_file. rewrite !length_app. simpl. lia. Qed.

(** [read_header] on a well-formed file: the stream stands behind the
    header payload. *)
Lemma read_header_delila_file header blocks footer :
  Z.of_nat (length header) < 2 ^ 32 ->
  let file := delila_file header blocks footer in
  read_header (open_file file)
  = (Some (Z.of_nat (12 + length header)),
     mk_ifstream file (12 + length header) false).
Proof.
  intros Hh file. unfold read_header, open_file.
  pose proof (stream_read_exact file [] FILE_MAGIC
                (le_bytes4 (Z.of_nat (length header)) ++ header
                 ++ frames blocks ++ footer) eq_refl) as Hm.
  change (length FILE_MAGIC) with 8%nat in Hm.
  change (length (@nil byte)) with 0%nat in Hm.
  change (0 + 8)%nat with 8%nat in Hm.
  rewrite Hm. rewrite bool_decide_eq_true_2 by done. cbn [negb].
  assert (Hlen : 0 <= Z.of_nat (length header) < 2 ^ 32) by lia.
  pose proof (read_u32_le_exact file FILE_MAGIC
                (header ++ frames blocks ++ footer)
                (Z.of_nat (length header)) Hlen eq_refl) as Hl.
  change (length FILE_MAGIC) with 8%nat in Hl.
  change (8 + 4)%nat with 12%nat in Hl.
  rewrite Hl. unfold seekg_cur, seekg_beg, tellg. cbn [failbit gpos].
  rewrite (proj2 (Z.ltb_ge _ _)) by lia. cbn [failbit gpos contents].
  rewrite cast_u64_small by (pow2_eval; lia).
  repeat f_equal; lia.
Qed.

(** Without a limit, a block that parses adds all its events. *)
Lemma add_events_unlimited (max_events : Z)
    (events all : list ReadDelila.Event) :
  max_events <= 0 ->
  ReadDelila.add_events max_events events all = all ++ events.
Proof.
  intros Hmax. revert all.
  induction events as [|ev events IH]; intros all; simpl.
  - by rewrite app_nil_r.
  - unfold ReadDelila.limit_reached.
    rewrite (proj2 (Z.ltb_ge 0 max_events)) by lia. simpl.
    rewrite IH, <- app_assoc. done.
Qed.

(** An [int] counter that is incremented wraps like its sum. *)
Lemma cast_int_add_l (a b : Z) : cast_int (cast_int a + b) = cast_int (a + b).
Proof.
  unfold cast_int, cast_signed.
  change (2 ^ (32 - 1)) with 2147483648. change (2 ^ 32) with 4294967296.
  f_equal.
  replace ((a + 2147483648) mod 4294967296 - 2147483648 + b + 2147483648)
    with ((a + 2147483648) mod 4294967296 + b) by lia.
  rewrite Zplus_mod_idemp_l. f_equal. lia.
Qed.

Lemma cast_int_idem (a : Z) : cast_int (cast_int a) = cast_int a.
Proof.
  pose proof (cast_int_add_l a 0) as H. by rewrite !Z.add_0_r in H.
Qed.

Lemma body_over_parsing_blocks (max_events : Z) (blocks : list (list byte)) :
  max_events <= 0 -> Forall parses blocks ->
  forall st log,
    cast_int (ReadDelila.block_count st) = ReadDelila.block_count st ->
    body_over_blocks (ReadDelila.process_block max_events) blocks st log
    = inl (ReadDelila.mk_reader_state
             (ReadDelila.all_events st ++ concat (map batch_events blocks))
             (cast_int (ReadDelila.block_count st
                        + Z.of_nat (length blocks))),
           log).
Proof.
  intros Hmax Hp. induction Hp as [|b bs Hb Hbs IH]; intros st log Hst.
  - simpl. rewrite app_nil_r, Z.add_0_r, Hst. by destruct st.
  - cbn [body_over_blocks map concat length].
    assert (Hpb : ReadDelila.process_block max_events b st
                  = Continue (ReadDelila.mk_reader_state
                                (ReadDelila.all_events st ++ batch_events b)
                                (cast_int (ReadDelila.block_count st + 1)))
                             []).
    { unfold ReadDelila.process_block, batch_events.
      destruct Hb as ([src evs] & p & Hb). rewrite Hb.
      rewrite add_events_unlimited by done.
      unfold ReadDelila.limit_reached.
      by rewrite (proj2 (Z.ltb_ge 0 max_events)) by lia. }
    rewrite Hpb, IH by apply cast_int_idem.
    cbn [ReadDelila.all_events ReadDelila.block_count].
    rewrite !app_nil_r, <- app_assoc, cast_int_add_l.
    replace (ReadDelila.block_count st + 1 + Z.of_nat (length bs))
      with (ReadDelila.block_count st + Z.of_nat (S (length bs))) by lia.
    reflexivity.
Qed.

(** On a file laid out as the format says (magic, header, well-framed
    blocks, 64-byte trailer), a trailer that does not begin with
    "DLEND002" makes [read_footer] return [false] with its warning and
    nothing else: the loop does to the blocks what its body does block by
    block, whatever the trailer holds. *)
Lemma read_delila_without_footer_magic (header : list byte)
    (blocks : list (list byte)) (footer : list byte) (max_events : Z) :
  Z.of_nat (length header) < 2 ^ 32 ->
  Forall framed blocks ->
  length footer = FOOTER_SIZE ->
  take 8 footer <> FOOTER_MAGIC ->
  Z.of_nat (length (delila_file header blocks footer)) < 2 ^ 63 ->
  exists r,
    ReadDelila.read_delila (delila_file header blocks footer) max_events
    = Some r /\
    ReadDelila.rr_footer r = None /\
    ReadDelila.rr_footer_log r = [InvalidFooterMagic] /\
    loop_summary (ReadDelila.rr_loop r)
    = blocks_summary (ReadDelila.process_block max_events) blocks
        (ReadDelila.mk_reader_state [] 0).
Proof.
  intros Hh Hfr Hfoot Hmagic Hsize.
  set (file := delila_file header blocks footer) in *.
  pose proof (length_delila_file header blocks footer) as Hlen.
  fold file in Hlen. unfold FOOTER_SIZE in Hfoot. rewrite Hfoot in Hlen.
  set (pre := FILE_MAGIC ++ le_bytes4 (Z.of_nat (length header)) ++ header).
  assert (Hpre : length pre = (12 + length header)%nat)
    by (unfold pre; rewrite !length_app; simpl; lia).
  assert (Hfile : file = pre ++ frames blocks ++ footer)
    by (unfold file, delila_file, pre; by rewrite <- !app_assoc).
  unfold ReadDelila.read_delila.
  pose proof (read_header_delila_file header blocks footer Hh) as Hhd.
  cbv zeta in Hhd. fold file in Hhd. rewrite Hhd.
  (* the footer *)
  unfold ReadDelila.read_footer. rewrite Hlen. unfold FOOTER_SIZE.
  rewrite (proj2 (Nat.ltb_ge _ _)) by lia.
  unfold seekg_beg at 1. cbn [failbit].
  rewrite (proj2 (Z.ltb_ge _ _)) by lia.
  replace (Z.to_nat (Z.of_nat (12 + length header + length (frames blocks)
                               + 64 - 64)))
    with (length (pre ++ frames blocks)) by (rewrite length_app; lia).
  assert (Hfile8 : file = (pre ++ frames blocks) ++ take 8 footer
                          ++ drop 8 footer)
    by (rewrite take_drop, <- app_assoc; exact Hfile).
  pose proof (stream_read_exact file _ (take 8 footer) _ Hfile8) as Hrd.
  rewrite length_take, Hfoot in Hrd. change (8 `min` 64)%nat with 8%nat in Hrd.
  cbn [contents]. rewrite Hrd. rewrite bool_decide_eq_false_2 by done.
  cbn [negb]. cbv beta iota zeta.
  (* back to the blocks *)
  rewrite (cast_i64_small (Z.of_nat (12 + length header))) by lia.
  unfold seekg_beg. cbn [failbit].
  rewrite (proj2 (Z.ltb_ge _ _)) by lia. rewrite Nat2Z.id.
  set (data_end := cast_i64 _).
  assert (Hend : data_end
                 = Z.of_nat (length pre + length (frames blocks))).
  { unfold data_end. rewrite cast_i64_small by lia. lia. }
  pose proof (length_frames_ge blocks) as Hge.
  replace (S (12 + length header + length (frames blocks) + 64))
    with (length blocks
          + S (12 + length header + length (frames blocks) + 64
               - length blocks))%nat by lia.
  rewrite <- Hpre.
  pose proof (stream_blocks_framed ReadDelila.block_count
                (ReadDelila.process_block max_events) data_end blocks
                file pre footer
                (S (length pre + length (frames blocks) + 64 - length blocks))
                (ReadDelila.mk_reader_state [] 0) [] Hfr Hfile
                ltac:(lia)) as Hloop.
  eexists. split; [reflexivity|]. cbn [ReadDelila.rr_footer
    ReadDelila.rr_footer_log ReadDelila.rr_loop].
  split; [reflexivity|]. split; [reflexivity|].
  assert (Hsum :
    loop_summary
      (stream_blocks ReadDelila.block_count
         (ReadDelila.process_block max_events) data_end
         (length blocks
          + S (length pre + length (frames blocks) + 64 - length blocks))
         (mk_ifstream file (length pre) false)
         (ReadDelila.mk_reader_state [] 0) [])
    = blocks_summary (ReadDelila.process_block max_events) blocks
        (ReadDelila.mk_reader_state [] 0)); [|exact Hsum].
  unfold blocks_summary.
  destruct (body_over_blocks _ blocks _ []) as [[acc' log']|r]; [|done].
  rewrite Hloop. cbn [stream_blocks]. unfold tellg. cbn [failbit gpos].
  rewrite (proj2 (Z.ltb_ge _ _)) by lia. reflexivity.
Qed.

Lemma batch_ok_framed (b : batch) : batch_ok b -> framed (encode_batch b).
Proof.
  intros (_ & _ & _ & _ & Hlen). split; [|done].
  unfold encode_batch. rewrite length_app. simpl. lia.
Qed.

Lemma batch_ok_parses (b : batch) :
  batch_ok b ->
  parses (encode_batch b) /\ batch_events (encode_batch b) = records b.
Proof.
  intros Hb. unfold parses, batch_events.
  rewrite (parse_batch_encoded b Hb). split; [by eexists _, _|done].
Qed.

(** C7.  Take a file laid out as the format says: magic, header, one
    length-prefixed block per batch, each the MessagePack encoding of the
    batch, and a 64-byte trailer that does not begin with "DLEND002".
    [read_footer] then returns [false] with its one warning, and
    [read_delila], run without an event limit, goes on to hand back every
    record of every batch, in the order of the file: the loop ends at the
    end of the data region and has reported nothing, and it has counted
    every block (as long as an [int] holds their number). *)
Theorem footer_magic_mismatch_keeps_events (header : list byte)
    (batches : list batch) (footer : list byte) (max_events : Z) :
  Z.of_nat (length header) < 2 ^ 32 ->
  Forall batch_ok batches ->
  length footer = FOOTER_SIZE ->
  take 8 footer <> FOOTER_MAGIC ->
  Z.of_nat (length (delila_file header (map encode_batch batches) footer))
  < 2 ^ 63 ->
  max_events <= 0 ->
  exists r,
    ReadDelila.read_delila
      (delila_file header (map encode_batch batches) footer) max_events
    = Some r /\
    ReadDelila.rr_footer r = None /\
    ReadDelila.rr_footer_log r = [InvalidFooterMagic] /\
    lr_exit (ReadDelila.rr_loop r) = AtDataEnd /\
    ReadDelila.all_events (lr_acc (ReadDelila.rr_loop r))
    = concat (map records batches) /\
    lr_log (ReadDelila.rr_loop r) = [] /\
    (Z.of_nat (length batches) < 2147483648 ->
     ReadDelila.block_count (lr_acc (ReadDelila.rr_loop r))
     = Z.of_nat (length batches)).
Proof.
  intros Hh Hok Hfoot Hmagic Hsize Hmax.
  assert (Hfr : Forall framed (map encode_batch batches)).
  { apply Forall_map. eapply Forall_impl; [|exact Hok].
    intros b. apply batch_ok_framed. }
  assert (Hp : Forall parses (map encode_batch batches)).
  { apply Forall_map. eapply Forall_impl; [|exact Hok].
    intros b Hb. by apply batch_ok_parses. }
  assert (Hev : concat (map batch_events (map encode_batch batches))
                = concat (map records batches)).
  { clear -Hok. induction Hok as [|b bs Hb Hbs IH]; [done|].
    cbn [map concat]. rewrite IH. f_equal. by apply batch_ok_parses. }
  destruct (read_delila_without_footer_magic header
              (map encode_batch batches) footer max_events
              Hh Hfr Hfoot Hmagic Hsize) as (r & Hr & Hft & Hlog & Hsum).
  exists r. split; [exact Hr|]. split; [exact Hft|]. split; [exact Hlog|].
  unfold blocks_summary in Hsum.
  rewrite (body_over_parsing_blocks max_events _ Hmax Hp) in Hsum
    by reflexivity.
  cbn [ReadDelila.all_events ReadDelila.block_count app] in Hsum.
  rewrite Hev, length_map in Hsum.
  unfold loop_summary in Hsum. injection Hsum as -> -> ->.
  cbn [ReadDelila.all_events ReadDelila.block_count].
  split; [done|]. split; [done|]. split; [done|].
  intros Hn. apply cast_int_small. lia.
Qed.

(** Two batches of one event each, the sample event of the
    specification, and a blank trailer: both events come back. *)
Lemma footer_magic_mismatch_keeps_events_witness :
  let batches := [mk_batch 7 0 0 [sample_event];
                  mk_batch 7 1 0 [sample_event]] in
  encode_batch (mk_batch 7 0 0 [sample_event]) = sample_block /\
  Z.of_nat (length [xaa; xbb]) < 2 ^ 32 /\
  Forall batch_ok batches /\
  length blank_footer = FOOTER_SIZE /\
  take 8 blank_footer <> FOOTER_MAGIC /\
  Z.of_nat (length (delila_file [xaa; xbb] (map encode_batch batches)
                      blank_footer)) < 2 ^ 63 /\
  -1 <= 0 /\
  exists r,
    ReadDelila.read_delila
      (delila_file [xaa; xbb] (map encode_batch batches) blank_footer) (-1)
    = Some r /\
    ReadDelila.rr_footer_log r = [InvalidFooterMagic] /\
    ReadDelila.all_events (lr_acc (ReadDelila.rr_loop r))
    = [ReadDelila.mk_Event 1 2 100 50 4653144203864309760 0;
       ReadDelila.mk_Event 1 2 100 50 4653144203864309760 0].
Proof.
  intros batches.
  assert (H1 : Z.of_nat (length [xaa; xbb]) < 2 ^ 32)
    by (vm_compute; reflexivity).
  assert (H2 : Forall batch_ok batches).
  { repeat constructor; cbn; try lia; vm_compute; discriminate. }
  assert (H3 : length blank_footer = FOOTER_SIZE) by reflexivity.
  assert (H4 : take 8 blank_footer <> FOOTER_MAGIC)
    by (vm_compute; discriminate).
  assert (H5 : Z.of_nat (length (delila_file [xaa; xbb]
                 (map encode_batch batches) blank_footer)) < 2 ^ 63)
    by (vm_compute; reflexivity).
  assert (H6 : -1 <= 0) by lia.
  split; [by vm_compute|].
  split; [exact H1|]. split; [exact H2|]. split; [exact H3|].
  split; [exact H4|]. split; [exact H5|]. split; [exact H6|].
  destruct (footer_magic_mismatch_keeps_events [xaa; xbb] batches
              blank_footer (-1) H1 H2 H3 H4 H5 H6)
    as (r & Hr & _ & Hlog & _ & Hall & _).
  exists r. split; [exact Hr|]. split; [exact Hlog|]. exact Hall.
Defined.

(** * Further properties of the decoders *)

(** ** Values the unsigned forms can take *)

Lemma byte_at_range (data : list byte) (i : nat) (v : Z) :
  byte_at data i = Some v -> 0 <= v < 256.
Proof.
  unfold byte_at. destruct (data !! i) as [b|]; [|done].
  intros [= <-]. apply u8_range.
Qed.

Lemma be16_range (data : list byte) (p : nat) (v : Z) :
  be16 data p = Some v -> 0 <= v < 2 ^ 16.
Proof.
  unfold be16.
  destruct (byte_at data p) as [b0|] eqn:H0; [|done].
  destruct (byte_at data (p + 1)) as [b1|] eqn:H1; [|done].
  apply byte_at_range in H0, H1. intros [= <-].
  rewrite be16_value by done. lia.
Qed.

Lemma be32_range (data : list byte) (p : nat) (v : Z) :
  be32 data p = Some v -> 0 <= v < 2 ^ 32.
Proof.
  unfold be32.
  destruct (byte_at data p) as [b0|] eqn:H0; [|done].
  destruct (byte_at data (p + 1)) as [b1|] eqn:H1; [|done].
  destruct (byte_at data (p + 2)) as [b2|] eqn:H2; [|done].
  destruct (byte_at data (p + 3)) as [b3|] eqn:H3; [|done].
  apply byte_at_range in H0, H1, H2, H3. intros [= <-].
  rewrite be32_value by done. lia.
Qed.

Lemma be64_range (data : list byte) (p : nat) (v : Z) :
  be64 data p = Some v -> 0 <= v < 2 ^ 64.
Proof.
  unfold be64.
  destruct (byte_at data p) as [b0|] eqn:H0; [|done].
  destruct (byte_at data (p + 1)) as [b1|] eqn:H1; [|done].
  destruct (byte_at data (p + 2)) as [b2|] eqn:H2; [|done].
  destruct (byte_at data (p + 3)) as [b3|] eqn:H3; [|done].
  destruct (byte_at data (p + 4)) as [b4|] eqn:H4; [|done].
  destruct (byte_at data (p + 5)) as [b5|] eqn:H5; [|done].
  destruct (byte_at data (p + 6)) as [b6|] eqn:H6; [|done].
  destruct (byte_at data (p + 7)) as [b7|] eqn:H7; [|done].
  apply byte_at_range in H0, H1, H2, H3, H4, H5, H6, H7. intros [= <-].
  rewrite be64_value by done. lia.
Qed.

Lemma fetched_Ok {A} (o : option A) (q : nat) (v : A) (p : nat) :
  fetched o q = (Ok v, p) -> o = Some v /\ p = q.
Proof. destruct o; [|done]. by intros [= -> ->]. Qed.

(** A successful [read_uint]: the tag it met and the range of the value. *)
Lemma read_uint_Ok (data : list byte) (pos p : nat) (v : Z) :
  read_uint data pos = (Ok v, p) ->
  exists b, byte_at data pos = Some b /\
    ((b <= 0x7f /\ v = b /\ p = S pos) \/
     (0xcc <= b <= 0xcf /\ 0 <= v < 2 ^ 64 /\ (S pos < p <= pos + 9)%nat)).
Proof.
  unfold read_uint.
  destruct (size data <=? pos)%nat eqn:Hs; [done|].
  destruct (byte_at data pos) as [b|] eqn:Hb; [|done].
  intros H. exists b. split; [done|].
  destruct (b <=? 0x7f) eqn:H7; bool_hyps.
  { injection H as <- <-. by left. }
  right.
  destruct ((b =? 0xcc) && _) eqn:Hcc; bool_hyps.
  { apply fetched_Ok in H as [Hv ->]. apply byte_at_range in Hv. lia. }
  destruct ((b =? 0xcd) && _) eqn:Hcd; bool_hyps.
  { apply fetched_Ok in H as [Hv ->]. apply be16_range in Hv. lia. }
  destruct ((b =? 0xce) && _) eqn:Hce; bool_hyps.
  { apply fetched_Ok in H as [Hv ->]. apply be32_range in Hv. lia. }
  destruct ((b =? 0xcf) && _) eqn:Hcf; bool_hyps; [|done].
  apply fetched_Ok in H as [Hv ->]. apply be64_range in Hv. lia.
Qed.

(** X1.  [read_int] takes every encoding [read_uint] takes: where
    [read_uint] returns [true] with value [v], [read_int] called at the same
    position returns [true] at the same end position with
    [static_cast<int64_t>(v)], which is [v] itself below 2^63 and
    [v - 2^64] from 2^63 on. *)
Theorem read_int_takes_unsigned_forms (data : list byte) (pos p : nat)
    (v : Z) :
  read_uint data pos = (Ok v, p) ->
  ConvertToTree.read_int data pos = (Ok (cast_i64 v), p) /\
  0 <= v < 2 ^ 64 /\
  cast_i64 v = (if v <? 2 ^ 63 then v else v - 2 ^ 64).
Proof.
  intros H. pose proof (read_uint_Ok _ _ _ _ H) as (b & Hb & Hform).
  assert (Hr := byte_at_range _ _ _ Hb).
  assert (Hv : 0 <= v < 2 ^ 64) by (destruct Hform as [(?&->&_)|(?&?&_)]; lia).
  assert (Hc : cast_i64 v = (if v <? 2 ^ 63 then v else v - 2 ^ 64)).
  { unfold cast_i64, cast_signed. change (64 - 1) with 63.
    destruct (v <? 2 ^ 63) eqn:Hlt; bool_hyps; pow2_eval;
      Z.div_mod_to_equations; lia. }
  split; [|done].
  unfold ConvertToTree.read_int.
  assert (Hs : (size data <=? pos)%nat = false).
  { unfold read_uint in H. by destruct (size data <=? pos)%nat. }
  rewrite Hs, Hb.
  destruct Hform as [(H7 & -> & ->) | (Ht & _ & _)].
  - rewrite (proj2 (Z.leb_le _ _) H7). f_equal. f_equal.
    rewrite Hc. by rewrite (proj2 (Z.ltb_lt b (2 ^ 63))) by lia.
  - rewrite (proj2 (Z.leb_gt b 0x7f)) by lia.
    rewrite (proj2 (Z.leb_gt 0xe0 b)) by lia.
    rewrite (proj2 (Z.eqb_neq b 0xd0)) by lia.
    rewrite (proj2 (Z.eqb_neq b 0xd1)) by lia.
    rewrite (proj2 (Z.eqb_neq b 0xd2)) by lia.
    cbn [andb]. by rewrite H.
Qed.

Lemma read_int_takes_unsigned_forms_witness :
  read_uint [xcf; xff; xff; xff; xff; xff; xff; xff; xfe] 0%nat
    = (Ok 18446744073709551614, 9%nat) /\
  ConvertToTree.read_int [xcf; xff; xff; xff; xff; xff; xff; xff; xfe] 0%nat
    = (Ok (-2), 9%nat).
Proof.
  split; [reflexivity|].
  exact (proj1 (read_int_takes_unsigned_forms
    [xcf; xff; xff; xff; xff; xff; xff; xff; xfe] 0 9 18446744073709551614
    eq_refl)).
Defined.

(** ** The cells a sample reader fills *)

(** The element loop runs through [count] elements only if they are there:
    each takes at least one byte. *)
Lemma read_elems_count (data : list byte) (rd : parser Z) conv max_size
    (w : nat) :
  (forall pos, tag_step data w pos (rd pos)) ->
  forall count i pos sts p,
    ConvertToTree.read_elems rd conv max_size count i pos = (Ok tt, sts, p) ->
    (pos <= size data)%nat -> (pos + count <= p <= size data)%nat.
Proof.
  intros Hrd. induction count as [|count IH]; intros i pos sts p; simpl.
  - intros [= _ <-]. lia.
  - destruct (Hrd pos) as [[? ->] | [? [(x & q & -> & ? & ?) | ->]]];
      [done | | done].
    destruct (ConvertToTree.read_elems rd conv max_size count (S i) q)
      as [[res sts'] p'] eqn:He.
    intros [= -> _ ->] Hp. specialize (IH _ _ _ _ He). lia.
Qed.

(** Below 2^31 elements the loop stores element [i + k] in cell [i + k] for
    as long as the cell is below the cap, in ascending order. *)
Lemma read_elems_cells (rd : parser Z) conv (max_size : Z) :
  forall count i pos sts p,
    ConvertToTree.read_elems rd conv max_size count i pos = (Ok tt, sts, p) ->
    Z.of_nat (i + count) < 2147483648 ->
    sts = imap (fun k x => ((i + k)%nat, x)) (map snd sts) /\
    Z.of_nat (length sts)
    = Z.max 0 (Z.min (Z.of_nat (i + count)) max_size - Z.of_nat i).
Proof.
  induction count as [|count IH]; intros i pos sts p; simpl.
  - intros [= <- _] _. split; [done|]. simpl. lia.
  - destruct (rd pos) as [[v| |] q]; [|done..].
    destruct (ConvertToTree.read_elems rd conv max_size count (S i) q)
      as [[res sts'] p'] eqn:He.
    intros [= -> <- ->] Hi.
    destruct (IH _ _ _ _ He) as [Hsts Hlen]; [lia|].
    rewrite cast_int_small by lia.
    destruct (Z.of_nat i <? max_size) eqn:Hc; bool_hyps; simpl.
    + split.
      * rewrite Nat.add_0_r. f_equal.
        rewrite (imap_ext _ (fun k y => ((S i + k)%nat, y)))
          by (intros k y _; simpl; f_equal; lia).
        exact Hsts.
      * lia.
    + split.
      * destruct sts' as [|s sts']; [done|]. simpl length in Hlen. lia.
      * lia.
Qed.

Lemma imap_values {A} (g : A -> Z) (l : list A) :
  forall h : nat -> nat,
    imap (fun k b => (h k, g b)) l
    = imap (fun k x => (h k, x)) (map snd (imap (fun k b => (h k, g b)) l)).
Proof.
  induction l as [|b l IH]; intros h; simpl; [done|].
  f_equal. apply (IH (h ∘ S)).
Qed.

(** The stores of a reader that returned [true], in a buffer shorter than
    2^31 bytes: cells 0, 1, ..., n - 1 in this order, [n] the count handed
    back. *)
Lemma run_reader_cells (rk : reader) (data : list byte) (max_size n : Z)
    (pos : nat) :
  Z.of_nat (size data) < 2147483648 -> 0 <= max_size ->
  ConvertToTree.ar_res (run_reader rk data max_size n pos) = Ok tt ->
  let r := run_reader rk data max_size n pos in
  0 <= ConvertToTree.ar_n r <= max_size /\
  ConvertToTree.ar_stores r = stores_of (map snd (ConvertToTree.ar_stores r)) /\
  Z.of_nat (length (ConvertToTree.ar_stores r)) = ConvertToTree.ar_n r.
Proof.
  intros Hsz Hmax.
  assert (Harr : forall (rd : parser Z) conv (w : nat),
    (forall q, tag_step data w q (rd q)) ->
    forall sz p0 res sts p,
      read_array_header data pos = (Ok sz, p0) ->
      ConvertToTree.read_elems rd conv max_size sz 0 p0 = (res, sts, p) ->
      res = Ok tt ->
      0 <= Z.min (cast_int (Z.of_nat sz)) max_size <= max_size /\
      sts = stores_of (map snd sts) /\
      Z.of_nat (length sts) = Z.min (cast_int (Z.of_nat sz)) max_size).
  { intros rd conv w Hrd sz p0 res sts p Hh He ->.
    assert (Hb : (p0 <= size data)%nat).
    { destruct (read_array_header_step data pos)
        as [[? Hr] | [? [(x & q & Hr & ? & ?) | Hr]]];
        rewrite Hh in Hr; [done | | done]. injection Hr as _ ->. lia. }
    pose proof (read_elems_count data rd conv max_size w Hrd _ _ _ _ _ He
                  ltac:(lia)) as Hc.
    destruct (read_elems_cells rd conv max_size _ _ _ _ _ He) as [Hs Hl];
      [simpl; lia|].
    rewrite cast_int_small by lia. split; [lia|]. split; [exact Hs|].
    simpl in Hl. lia. }
  assert (Hbin : forall q,
    ConvertToTree.ar_res (ConvertToTree.read_bin data max_size n q) = Ok tt ->
    let r := ConvertToTree.read_bin data max_size n q in
    0 <= ConvertToTree.ar_n r <= max_size /\
    ConvertToTree.ar_stores r
    = stores_of (map snd (ConvertToTree.ar_stores r)) /\
    Z.of_nat (length (ConvertToTree.ar_stores r)) = ConvertToTree.ar_n r).
  { intros q. unfold ConvertToTree.read_bin.
    destruct (ConvertToTree.bin_header data q) as [[sz| |] p0]; [|done..].
    simpl. destruct (size data <? p0 + sz)%nat eqn:Hfit; bool_hyps; [done|].
    rewrite cast_int_small by lia.
    destruct (byte_at data p0); [|done].
    destruct (ConvertToTree.memcpy_faults _ _ _) eqn:Hf; [done|].
    simpl. intros _. split; [lia|].
    unfold ConvertToTree.memcpy_faults in Hf. bool_hyps.
    unfold ConvertToTree.memcpy_stores, ConvertToTree.memcpy_source in *.
    rewrite cast_u64_small in *
      by (change (2 ^ 64) with 18446744073709551616; lia).
    split.
    - unfold stores_of. apply (imap_values u8 _ id).
    - rewrite length_imap, length_take. lia. }
  destruct rk; simpl.
  - unfold ConvertToTree.read_i16_array.
    destruct (read_array_header data pos) as [[sz| |] p0] eqn:Hh; [|done..].
    destruct (ConvertToTree.read_elems _ _ _ _ _ _) as [[res sts] q] eqn:He.
    simpl. intros Hres.
    exact (Harr _ _ _ (read_int_step data) _ _ _ _ _ eq_refl He Hres).
  - unfold ConvertToTree.read_u8_array.
    destruct (size data <=? pos)%nat eqn:Hp; [done|].
    destruct (byte_at data pos) as [b|]; [|done].
    destruct (_ || _); simpl; [apply Hbin|].
    destruct (read_array_header data pos) as [[sz| |] p0] eqn:Hh; [|done..].
    destruct (ConvertToTree.read_elems _ _ _ _ _ _) as [[res sts] q] eqn:He.
    simpl. intros Hres.
    exact (Harr _ _ _ (read_uint_step data) _ _ _ _ _ eq_refl He Hres).
  - apply Hbin.
Qed.

(** X2.  In a block (a buffer shorter than 2^31 bytes), a sample reader
    that returns [true] hands back a count [n] between 0 and the capacity,
    and it has written each of the cells 0 .. n - 1 of the destination
    array once, in ascending order: what the tree takes from the branch
    [arr[n]] are the samples of this call, whatever an earlier event left in
    the array. *)
Theorem counted_cells_are_fresh (rk : reader) (data : list byte)
    (max_size n : Z) (pos : nat) (arr : list Z) :
  Z.of_nat (size data) < 2147483648 -> 0 <= max_size ->
  (Z.to_nat max_size <= length arr)%nat ->
  ConvertToTree.ar_res (run_reader rk data max_size n pos) = Ok tt ->
  let r := run_reader rk data max_size n pos in
  0 <= ConvertToTree.ar_n r <= max_size /\
  ConvertToTree.probe_cells arr
    (ConvertToTree.mk_probe (ConvertToTree.ar_n r) (ConvertToTree.ar_stores r))
  = map snd (ConvertToTree.ar_stores r).
Proof.
  intros Hsz Hmax Harr Hres.
  destruct (run_reader_cells rk data max_size n pos Hsz Hmax Hres)
    as (Hn & Hst & Hlen).
  cbv zeta. split; [done|].
  rewrite Hst at 1. rewrite <- Hlen.
  rewrite <- (length_map snd).
  rewrite probe_cells_stores_of; [done|].
  rewrite length_map. lia.
Qed.

Lemma counted_cells_are_fresh_witness :
  ConvertToTree.probe_cells [9; 9; 9; 9]
    (ConvertToTree.mk_probe 2 [(0%nat, 1); (1%nat, 200)])
  = [1; 200].
Proof.
  exact (proj2 (counted_cells_are_fresh RU8 [x92; x01; xcc; xc8] 4 0 0
    [9; 9; 9; 9] eq_refl ltac:(done) ltac:(simpl; lia) eq_refl)).
Defined.

(** ** What one block adds *)

Lemma waveforms_cons (ev : ConvertToTree.event)
    (evs : list ConvertToTree.event) :
  waveforms (ev :: evs)
  = (if ConvertToTree.has_waveform ev then 1 else 0) + waveforms evs.
Proof.
  unfold waveforms. simpl.
  destruct (ConvertToTree.has_waveform ev); simpl length; lia.
Qed.

Lemma filled_nil (st : ConvertToTree.tree_state) :
  cast_int (ConvertToTree.waveform_count st) = ConvertToTree.waveform_count st ->
  filled st [] = st.
Proof.
  destruct st. unfold filled, waveforms. simpl. intros Hw.
  rewrite app_nil_r, !Z.add_0_r, Hw. reflexivity.
Qed.

(** *** The summary reader's batch *)

Lemma parse_events_length (data : list byte) :
  forall count pos evs p,
    ReadDelila.parse_events data count pos = (Ok evs, p) ->
    length evs = count.
Proof.
  induction count as [|count IH]; intros pos evs p; simpl.
  - by intros [= <- _].
  - intros H. apply bind_Ok in H as (ev & q & _ & H).
    apply bind_Ok in H as (evs' & q' & He & H).
    injection H as <- _. simpl. f_equal. by eapply IH.
Qed.

(** X4.  One block in [read_delila], with no event limit, is all or
    nothing: either the state is left as it was and the loop is left with
    the warning that the block failed to parse, or the batch header parsed
    and exactly as many events as it declares are appended, the block is
    counted and the loop goes on.  In no case are some events of a block
    kept and others dropped. *)
Theorem batch_is_all_or_nothing (max_events : Z) (block : list byte)
    (st : ReadDelila.reader_state) :
  max_events <= 0 ->
  ReadDelila.process_block max_events block st
  = Break st [FailedToParseBlock (ReadDelila.block_count st)]
  \/
  exists source_id n q evs,
    ConvertToTree.parse_batch_header block 0%nat = (Ok (source_id, n), q) /\
    length evs = n /\
    ReadDelila.process_block max_events block st
    = Continue (ReadDelila.mk_reader_state
                  (ReadDelila.all_events st ++ evs)
                  (cast_int (ReadDelila.block_count st + 1))) [].
Proof.
  intros Hmax. unfold ReadDelila.process_block.
  pose proof (parse_batch_faultless block 0%nat) as Hf.
  rewrite parse_batch_header_events in *.
  destruct (ConvertToTree.parse_batch_header block 0%nat)
    as [[[source_id n]| |] q]; [|by left|done].
  destruct (ReadDelila.parse_events block n q) as [[evs| |] p] eqn:He;
    [|by left|done].
  right. exists source_id, n, q, evs. split; [done|].
  split; [by eapply parse_events_length|].
  rewrite add_events_unlimited by done.
  unfold ReadDelila.limit_reached.
  by rewrite (proj2 (Z.ltb_ge 0 max_events)) by lia.
Qed.

Lemma batch_is_all_or_nothing_witness :
  ReadDelila.process_block 0 short_block (ReadDelila.mk_reader_state [] 0)
  = Break (ReadDelila.mk_reader_state [] 0) [FailedToParseBlock 0]
  \/
  exists source_id n q evs,
    ConvertToTree.parse_batch_header short_block 0%nat
    = (Ok (source_id, n), q) /\
    length evs = n /\
    ReadDelila.process_block 0 short_block (ReadDelila.mk_reader_state [] 0)
    = Continue (ReadDelila.mk_reader_state ([] ++ evs) (cast_int (0 + 1))) [].
Proof.
  exact (batch_is_all_or_nothing 0 short_block
           (ReadDelila.mk_reader_state [] 0) ltac:(done)).
Defined.

(** ** The block loop as a whole *)

(** A [read] that left the stream good delivered all [n] bytes. *)
Lemma stream_read_good (n : nat) (f f' : ifstream) (block : list byte) :
  stream_read n f = (block, f') -> good f' = true ->
  failbit f = false /\ length block = n /\
  block = take n (drop (gpos f) (contents f)) /\
  f' = mk_ifstream (contents f) (gpos f + n) false.
Proof.
  unfold stream_read, good.
  destruct (failbit f) eqn:Hf.
  { intros [= <- <-]. by rewrite Hf. }
  destruct (_ <? n)%nat eqn:Hn; intros [= <- <-]; [done|].
  intros _. bool_hyps. rewrite length_take in *. repeat split; lia.
Qed.

Lemma stream_read_contents (n : nat) (f : ifstream) :
  contents (snd (stream_read n f)) = contents f.
Proof. unfold stream_read. by repeat case_match. Qed.

Lemma read_u32_le_stream (f : ifstream) :
  snd (read_u32_le f) = snd (stream_read 4 f).
Proof. unfold read_u32_le. by destruct (stream_read 4 f). Qed.

Lemma read_u32_le_range (f : ifstream) : 0 <= fst (read_u32_le f) < 2 ^ 32.
Proof.
  unfold read_u32_le. destruct (stream_read 4 f). simpl.
  unfold cast_u32, cast_unsigned. apply Z.mod_pos_bound. done.
Qed.

Section LoopInvariant.
Context {Acc : Type}.
Variable block_count_of : Acc -> Z.
Variable process_block : list byte -> Acc -> body_result Acc.
Variable data_end : Z.

(** [I] holds whenever the loop condition is about to be tested, [Q] when
    the loop has been left. *)
Variable I : ifstream -> Acc -> Prop.
Variable Q : ifstream -> Acc -> Prop.
Hypothesis head_final : forall f acc, I f acc -> Q f acc.
Hypothesis read_keeps :
  forall f acc n, I f acc -> I (snd (stream_read n f)) acc.
Hypothesis body_continue :
  forall f f' block acc acc' l n,
    I f acc -> stream_read n f = (block, f') -> good f' = true ->
    0 < Z.of_nat n <= 100000000 ->
    process_block block acc = Continue acc' l -> I f' acc'.
Hypothesis body_break :
  forall f f' block acc acc' l n,
    I f acc -> stream_read n f = (block, f') -> good f' = true ->
    0 < Z.of_nat n <= 100000000 ->
    process_block block acc = Break acc' l -> Q f' acc'.


End LoopInvariant.

(** *** The streams the two programs start their loops on *)

Lemma seekg_beg_contents (p : Z) (f : ifstream) :
  contents (seekg_beg p f) = contents f.
Proof. unfold seekg_beg. by repeat case_match. Qed.

Lemma read_header_contents (f : ifstream) :
  contents (snd (read_header f)) = contents f.
Proof.
  unfold read_header.
  pose proof (stream_read_contents 8 f) as H8.
  destruct (stream_read 8 f) as [magic f1]. simpl in H8.
  destruct (negb _); [done|].
  pose proof (read_u32_le_stream f1) as Hs.
  destruct (read_u32_le f1) as [len f2]. simpl in Hs. subst f2.
  simpl. unfold seekg_cur.
  by rewrite seekg_beg_contents, stream_read_contents.
Qed.

Lemma read_u64_le_stream (f : ifstream) :
  snd (read_u64_le f) = snd (stream_read 8 f).
Proof. unfold read_u64_le. by destruct (stream_read 8 f). Qed.

Lemma read_footer_contents (f : ifstream) (file_size : nat) :
  contents (snd (ReadDelila.read_footer f file_size)) = contents f.
Proof.
  unfold ReadDelila.read_footer. destruct (_ <? _)%nat; [done|].
  set (f0 := seekg_beg _ f).
  assert (H0 : contents f0 = contents f) by apply seekg_beg_contents.
  clearbody f0.
  pose proof (stream_read_contents 8 f0) as H1.
  destruct (stream_read 8 f0) as [magic f1]. simpl in H1.
  destruct (negb _); [simpl; congruence|].
  unfold read_f64_le.
  repeat match goal with
  | |- context [read_u64_le ?g] =>
    let H := fresh "Hs" in
    pose proof (read_u64_le_stream g) as H;
    destruct (read_u64_le g) as [? ?]; simpl in H; subst
  end.
  destruct (stream_read 1 _) as [c f7] eqn:H7. simpl.
  apply (f_equal snd) in H7. simpl in H7. subst f7.
  rewrite !stream_read_contents. congruence.
Qed.

Section UndefinedBody.
Context {Acc : Type}.
Variable block_count_of : Acc -> Z.
Variable process_block : list byte -> Acc -> body_result Acc.
Variable data_end : Z.

(** When the loop is left because the body was not defined on a block,
    the stream stands right behind that block. *)
Lemma stream_blocks_undefined (fuel : nat) :
  forall (f : ifstream) (acc : Acc) (log : list diagnostic),
    let r := stream_blocks block_count_of process_block data_end
               fuel f acc log in
    lr_exit r = Undefined ->
    contents (lr_stream r) = contents f /\
    exists block acc',
      process_block block acc' = BodyUndefined /\
      0 < Z.of_nat (length block) <= 100000000 /\
      block `suffix_of` take (gpos (lr_stream r)) (contents f).
Proof.
  induction fuel as [|fuel IH]; intros f acc log; cbv zeta; [done|].
  cbn [stream_blocks].
  destruct (negb (tellg f <? data_end)); [done|].
  pose proof (read_u32_le_stream f) as Hs.
  pose proof (read_u32_le_range f) as Hr.
  destruct (read_u32_le f) as [len f1]. simpl in Hs, Hr. subst f1.
  destruct ((len =? 0) || (100000000 <? len)) eqn:Hlen; [done|].
  bool_hyps.
  destruct (stream_read (Z.to_nat len) (snd (stream_read 4 f)))
    as [block f2] eqn:Hb.
  destruct (negb (good f2)) eqn:Hg; [done|]. bool_hyps.
  destruct (stream_read_good _ _ _ _ Hb Hg) as (_ & Hl & Hblock & Hf2).
  rewrite stream_read_contents in Hblock, Hf2.
  destruct (process_block block acc) as [acc' l|acc' l|] eqn:Hp; [|done|].
  - intros Hu. destruct (IH f2 acc' (log ++ l) Hu) as [Hc Hex].
    assert (Hcf : contents f2 = contents f) by (by rewrite Hf2).
    rewrite Hcf in Hc, Hex. by split.
  - intros _. cbn [lr_stream]. rewrite Hf2. cbn [contents gpos].
    split; [done|]. exists block, acc. split; [done|]. split; [lia|].
    rewrite <- take_take_drop. rewrite Hblock. by apply suffix_app_r.
Qed.
End UndefinedBody.

(** The body of [read_delila]'s loop is defined on every block; that of
    [convert_to_tree]'s loop on every block of less than 2^31 bytes that
    does not end in the header of an empty byte string. *)
Lemma fill_events_defined (data : list byte) (max_events : Z) :
  Z.of_nat (size data) < 2147483648 -> ~ ends_in_empty_bin data ->
  forall count st pos,
    ConvertToTree.fill_events data max_events count st pos <> None.
Proof.
  intros Hsz Hne. pose proof (full_parse_event_faultless data Hsz Hne) as Hf.
  induction count as [|count IH]; intros st pos; simpl; [done|].
  specialize (Hf pos).
  destruct (ConvertToTree.parse_event data pos) as [[ev| |] q]; [|done..].
  destruct (ConvertToTree.limit_reached _ _); [done|apply IH].
Qed.

Lemma full_process_block_defined (max_events : Z) (block : list byte)
    (st : ConvertToTree.tree_state) :
  Z.of_nat (length block) <= 100000000 -> ~ ends_in_empty_bin block ->
  ConvertToTree.process_block max_events block st <> BodyUndefined.
Proof.
  intros Hl Hne. unfold ConvertToTree.process_block.
  pose proof (parse_batch_header_faultless block 0%nat) as Hf.
  destruct (ConvertToTree.parse_batch_header block 0%nat)
    as [[[src n]| |] q]; [|done..].
  pose proof (fill_events_defined block max_events
                ltac:(unfold size; lia) Hne n st q) as Hd.
  destruct (ConvertToTree.fill_events block max_events n st q)
    as [[st' log]|]; [|done].
  by destruct (ConvertToTree.limit_reached _ _).
Qed.

Lemma summary_process_block_defined (max_events : Z) (block : list byte)
    (st : ReadDelila.reader_state) :
  ReadDelila.process_block max_events block st <> BodyUndefined.
Proof.
  unfold ReadDelila.process_block.
  pose proof (parse_batch_faultless block 0%nat) as Hf.
  destruct (ReadDelila.parse_batch block 0%nat) as [[[src evs]| |] q];
    [|done..].
  by destruct (ReadDelila.limit_reached _ _).
Qed.

Lemma ends_in_empty_bin_suffix (block data : list byte) :
  block `suffix_of` data -> ends_in_empty_bin block -> ends_in_empty_bin data.
Proof.
  intros Hs. unfold ends_in_empty_bin. rewrite !Exists_exists.
  intros (h & Hin & Hh). exists h. split; [done|]. by etrans.
Qed.

(** X5.  Whatever the bytes of the input file, the block loop of either
    program comes to an end: every turn that goes on moves the stream
    forward.  [read_delila] never indexes a block outside its bounds.
    [convert_to_tree] does so on one kind of block only, one that ends in
    the header of an empty byte string: when its loop is left that way,
    the bytes of the file up to the stream position end in [c4 00],
    [c5 00 00] or [c6 00 00 00 00]. *)
Theorem block_loops_end_and_stay_in_bounds (file : list byte)
    (max_events : Z) :
  (forall r, ConvertToTree.convert_to_tree file max_events = Some r ->
     lr_exit r <> OutOfFuel /\
     (lr_exit r = Undefined ->
      ends_in_empty_bin (take (gpos (lr_stream r)) file))) /\
  (forall rr, ReadDelila.read_delila file max_events = Some rr ->
     lr_exit (ReadDelila.rr_loop rr) <> Undefined /\
     lr_exit (ReadDelila.rr_loop rr) <> OutOfFuel).
Proof.
  split.
  - intros r. unfold ConvertToTree.convert_to_tree.
    pose proof (read_header_contents (open_file file)) as Hc.
    destruct (read_header (open_file file)) as [[hp|] f1]; [|done].
    simpl in Hc. intros Hr. apply (inj Some) in Hr as <-. split.
    + apply stream_blocks_enough_fuel.
      rewrite seekg_beg_contents, Hc. lia.
    + intros Hu. apply stream_blocks_undefined in Hu
        as (_ & block & st & Hp & Hl & Hs).
      rewrite seekg_beg_contents, Hc in Hs.
      apply (ends_in_empty_bin_suffix block); [done|].
      destruct (decide (ends_in_empty_bin block)) as [|Hne]; [done|].
      by destruct (full_process_block_defined max_events block st
                     ltac:(lia) Hne).
  - intros rr. unfold ReadDelila.read_delila.
    pose proof (read_header_contents (open_file file)) as Hc.
    destruct (read_header (open_file file)) as [[hp|] f1]; [|done].
    simpl in Hc.
    pose proof (read_footer_contents f1 (length file)) as Hc'.
    destruct (ReadDelila.read_footer f1 (length file)) as [[ft fl] f2].
    simpl in Hc'. intros Hr. apply (inj Some) in Hr as <-.
    cbn [ReadDelila.rr_loop]. split.
    + intros Hu. apply stream_blocks_undefined in Hu
        as (_ & block & st & Hp & _).
      by apply summary_process_block_defined in Hp.
    + apply stream_blocks_enough_fuel.
      rewrite seekg_beg_contents, Hc', Hc. simpl. lia.
Qed.

(** The file whose one block stops behind [c4 00]. *)
Lemma block_loops_end_and_stay_in_bounds_witness :
  exists r,
    ConvertToTree.convert_to_tree cut_file 0 = Some r /\
    lr_exit r = Undefined /\ gpos (lr_stream r) = 41%nat /\
    ends_in_empty_bin (take 41 cut_file).
Proof.
  eexists. split; [vm_compute; reflexivity|].
  split; [reflexivity|]. split; [reflexivity|].
  apply (proj2 (proj1 (block_loops_end_and_stay_in_bounds cut_file 0) _
                  eq_refl)).
  reflexivity.
Defined.

(** ** Bytes an event takes *)









(** ** What the loops keep true *)

Lemma waveforms_app (evs1 evs2 : list ConvertToTree.event) :
  waveforms (evs1 ++ evs2) = waveforms evs1 + waveforms evs2.
Proof.
  unfold waveforms. rewrite List.filter_app, length_app. lia.
Qed.


Lemma filled_cons (st : ConvertToTree.tree_state) (ev : ConvertToTree.event)
    (evs : list ConvertToTree.event) :
  filled (ConvertToTree.mk_tree_state
            (ConvertToTree.entries st ++ [ev]) (ConvertToTree.block_count st)
            (ConvertToTree.event_count st + 1)
            (if ConvertToTree.has_waveform ev
             then cast_int (ConvertToTree.waveform_count st + 1)
             else ConvertToTree.waveform_count st)) evs
  = filled st (ev :: evs).
Proof.
  unfold filled.
  cbn [ConvertToTree.entries ConvertToTree.block_count
       ConvertToTree.event_count ConvertToTree.waveform_count length].
  rewrite waveforms_cons, Nat2Z.inj_succ, <- app_assoc.
  destruct (ConvertToTree.has_waveform ev);
    rewrite ?cast_int_add_l; f_equal; try lia; f_equal; lia.
Qed.

(** The waveform counter of a state the loop has reached is an [int]. *)
Lemma filled_waveform_count (st : ConvertToTree.tree_state)
    (evs : list ConvertToTree.event) :
  cast_int (ConvertToTree.waveform_count (filled st evs))
  = ConvertToTree.waveform_count (filled st evs).
Proof. apply cast_int_idem. Qed.



(** *** The summary reader's side *)


Lemma add_events_limited (max_events : Z) (events : list ReadDelila.Event) :
  0 < max_events < 2147483648 ->
  forall all,
    Z.of_nat (length all) < max_events ->
    let all' := ReadDelila.add_events max_events events all in
    Z.of_nat (length all') <= max_events /\
    (ReadDelila.limit_reached max_events all' = false ->
     Z.of_nat (length all') < max_events).
Proof.
  intros Hmax. induction events as [|ev events IH]; intros all Hall; simpl.
  - split; [lia|done].
  - assert (Hlen : Z.of_nat (length (all ++ [ev])) = Z.of_nat (length all) + 1)
      by (rewrite length_app; simpl; lia).
    destruct (ReadDelila.limit_reached max_events (all ++ [ev])) eqn:Hlim.
    + split; [lia|]. by rewrite Hlim.
    + apply IH. unfold ReadDelila.limit_reached in Hlim.
      rewrite cast_int_small in Hlim by lia.
      apply andb_false_iff in Hlim as [Hlim|Hlim]; bool_hyps; lia.
Qed.


(** *** Streams *)



(** *** What [convert_to_tree] ends with *)


(** *** What [read_delila] ends with *)








(** ** Short files and truncated blocks *)

Lemma cast_i64_fits (v : Z) : - 2 ^ 63 <= v < 2 ^ 63 -> cast_i64 v = v.
Proof.
  intros Hv. unfold cast_i64, cast_signed.
  change (64 - 1) with 63. change (2 ^ 64) with (2 * 2 ^ 63).
  assert (0 < 2 ^ 63) by done. rewrite Z.mod_small by lia. lia.
Qed.

Lemma tellg_lower (f : ifstream) : -1 <= tellg f.
Proof. unfold tellg. destruct (failbit f); lia. Qed.

(** The loop on a file shorter than its trailer: [data_end] wrapped around
    is negative as a stream position, and the condition fails at once. *)
Lemma stream_blocks_short_file {Acc : Type} (block_count_of : Acc -> Z)
    (process_block : list byte -> Acc -> body_result Acc)
    (file_size fuel : nat) (f : ifstream) (acc : Acc)
    (log : list diagnostic) :
  (file_size < FOOTER_SIZE)%nat ->
  stream_blocks block_count_of process_block
    (cast_i64 (Z.of_nat file_size - Z.of_nat FOOTER_SIZE)) (S fuel) f acc log
  = mk_loop_result AtDataEnd f acc log.
Proof.
  intros Hs. unfold FOOTER_SIZE in *. cbn [stream_blocks].
  rewrite cast_i64_fits by (change (2 ^ 63) with 9223372036854775808; lia).
  pose proof (tellg_lower f).
  by rewrite (proj2 (Z.ltb_ge (tellg f) _)) by lia.
Qed.

(** X9.  A file that passes the magic check but is shorter than the
    64-byte trailer yields nothing in either program: [data_end], computed
    as [file_size - FOOTER_SIZE] in [size_t], wraps around and is negative
    once converted to a stream position, so the loop condition is false
    before the first block; no event, no block and no warning of the loop.
    [read_delila] reports the file as too small for a footer. *)
Theorem short_file_has_no_events (file : list byte) (max_events : Z) :
  (length file < FOOTER_SIZE)%nat ->
  (forall r, ConvertToTree.convert_to_tree file max_events = Some r ->
     lr_exit r = AtDataEnd /\
     lr_acc r = ConvertToTree.mk_tree_state [] 0 0 0 /\ lr_log r = []) /\
  (forall rr, ReadDelila.read_delila file max_events = Some rr ->
     ReadDelila.rr_footer rr = None /\
     ReadDelila.rr_footer_log rr = [FileTooSmallForFooter] /\
     lr_exit (ReadDelila.rr_loop rr) = AtDataEnd /\
     lr_acc (ReadDelila.rr_loop rr) = ReadDelila.mk_reader_state [] 0 /\
     lr_log (ReadDelila.rr_loop rr) = []).
Proof.
  intros Hs. split.
  - intros r. unfold ConvertToTree.convert_to_tree.
    destruct (read_header (open_file file)) as [[hp|] f1]; [|done].
    intros Hr. apply (inj Some) in Hr as <-.
    by rewrite stream_blocks_short_file.
  - intros rr. unfold ReadDelila.read_delila.
    destruct (read_header (open_file file)) as [[hp|] f1]; [|done].
    unfold ReadDelila.read_footer.
    rewrite (proj2 (Nat.ltb_lt _ _) Hs).
    intros Hr. apply (inj Some) in Hr as <-.
    cbn [ReadDelila.rr_footer ReadDelila.rr_footer_log ReadDelila.rr_loop].
    by rewrite stream_blocks_short_file.
Qed.

Lemma short_file_has_no_events_witness :
  (length header_only_file < FOOTER_SIZE)%nat /\
  exists r rr,
    ConvertToTree.convert_to_tree header_only_file 0 = Some r /\
    ReadDelila.read_delila header_only_file 0 = Some rr /\
    lr_exit r = AtDataEnd /\
    ReadDelila.rr_footer_log rr = [FileTooSmallForFooter].
Proof.
  assert (Hs : (length header_only_file < FOOTER_SIZE)%nat)
    by (vm_compute; lia).
  split; [exact Hs|].
  eexists _, _. split; [vm_compute; reflexivity|].
  split; [vm_compute; reflexivity|].
  pose proof (short_file_has_no_events header_only_file 0 Hs) as [Hc Hr].
  split.
  - apply Hc. vm_compute; reflexivity.
  - refine (proj1 (proj2 (Hr _ _))). vm_compute; reflexivity.
Defined.

(** One turn of the loop on a block that is cut short. *)
Lemma stream_blocks_truncated {Acc : Type} (block_count_of : Acc -> Z)
    (process_block : list byte -> Acc -> body_result Acc) (data_end : Z)
    (fuel : nat) (f f1 : ifstream) (len : Z) (acc : Acc)
    (log : list diagnostic) :
  tellg f < data_end ->
  read_u32_le f = (len, f1) ->
  0 < len <= 100000000 ->
  (length (contents f1) - gpos f1 < Z.to_nat len)%nat ->
  stream_blocks block_count_of process_block data_end (S fuel) f acc log
  = mk_loop_result ReadError (snd (stream_read (Z.to_nat len) f1)) acc
      (log ++ [ReadErrorAtBlock (block_count_of acc)]) /\
  good (snd (stream_read (Z.to_nat len) f1)) = false.
Proof.
  intros Ht Hr Hlen Hshort.
  assert (Hg : good (snd (stream_read (Z.to_nat len) f1)) = false).
  { unfold stream_read, good. destruct (failbit f1) eqn:Hf; simpl.
    - by rewrite Hf.
    - rewrite length_take, length_drop.
      by rewrite (proj2 (Nat.ltb_lt _ _)) by lia. }
  split; [|exact Hg].
  cbn [stream_blocks].
  rewrite (proj2 (Z.ltb_lt _ _) Ht). cbn [negb]. rewrite Hr.
  rewrite (proj2 (Z.eqb_neq len 0)) by lia.
  rewrite (proj2 (Z.ltb_ge 100000000 len)) by lia. cbn [orb].
  destruct (stream_read (Z.to_nat len) f1) as [block f2]. simpl in *.
  by rewrite Hg.
Qed.

(** X10.  In both programs: after any number of turns of the loop, a block
    whose length field is acceptable but promises more bytes than the file
    still holds ends the loop with "Read error at block k", [k] the number
    of blocks counted so far.  The bytes that were left are consumed, but
    they are never parsed: the events and counters are those of the turns
    before. *)
Theorem truncated_block_stops_the_file (max_events data_end : Z)
    (n fuel : nat) (f0 f f1 : ifstream) (len : Z) :
  tellg f < data_end ->
  read_u32_le f = (len, f1) ->
  0 < len <= 100000000 ->
  (length (contents f1) - gpos f1 < Z.to_nat len)%nat ->
  (forall st0 log0 st log,
     turns (ReadDelila.process_block max_events) data_end n
       (f0, st0, log0) (f, st, log) ->
     stream_blocks ReadDelila.block_count
       (ReadDelila.process_block max_events) data_end (n + S fuel)
       f0 st0 log0
     = mk_loop_result ReadError (snd (stream_read (Z.to_nat len) f1)) st
         (log ++ [ReadErrorAtBlock (ReadDelila.block_count st)])) /\
  (forall st0 log0 st log,
     turns (ConvertToTree.process_block max_events) data_end n
       (f0, st0, log0) (f, st, log) ->
     stream_blocks ConvertToTree.block_count
       (ConvertToTree.process_block max_events) data_end (n + S fuel)
       f0 st0 log0
     = mk_loop_result ReadError (snd (stream_read (Z.to_nat len) f1)) st
         (log ++ [ReadErrorAtBlock (ConvertToTree.block_count st)])).
Proof.
  intros Ht Hr Hlen Hshort. split.
  - intros st0 log0 st log Hturns.
    rewrite (stream_blocks_turns _ _ _ _ _ _ _ _ _ _ _ Hturns).
    by apply stream_blocks_truncated.
  - intros st0 log0 st log Hturns.
    rewrite (stream_blocks_turns _ _ _ _ _ _ _ _ _ _ _ Hturns).
    by apply stream_blocks_truncated.
Qed.

Lemma truncated_block_stops_the_file_witness :
  let f := mk_ifstream truncated_block 0 false in
  let f1 := mk_ifstream truncated_block 4 false in
  let st := ConvertToTree.mk_tree_state [] 0 0 0 in
  tellg f < 5 /\ read_u32_le f = (5, f1) /\ 0 < 5 <= 100000000 /\
  (length (contents f1) - gpos f1 < Z.to_nat 5)%nat /\
  stream_blocks ConvertToTree.block_count (ConvertToTree.process_block 0) 5
    (0 + 1) f st []
  = mk_loop_result ReadError (mk_ifstream truncated_block 5 true) st
      [ReadErrorAtBlock 0].
Proof.
  intros f f1 st.
  assert (H1 : tellg f < 5) by (vm_compute; reflexivity).
  assert (H2 : read_u32_le f = (5, f1)) by (vm_compute; reflexivity).
  assert (H3 : 0 < 5 <= 100000000) by lia.
  assert (H4 : (length (contents f1) - gpos f1 < Z.to_nat 5)%nat)
    by (vm_compute; lia).
  split; [exact H1|]. split; [exact H2|]. split; [exact H3|].
  split; [exact H4|].
  exact (proj2 (truncated_block_stops_the_file 0 5 0 0 f f f1 5 H1 H2 H3 H4)
           st [] st [] (turns_none _ _ _)).
Defined.

(** ** The two programs side by side *)

(** A record the summary reader takes is a six-element record, and the
    full reader takes it too, with the same fields and no waveform. *)
Lemma summary_event_is_full_event (data : list byte) (pos q : nat)
    (e : ReadDelila.Event) :
  ReadDelila.parse_event data pos = (Ok e, q) ->
  exists ev,
    ConvertToTree.parse_event data pos = (Ok ev, q) /\
    summary_of ev = e /\ ConvertToTree.has_waveform ev = false.
Proof.
  intros H. destruct (summary_parse_event_count _ _ _ _ H) as [p Hh].
  rewrite (full_is_summary_on_six _ _ _ Hh) in H.
  destruct (ConvertToTree.parse_event data pos) as [[ev| |] q'] eqn:Hev;
    [|done..].
  injection H as <- <-. exists ev. split; [done|]. split; [done|].
  destruct (full_parse_event_count _ _ _ _ Hev) as (c & p' & Hh' & _ & ->).
  rewrite Hh in Hh'. by injection Hh' as <- _.
Qed.

(** The states of the two programs that correspond. *)
Lemma limits_agree (max_events : Z) (st : ConvertToTree.tree_state)
    (all : list ReadDelila.Event) :
  max_events < 2147483648 ->
  ConvertToTree.event_count st = Z.of_nat (length all) ->
  (0 < max_events -> Z.of_nat (length all) <= max_events) ->
  ConvertToTree.limit_reached max_events st
  = ReadDelila.limit_reached max_events all.
Proof.
  intros Hmax Hec Hle.
  unfold ConvertToTree.limit_reached, ReadDelila.limit_reached.
  destruct (0 <? max_events) eqn:H0; bool_hyps; [|done]. cbn [andb].
  rewrite cast_int_small by lia. by rewrite Hec.
Qed.

(** Event by event, on a batch the summary reader takes. *)
Lemma fill_events_agrees (data : list byte) (max_events : Z) :
  max_events < 2147483648 ->
  forall count pos evs p st all,
    ReadDelila.parse_events data count pos = (Ok evs, p) ->
    map summary_of (ConvertToTree.entries st) = all ->
    ConvertToTree.event_count st = Z.of_nat (length all) ->
    (0 < max_events -> Z.of_nat (length all) < max_events) ->
    exists st',
      ConvertToTree.fill_events data max_events count st pos
      = Some (st', []) /\
      map summary_of (ConvertToTree.entries st')
      = ReadDelila.add_events max_events evs all /\
      ConvertToTree.event_count st'
      = Z.of_nat (length (ReadDelila.add_events max_events evs all)) /\
      ConvertToTree.waveform_count st' = ConvertToTree.waveform_count st /\
      ConvertToTree.block_count st' = ConvertToTree.block_count st.
Proof.
  intros Hmax.
  induction count as [|count IH]; intros pos evs p st all; simpl.
  - intros [= <- _] Hs Hec _. by exists st.
  - intros H Hs Hec Hlim.
    apply bind_Ok in H as (e & q & He & H).
    apply bind_Ok in H as (evs' & q' & Hes & H). injection H as <- _.
    destruct (summary_event_is_full_event _ _ _ _ He) as (ev & -> & <- & Hw).
    rewrite Hw. cbn [ReadDelila.add_events].
    set (st1 := ConvertToTree.mk_tree_state _ _ _ _).
    assert (Hs1 : map summary_of (ConvertToTree.entries st1)
                  = all ++ [summary_of ev]).
    { subst st1. simpl. by rewrite map_app, Hs. }
    assert (Hec1 : ConvertToTree.event_count st1
                   = Z.of_nat (length (all ++ [summary_of ev]))).
    { subst st1. simpl. rewrite length_app. simpl. lia. }
    assert (Hlen : Z.of_nat (length (all ++ [summary_of ev]))
                   = Z.of_nat (length all) + 1)
      by (rewrite length_app; simpl; lia).
    rewrite (limits_agree max_events st1 (all ++ [summary_of ev]) Hmax Hec1)
      by (intros Hm; specialize (Hlim Hm); lia).
    destruct (ReadDelila.limit_reached max_events (all ++ [summary_of ev]))
      eqn:Hr.
    + exists st1. by repeat split.
    + destruct (IH q evs' q' st1 (all ++ [summary_of ev]) Hes Hs1 Hec1)
        as (st' & Hf & Hm' & Hec' & Hwc' & Hbc').
      { intros Hm. unfold ReadDelila.limit_reached in Hr.
        rewrite cast_int_small in Hr by (specialize (Hlim Hm); lia).
        apply andb_false_iff in Hr as [Hr|Hr]; bool_hyps; lia. }
      exists st'. by repeat split.
Qed.

(** Corresponding states: the same events as far as the summary goes, the
    same counts, and no waveform so far. *)
Lemma process_block_agrees (max_events : Z) (block : list byte)
    (rs : ReadDelila.reader_state) (ts : ConvertToTree.tree_state) :
  max_events < 2147483648 ->
  map summary_of (ConvertToTree.entries ts) = ReadDelila.all_events rs ->
  ConvertToTree.event_count ts
  = Z.of_nat (length (ReadDelila.all_events rs)) ->
  ConvertToTree.block_count ts = ReadDelila.block_count rs ->
  (0 < max_events ->
   Z.of_nat (length (ReadDelila.all_events rs)) < max_events) ->
  ReadDelila.process_block max_events block rs
  = Break rs [FailedToParseBlock (ReadDelila.block_count rs)]
  \/
  exists rs' ts',
    map summary_of (ConvertToTree.entries ts') = ReadDelila.all_events rs' /\
    ConvertToTree.event_count ts'
    = Z.of_nat (length (ReadDelila.all_events rs')) /\
    ConvertToTree.block_count ts' = ReadDelila.block_count rs' /\
    ConvertToTree.waveform_count ts' = ConvertToTree.waveform_count ts /\
    ((ReadDelila.process_block max_events block rs = Continue rs' [] /\
      ConvertToTree.process_block max_events block ts = Continue ts' [] /\
      (0 < max_events ->
       Z.of_nat (length (ReadDelila.all_events rs')) < max_events))
     \/
     (ReadDelila.process_block max_events block rs = Break rs' [] /\
      ConvertToTree.process_block max_events block ts = Break ts' [])).
Proof.
  intros Hmax Hs Hec Hbc Hlim.
  unfold ReadDelila.process_block, ConvertToTree.process_block.
  pose proof (parse_batch_faultless block 0%nat) as Hf.
  rewrite parse_batch_header_events in *.
  destruct (ConvertToTree.parse_batch_header block 0%nat)
    as [[[source_id n]| |] q]; [|by left|done].
  destruct (ReadDelila.parse_events block n q) as [[evs| |] p] eqn:He;
    [|by left|done].
  right.
  destruct (fill_events_agrees block max_events Hmax _ _ _ _ ts _ He Hs Hec
              Hlim) as (ts1 & -> & Hs1 & Hec1 & Hwc1 & Hbc1).
  set (all' := ReadDelila.add_events max_events evs (ReadDelila.all_events rs))
    in *.
  destruct (Z.lt_ge_cases 0 max_events) as [Hpos | Hneg].
  - destruct (add_events_limited max_events evs ltac:(lia) _ (Hlim Hpos))
      as [Hle Hlt]. fold all' in Hle, Hlt.
    rewrite (limits_agree max_events _ all' Hmax)
      by (simpl; first [exact Hec1 | intros; lia]).
    exists (ReadDelila.mk_reader_state all'
              (cast_int (ReadDelila.block_count rs + 1))),
      (ConvertToTree.mk_tree_state
         (ConvertToTree.entries ts1)
         (cast_int (ConvertToTree.block_count ts1 + 1))
         (ConvertToTree.event_count ts1) (ConvertToTree.waveform_count ts1)).
    split; [exact Hs1|]. split; [exact Hec1|].
    split; [simpl; congruence|]. split; [exact Hwc1|].
    destruct (ReadDelila.limit_reached max_events all') eqn:Hr.
    + right. by split.
    + left. split; [done|]. split; [done|]. intros _. by apply Hlt.
  - rewrite (limits_agree max_events _ all' Hmax)
      by (simpl; first [exact Hec1 | intros; lia]).
    exists (ReadDelila.mk_reader_state all'
              (cast_int (ReadDelila.block_count rs + 1))),
      (ConvertToTree.mk_tree_state
         (ConvertToTree.entries ts1)
         (cast_int (ConvertToTree.block_count ts1 + 1))
         (ConvertToTree.event_count ts1) (ConvertToTree.waveform_count ts1)).
    split; [exact Hs1|]. split; [exact Hec1|].
    split; [simpl; congruence|]. split; [exact Hwc1|].
    unfold ReadDelila.limit_reached.
    rewrite (proj2 (Z.ltb_ge 0 max_events)) by lia. cbn [andb].
    left. split; [done|]. split; [done|]. lia.
Qed.

(** Turn by turn: as long as the summary reader does not fail to parse a
    block, the two loops go the same way. *)
Lemma stream_blocks_agree (max_events data_end : Z) :
  max_events < 2147483648 ->
  forall fuel f rs ts log,
    map summary_of (ConvertToTree.entries ts) = ReadDelila.all_events rs ->
    ConvertToTree.event_count ts
    = Z.of_nat (length (ReadDelila.all_events rs)) ->
    ConvertToTree.block_count ts = ReadDelila.block_count rs ->
    (0 < max_events ->
     Z.of_nat (length (ReadDelila.all_events rs)) < max_events) ->
    let rr := stream_blocks ReadDelila.block_count
                (ReadDelila.process_block max_events) data_end fuel f rs log in
    let rt := stream_blocks ConvertToTree.block_count
                (ConvertToTree.process_block max_events) data_end fuel f ts
                log in
    (forall k, ~ In (FailedToParseBlock k) (lr_log rr)) ->
    lr_exit rt = lr_exit rr /\ lr_stream rt = lr_stream rr /\
    lr_log rt = lr_log rr /\
    map summary_of (ConvertToTree.entries (lr_acc rt))
    = ReadDelila.all_events (lr_acc rr) /\
    ConvertToTree.block_count (lr_acc rt)
    = ReadDelila.block_count (lr_acc rr) /\
    ConvertToTree.waveform_count (lr_acc rt) = ConvertToTree.waveform_count ts.
Proof.
  intros Hmax.
  induction fuel as [|fuel IH]; intros f rs ts log Hs Hec Hbc Hlim;
    cbv zeta; [done|].
  cbn [stream_blocks].
  destruct (negb (tellg f <? data_end)); [done|].
  destruct (read_u32_le f) as [len f1].
  destruct ((len =? 0) || (100000000 <? len)); [done|].
  destruct (stream_read (Z.to_nat len) f1) as [block f2].
  destruct (negb (good f2)); [by rewrite Hbc|].
  destruct (process_block_agrees max_events block rs ts Hmax Hs Hec Hbc Hlim)
    as [-> | (rs' & ts' & Hs' & Hec' & Hbc' & Hwc' &
              [(-> & -> & Hlim') | (-> & ->)])].
  - simpl. intros Hno. exfalso. apply (Hno (ReadDelila.block_count rs)).
    apply in_app_iff. right. by left.
  - intros Hno.
    destruct (IH f2 rs' ts' (log ++ []) Hs' Hec' Hbc' Hlim' Hno)
      as (? & ? & ? & ? & ? & Hw).
    repeat split; try done. by rewrite Hw.
  - by simpl.
Qed.

(** ** Header and footer *)

(** A read of bytes that are there. *)
Lemma stream_read_room (n : nat) (f : ifstream) :
  failbit f = false -> (gpos f + n <= length (contents f))%nat ->
  stream_read n f
  = (take n (drop (gpos f) (contents f)),
     mk_ifstream (contents f) (gpos f + n) false).
Proof.
  intros Hf Hn. unfold stream_read. rewrite Hf.
  rewrite length_take, length_drop.
  by rewrite (proj2 (Nat.ltb_ge _ _)) by lia.
Qed.

(** What [read_header] leaves behind when it returns [true]: either the
    length field was cut short and the stream has failed, or the stream
    stands at a position that fits a [streampos]. *)
Lemma read_header_Some (file : list byte) (hp : Z) (f1 : ifstream) :
  read_header (open_file file) = (Some hp, f1) ->
  contents f1 = file /\
  ((failbit f1 = true /\ (length file < 12)%nat) \/
   (failbit f1 = false /\ 0 <= cast_i64 hp)).
Proof.
  intros H.
  pose proof (read_header_contents (open_file file)) as Hc.
  rewrite H in Hc. split; [exact Hc|].
  unfold read_header, open_file in H.
  destruct (stream_read 8 (mk_ifstream file 0 false)) as [magic f8] eqn:H8.
  destruct (negb (bool_decide (magic = FILE_MAGIC))) eqn:Hm; [done|].
  apply negb_false_iff, bool_decide_eq_true in Hm. subst magic.
  unfold stream_read in H8. cbn [failbit gpos contents] in H8.
  rewrite drop_0 in H8.
  destruct (length (take 8 file) <? 8)%nat eqn:Hl8.
  { injection H8 as H8 _. rewrite H8 in Hl8. discriminate Hl8. }
  injection H8 as _ <-. bool_hyps. rewrite length_take in Hl8.
  unfold read_u32_le in H.
  destruct (stream_read 4 (mk_ifstream file 8 false)) as [buf f12]
    eqn:H4.
  set (len := cast_u32 _) in H.
  assert (Hlen : 0 <= len < 2 ^ 32)
    by (apply Z.mod_pos_bound; done).
  unfold stream_read in H4. cbn [failbit gpos contents] in H4.
  destruct (length (take 4 (drop 8 file)) <? 4)%nat eqn:Hl4;
    injection H4 as _ <-; bool_hyps;
    rewrite length_take, length_drop in Hl4;
    unfold seekg_cur, seekg_beg in H; cbn [failbit gpos contents] in H.
  - injection H as _ <-. left. simpl. split; [done|lia].
  - rewrite (proj2 (Z.ltb_ge _ 0)) in H by lia.
    injection H as <- <-. right. split; [done|].
    unfold tellg. cbn [failbit gpos].
    rewrite Z2Nat.id by lia.
    rewrite cast_u64_small by (pow2_eval; lia).
    rewrite cast_i64_fits by (pow2_eval; lia). lia.
Qed.

(** Eight bytes least significant first, as [read_u64_le] combines them. *)
Lemma le64_value (l : list byte) :
  length l = 8%nat ->
  Z.lor (Z.lor (Z.lor (Z.lor (Z.lor (Z.lor (Z.lor
     (buf_at l 0) (Z.shiftl (buf_at l 1) 8)) (Z.shiftl (buf_at l 2) 16))
     (Z.shiftl (buf_at l 3) 24)) (Z.shiftl (buf_at l 4) 32))
     (Z.shiftl (buf_at l 5) 40)) (Z.shiftl (buf_at l 6) 48))
     (Z.shiftl (buf_at l 7) 56)
  = le_value l /\ 0 <= le_value l < 2 ^ 64.
Proof.
  intros Hl.
  do 8 (destruct l as [|? l]; [discriminate|]).
  destruct l; [|discriminate].
  unfold buf_at. simpl lookup.
  cbn [fmap option_fmap option_map default le_value]. unfold id.
  repeat match goal with
  | |- context [u8 ?b] =>
    let c := fresh "c" in
    pose proof (u8_range b); set (c := u8 b) in *; clearbody c
  end.
  rewrite !Z.shiftl_mul_pow2 by lia.
  rewrite (Z.lor_comm c), (lor_mul_add c0 c 8) by (pow2_eval; lia).
  rewrite (Z.lor_comm _ (c1 * 2 ^ 16)),
    (lor_mul_add c1 _ 16) by (pow2_eval; lia).
  rewrite (Z.lor_comm _ (c2 * 2 ^ 24)),
    (lor_mul_add c2 _ 24) by (pow2_eval; lia).
  rewrite (Z.lor_comm _ (c3 * 2 ^ 32)),
    (lor_mul_add c3 _ 32) by (pow2_eval; lia).
  rewrite (Z.lor_comm _ (c4 * 2 ^ 40)),
    (lor_mul_add c4 _ 40) by (pow2_eval; lia).
  rewrite (Z.lor_comm _ (c5 * 2 ^ 48)),
    (lor_mul_add c5 _ 48) by (pow2_eval; lia).
  rewrite (Z.lor_comm _ (c6 * 2 ^ 56)),
    (lor_mul_add c6 _ 56) by (pow2_eval; lia).
  pow2_eval. lia.
Qed.

Lemma read_u64_le_exact (file pre l rest : list byte) :
  length l = 8%nat -> file = pre ++ l ++ rest ->
  read_u64_le (mk_ifstream file (length pre) false)
  = (le_value l, mk_ifstream file (length (pre ++ l)) false).
Proof.
  intros Hl Hfile. unfold read_u64_le.
  rewrite <- Hl at 1.
  rewrite (stream_read_exact file pre l rest Hfile).
  rewrite (proj1 (le64_value l Hl)). by rewrite length_app.
Qed.

(** X12.  [read_footer] on a file that ends with a footer as [struct
    Footer] lays it out (the magic, six fields of eight bytes and the
    completion byte, then seven reserved bytes): it finds the footer 64
    bytes before the end of the file, wherever the stream stood, and hands
    back each numeric field as the little-endian value of its eight bytes
    and the completion byte as it is; the stream is left in a good state
    behind the completion byte, and nothing is reported. *)
Theorem footer_fields_are_read_back (body c t b fi la e reserved : list byte)
    (w : byte) (f : ifstream) :
  let file := body ++ FOOTER_MAGIC ++ c ++ t ++ b ++ fi ++ la ++ e
                   ++ [w] ++ reserved in
  length c = 8%nat -> length t = 8%nat -> length b = 8%nat ->
  length fi = 8%nat -> length la = 8%nat -> length e = 8%nat ->
  length reserved = 7%nat ->
  contents f = file -> failbit f = false ->
  ReadDelila.read_footer f (length file)
  = ((Some (ReadDelila.mk_Footer
              (le_value c) (le_value t)
              (le_value b) (le_value fi)
              (le_value la) (le_value e) (u8 w)), []),
     mk_ifstream file (length body + 57) false).
Proof.
  intros file Hc Ht Hb Hfi Hla He Hres Hf Hgood.
  assert (Hlen : length file = (length body + 64)%nat).
  { unfold file. rewrite !length_app. simpl. lia. }
  unfold ReadDelila.read_footer. unfold FOOTER_SIZE.
  rewrite (proj2 (Nat.ltb_ge _ _)) by lia.
  unfold seekg_beg. rewrite Hgood, Hf.
  rewrite (proj2 (Z.ltb_ge _ 0)) by lia.
  rewrite Nat2Z.id.
  replace (length file - 64)%nat with (length body) by lia.
  pose proof (stream_read_exact file body FOOTER_MAGIC _ eq_refl) as Hm.
  change (length FOOTER_MAGIC) with 8%nat in Hm. rewrite Hm.
  rewrite bool_decide_eq_true_2 by done. cbn [negb].
  unfold read_f64_le.
  assert (H8 : (length body + 8)%nat = length (body ++ FOOTER_MAGIC))
    by (by rewrite length_app).
  rewrite H8.
  rewrite (read_u64_le_exact file _ c (t ++ b ++ fi ++ la ++ e ++ [w]
             ++ reserved) Hc)
    by (unfold file; by rewrite <- !app_assoc).
  rewrite (read_u64_le_exact file _ t (b ++ fi ++ la ++ e ++ [w]
             ++ reserved) Ht)
    by (unfold file; by rewrite <- !app_assoc).
  rewrite (read_u64_le_exact file _ b (fi ++ la ++ e ++ [w] ++ reserved) Hb)
    by (unfold file; by rewrite <- !app_assoc).
  rewrite (read_u64_le_exact file _ fi (la ++ e ++ [w] ++ reserved) Hfi)
    by (unfold file; by rewrite <- !app_assoc).
  rewrite (read_u64_le_exact file _ la (e ++ [w] ++ reserved) Hla)
    by (unfold file; by rewrite <- !app_assoc).
  rewrite (read_u64_le_exact file _ e ([w] ++ reserved) He)
    by (unfold file; by rewrite <- !app_assoc).
  pose proof (stream_read_exact file
                ((((((body ++ FOOTER_MAGIC) ++ c) ++ t) ++ b) ++ fi) ++ la ++ e)
                [w] reserved) as Hw.
  rewrite <- !app_assoc in Hw. specialize (Hw eq_refl).
  rewrite <- !app_assoc. change (length [w]) with 1%nat in Hw. rewrite Hw.
  unfold buf_at. simpl lookup.
  cbn [fmap option_fmap option_map default]. unfold id.
  f_equal. f_equal. rewrite !length_app. simpl. lia.
Qed.

Lemma footer_fields_are_read_back_witness :
  ReadDelila.read_footer (open_file sample_footer) 64
  = ((Some (ReadDelila.mk_Footer 0 3 300 0 0 0 1), []),
     mk_ifstream sample_footer 57 false).
Proof.
  exact (footer_fields_are_read_back [] (replicate 8 x00)
           [x03; x00; x00; x00; x00; x00; x00; x00]
           [x2c; x01; x00; x00; x00; x00; x00; x00]
           (replicate 8 x00) (replicate 8 x00) (replicate 8 x00)
           (replicate 7 x00) x01 (open_file sample_footer)
           eq_refl eq_refl eq_refl eq_refl eq_refl eq_refl eq_refl
           eq_refl eq_refl).
Defined.

(** [read_footer] leaves a good stream good: the trailer it reads lies
    inside the file. *)
Lemma stream_read_room_good (n : nat) (f : ifstream) :
  failbit f = false -> (gpos f + n <= length (contents f))%nat ->
  failbit (snd (stream_read n f)) = false /\
  gpos (snd (stream_read n f)) = (gpos f + n)%nat /\
  contents (snd (stream_read n f)) = contents f.
Proof. intros Hf Hn. by rewrite stream_read_room. Qed.

Lemma read_footer_good (f : ifstream) (file_size : nat) :
  failbit f = false -> file_size = length (contents f) ->
  failbit (snd (ReadDelila.read_footer f file_size)) = false.
Proof.
  intros Hf Hs. unfold ReadDelila.read_footer, FOOTER_SIZE.
  destruct (file_size <? 64)%nat eqn:H64; bool_hyps; [done|].
  unfold seekg_beg. rewrite Hf.
  rewrite (proj2 (Z.ltb_ge _ 0)) by lia. rewrite Nat2Z.id.
  set (f0 := mk_ifstream (contents f) (file_size - 64) false).
  destruct (stream_read_room_good 8 f0) as (Hb1 & Hg1 & Hc1);
    [done | simpl; lia |].
  destruct (stream_read 8 f0) as [magic f1]. simpl in Hb1, Hg1, Hc1.
  destruct (negb _); [done|].
  unfold read_f64_le.
  assert (Hstep : forall g,
    failbit g = false -> contents g = contents f ->
    (gpos g + 8 <= length (contents f))%nat ->
    failbit (snd (read_u64_le g)) = false /\
    contents (snd (read_u64_le g)) = contents f /\
    gpos (snd (read_u64_le g)) = (gpos g + 8)%nat).
  { intros g Hg Hcg Hroom. rewrite read_u64_le_stream.
    destruct (stream_read_room_good 8 g) as (? & ? & ?);
      [done | rewrite Hcg; lia |]. repeat split; congruence. }
  destruct (Hstep f1) as (Hb2 & Hc2 & Hg2); [done | done | simpl in *; lia |].
  destruct (read_u64_le f1) as [v1 f2]. simpl in Hb2, Hc2, Hg2.
  destruct (Hstep f2) as (Hb3 & Hc3 & Hg3); [done | done | simpl in *; lia |].
  destruct (read_u64_le f2) as [v2 f3]. simpl in Hb3, Hc3, Hg3.
  destruct (Hstep f3) as (Hb4 & Hc4 & Hg4); [done | done | simpl in *; lia |].
  destruct (read_u64_le f3) as [v3 f4]. simpl in Hb4, Hc4, Hg4.
  destruct (Hstep f4) as (Hb5 & Hc5 & Hg5); [done | done | simpl in *; lia |].
  destruct (read_u64_le f4) as [v4 f5]. simpl in Hb5, Hc5, Hg5.
  destruct (Hstep f5) as (Hb6 & Hc6 & Hg6); [done | done | simpl in *; lia |].
  destruct (read_u64_le f5) as [v5 f6]. simpl in Hb6, Hc6, Hg6.
  destruct (Hstep f6) as (Hb7 & Hc7 & Hg7); [done | done | simpl in *; lia |].
  destruct (read_u64_le f6) as [v6 f7]. simpl in Hb7, Hc7, Hg7.
  destruct (stream_read_room_good 1 f7) as (Hb8 & _ & _);
    [done | rewrite Hc7; simpl in *; lia |].
  by destruct (stream_read 1 f7) as [c f8].
Qed.

(** X11.  On a file in which [read_delila] meets no block it fails to
    parse, [convert_to_tree] comes to the same result: it leaves its loop
    the same way and with the same warnings, has counted the same blocks,
    and its tree holds, entry by entry and in the same order, the events
    that [read_delila] collected, none of them with a waveform.  This holds
    with an event limit as well as without ([max_events] is an [int]). *)
Theorem readers_agree_without_waveforms (file : list byte) (max_events : Z)
    (rr : ReadDelila.read_result) :
  max_events < 2147483648 ->
  ReadDelila.read_delila file max_events = Some rr ->
  (forall k,
     ~ In (FailedToParseBlock k) (lr_log (ReadDelila.rr_loop rr))) ->
  exists r,
    ConvertToTree.convert_to_tree file max_events = Some r /\
    map summary_of (ConvertToTree.entries (lr_acc r))
    = ReadDelila.all_events (lr_acc (ReadDelila.rr_loop rr)) /\
    ConvertToTree.block_count (lr_acc r)
    = ReadDelila.block_count (lr_acc (ReadDelila.rr_loop rr)) /\
    ConvertToTree.waveform_count (lr_acc r) = 0 /\
    lr_exit r = lr_exit (ReadDelila.rr_loop rr) /\
    lr_log r = lr_log (ReadDelila.rr_loop rr).
Proof.
  intros Hmax. unfold ReadDelila.read_delila, ConvertToTree.convert_to_tree.
  destruct (read_header (open_file file)) as [[hp|] f1] eqn:Hh; [|done].
  destruct (read_header_Some _ _ _ Hh) as [Hc [[Hf Hshort] | [Hf Hp]]].
  - destruct (ReadDelila.read_footer f1 (length file)) as [[ft fl] f2].
    intros Hr Hno. apply (inj Some) in Hr as <-. eexists. split; [done|].
    cbn [ReadDelila.rr_loop].
    rewrite !stream_blocks_short_file by (unfold FOOTER_SIZE; lia).
    by simpl.
  - pose proof (read_footer_good f1 (length file) Hf ltac:(by rewrite Hc))
      as Hg.
    pose proof (read_footer_contents f1 (length file)) as Hc'.
    destruct (ReadDelila.read_footer f1 (length file)) as [[ft fl] f2].
    simpl in Hg, Hc'.
    intros Hr Hno. apply (inj Some) in Hr as <-. eexists. split; [done|].
    cbn [ReadDelila.rr_loop] in *.
    assert (Hsame : seekg_beg (cast_i64 hp) f2 = seekg_beg (cast_i64 hp) f1).
    { unfold seekg_beg. rewrite Hf, Hg.
      rewrite (proj2 (Z.ltb_ge _ 0)) by lia. by rewrite Hc'. }
    rewrite Hsame in *.
    destruct (stream_blocks_agree max_events
                (cast_i64 (Z.of_nat (length file) - Z.of_nat FOOTER_SIZE))
                Hmax (S (length file)) (seekg_beg (cast_i64 hp) f1)
                (ReadDelila.mk_reader_state [] 0)
                (ConvertToTree.mk_tree_state [] 0 0 0) []
                eq_refl eq_refl eq_refl ltac:(simpl; lia) Hno)
      as (He & _ & Hl & Hs & Hb & Hw).
    by repeat split.
Qed.

Lemma readers_agree_without_waveforms_witness :
  exists rr,
    ReadDelila.read_delila sample_file 0 = Some rr /\
    exists r,
      ConvertToTree.convert_to_tree sample_file 0 = Some r /\
      map summary_of (ConvertToTree.entries (lr_acc r))
      = ReadDelila.all_events (lr_acc (ReadDelila.rr_loop rr)) /\
      ConvertToTree.block_count (lr_acc r)
      = ReadDelila.block_count (lr_acc (ReadDelila.rr_loop rr)) /\
      ConvertToTree.waveform_count (lr_acc r) = 0 /\
      lr_exit r = lr_exit (ReadDelila.rr_loop rr) /\
      lr_log r = lr_log (ReadDelila.rr_loop rr).
Proof.
  eexists. split; [vm_compute; reflexivity|].
  apply (readers_agree_without_waveforms sample_file 0 _ ltac:(lia)).
  - vm_compute; reflexivity.
  - vm_compute. intros k H. exact H.
Defined.

(** ** The dump reader *)

(** The loop of [read_dump] over records that are all there, up to a tail
    too short to be a record. *)
Lemma read_events_records (file : list byte) (n_events : option Z) :
  forall (recs : list (list byte)) (es : list ReadDump.entry)
         (pre tail : list byte) (fuel : nat) (tree : list ReadDump.entry)
         (count : Z),
    Forall2 (fun r e => ReadDump.fill_record r = Some e) recs es ->
    Forall (fun r => length r = 22%nat) recs ->
    (length tail < 22)%nat ->
    file = pre ++ concat recs ++ tail ->
    (length recs < fuel)%nat ->
    0 <= count -> count + Z.of_nat (length recs) < 2 ^ 64 ->
    ReadDump.read_events fuel (mk_ifstream file (length pre) false)
      n_events tree count
    = ReadDump.Converted n_events (tree ++ es)
        (count + Z.of_nat (length recs)).
Proof.
  intros recs es pre tail fuel tree count Hes. revert pre fuel tree count.
  induction Hes as [|r e recs es Hr Hrest IH];
    intros pre fuel tree count Hlen Htail Hfile Hfuel Hc0 Hc.
  - destruct fuel as [|fuel]; [simpl in Hfuel; lia|].
    cbn [ReadDump.read_events]. unfold stream_read.
    cbn [failbit gpos contents].
    simpl in Hfile. rewrite Hfile, drop_app_length.
    rewrite take_ge by lia.
    rewrite (proj2 (Nat.ltb_lt _ _) Htail). cbn [good failbit negb].
    rewrite app_nil_r. simpl. by rewrite Z.add_0_r.
  - destruct fuel as [|fuel]; [simpl in Hfuel; lia|].
    inversion Hlen as [|r' recs' Hr22 Hlen']; subst r' recs'.
    cbn [concat] in Hfile. rewrite <- app_assoc in Hfile.
    cbn [ReadDump.read_events].
    pose proof (stream_read_exact file pre r _ Hfile) as Hrd.
    rewrite Hr22 in Hrd. rewrite Hrd. cbn [good failbit negb]. rewrite Hr.
    assert (Hfile' : file = (pre ++ r) ++ concat recs ++ tail)
      by (by rewrite <- app_assoc).
    simpl length in Hfuel, Hc.
    assert (Hcast : cast_u64 (count + 1) = count + 1)
      by (apply cast_u64_small; lia).
    assert (Hf' : (length recs < fuel)%nat) by lia.
    assert (Hc0' : 0 <= count + 1) by lia.
    assert (Hc' : count + 1 + Z.of_nat (length recs) < 2 ^ 64) by lia.
    specialize (IH (pre ++ r) fuel (tree ++ [e]) (count + 1) Hlen' Htail
                  Hfile' Hf' Hc0' Hc').
    rewrite length_app, Hr22 in IH. rewrite Hcast, IH.
    rewrite <- app_assoc. simpl length. f_equal. lia.
Qed.

(** X13.  [read_dump] on a dump made of the magic, the eight bytes of the
    event count, any number of 22-byte records and a tail shorter than a
    record: every record becomes one entry of the tree, in the order of
    the file (provided each time stamp converts to an integer), however
    many events the header announces; the tail is dropped without a word,
    and the count printed at the end is the number of entries. *)
Theorem dump_records_become_entries (hdr tail : list byte)
    (recs : list (list byte)) (tree : list ReadDump.entry) :
  length hdr = 8%nat ->
  Forall (fun r => length r = 22%nat) recs ->
  (length tail < 22)%nat ->
  Forall2 (fun r e => ReadDump.fill_record r = Some e) recs tree ->
  Z.of_nat (length recs) < 2 ^ 64 ->
  ReadDump.read_dump (ReadDump.DUMP_MAGIC ++ hdr ++ concat recs ++ tail)
  = ReadDump.Converted (Some (le_value hdr)) tree
      (Z.of_nat (length tree)).
Proof.
  intros Hh Hlen Htail Hes Hn.
  set (file := ReadDump.DUMP_MAGIC ++ hdr ++ concat recs ++ tail).
  unfold ReadDump.read_dump, open_file.
  pose proof (stream_read_exact file [] ReadDump.DUMP_MAGIC _ eq_refl) as Hm.
  change (length ReadDump.DUMP_MAGIC) with 8%nat in Hm.
  change (length (@nil byte)) with 0%nat in Hm. rewrite Hm.
  rewrite bool_decide_eq_true_2 by done. cbn [negb].
  pose proof (stream_read_exact file ReadDump.DUMP_MAGIC hdr _ eq_refl)
    as Hhd.
  rewrite Hh in Hhd. change (length ReadDump.DUMP_MAGIC) with 8%nat in Hhd.
  change (0 + 8)%nat with 8%nat. rewrite Hhd. cbn [good failbit negb].
  assert (Hfile : file = (ReadDump.DUMP_MAGIC ++ hdr) ++ concat recs ++ tail)
    by (unfold file; by rewrite <- app_assoc).
  assert (Hrecs : (length recs <= length file)%nat).
  { unfold file. rewrite !length_app.
    assert (length recs <= length (concat recs))%nat; [|lia].
    clear -Hlen. induction Hlen as [|r recs Hr _ IH]; [done|].
    cbn [concat length]. rewrite length_app. lia. }
  assert (Hfuel : (length recs < S (length file))%nat) by lia.
  assert (Hc : 0 + Z.of_nat (length recs) < 2 ^ 64) by lia.
  pose proof (read_events_records file (Some (le_value hdr)) recs
                tree (ReadDump.DUMP_MAGIC ++ hdr) tail (S (length file)) [] 0
                Hes Hlen Htail Hfile Hfuel (Z.le_refl 0) Hc) as Hev.
  rewrite length_app, Hh in Hev.
  change (length ReadDump.DUMP_MAGIC) with 8%nat in Hev.
  rewrite Hev. simpl. apply Forall2_length in Hes. by rewrite Hes.
Qed.

Lemma dump_records_become_entries_witness :
  ReadDump.read_dump sample_dump
  = ReadDump.Converted (Some 2)
      [ReadDump.mk_entry 1 2 1234 4653144203864309760 100 50 0] 1.
Proof.
  exact (dump_records_become_entries [x02; x00; x00; x00; x00; x00; x00; x00]
           [x01; x02] [sample_record]
           [ReadDump.mk_entry 1 2 1234 4653144203864309760 100 50 0]
           eq_refl ltac:(by repeat constructor) ltac:(simpl; lia)
           ltac:(by repeat constructor) ltac:(done)).
Defined.

(** The loop of [read_dump] on any stream: it ends, and it fills one entry
    for each 22 bytes that were left. *)
Lemma read_events_count :
  forall (fuel : nat) (f : ifstream) (n_events : option Z)
         (tree : list ReadDump.entry) (count : Z),
    let k := if failbit f then 0%nat
             else ((length (contents f) - gpos f) / 22)%nat in
    (k < fuel)%nat -> 0 <= count -> count + Z.of_nat k < 2 ^ 64 ->
    ReadDump.read_events fuel f n_events tree count <> ReadDump.OutOfFuel /\
    ReadDump.read_events fuel f n_events tree count <> ReadDump.BadMagic /\
    forall n' tree' count',
      ReadDump.read_events fuel f n_events tree count
      = ReadDump.Converted n' tree' count' ->
      length tree' = (length tree + k)%nat /\
      count' = count + Z.of_nat k.
Proof.
  induction fuel as [|fuel IH]; intros f n_events tree count k Hk Hc0 Hc;
    [lia|].
  cbn [ReadDump.read_events]. unfold stream_read.
  destruct (failbit f) eqn:Hf.
  { unfold good. rewrite Hf. cbn [negb]. subst k.
    split; [done|]. split; [done|].
    intros n' tree' count' [= _ <- <-]. split; lia. }
  set (rest := drop (gpos f) (contents f)).
  assert (Hrest : length rest = (length (contents f) - gpos f)%nat)
    by apply length_drop.
  destruct (length (take 22 rest) <? 22)%nat eqn:Hshort; bool_hyps;
    rewrite length_take in Hshort; unfold good; cbn [failbit negb].
  - assert (Hk0 : k = 0%nat).
    { subst k. apply Nat.div_small. lia. }
    rewrite Hk0. split; [done|]. split; [done|].
    intros n' tree' count' [= _ <- <-]. split; lia.
  - destruct (ReadDump.fill_record (take 22 rest)) as [e|]; [|done].
    assert (Hk' : k = S ((length (contents f) - (gpos f + 22)) / 22)).
    { subst k.
      replace (length (contents f) - gpos f)%nat
        with (length (contents f) - (gpos f + 22) + 1 * 22)%nat by lia.
      rewrite Nat.div_add by lia. lia. }
    assert (Hcast : cast_u64 (count + 1) = count + 1)
      by (apply cast_u64_small; lia).
    rewrite Hcast.
    destruct (IH (mk_ifstream (contents f) (gpos f + 22) false) n_events
                (tree ++ [e]) (count + 1))
      as (Hfuel & Hmagic & Hconv);
      [cbn [failbit contents gpos]; lia | lia
      | cbn [failbit contents gpos]; lia |].
    split; [exact Hfuel|]. split; [exact Hmagic|].
    intros n' tree' count' Hr.
    destruct (Hconv n' tree' count' Hr) as [Hl Hcnt].
    cbn [failbit contents gpos] in Hl, Hcnt.
    rewrite length_app in Hl. cbn [length] in Hl.
    split; lia.
Qed.

(** X14.  [read_dump] on any file: it refuses the file right away exactly
    when the first eight bytes are not "DLDUMP01"; otherwise its loop comes
    to an end, and whenever the conversion runs through, the tree has one
    entry for every 22 bytes after the 16-byte header, an incomplete
    record at the end not counted, and the count printed is the number of
    entries.  (A file shorter than 16 bytes gives an empty tree.) *)
Theorem dump_entry_count (file : list byte) :
  Z.of_nat (length file) < 2 ^ 64 ->
  (ReadDump.read_dump file = ReadDump.BadMagic
   <-> take 8 file <> ReadDump.DUMP_MAGIC) /\
  ReadDump.read_dump file <> ReadDump.OutOfFuel /\
  forall n_events tree count,
    ReadDump.read_dump file = ReadDump.Converted n_events tree count ->
    length tree = ((length file - 16) / 22)%nat /\
    count = Z.of_nat (length tree).
Proof.
  intros Hsize. unfold ReadDump.read_dump, open_file.
  assert (Hdiv : forall a, (a / 22 <= a)%nat).
  { intros a. apply Nat.Div0.div_le_upper_bound. lia. }
  assert (Hm : stream_read 8 (mk_ifstream file 0 false)
               = (take 8 file,
                  snd (stream_read 8 (mk_ifstream file 0 false)))).
  { unfold stream_read. cbn [failbit gpos contents]. rewrite drop_0.
    by destruct (_ <? _)%nat. }
  rewrite Hm.
  destruct (bool_decide (take 8 file = ReadDump.DUMP_MAGIC)) eqn:Hmagic;
    cbn [negb].
  2: { apply bool_decide_eq_false in Hmagic. by repeat split. }
  apply bool_decide_eq_true in Hmagic.
  assert (H8 : (8 <= length file)%nat).
  { apply (f_equal length) in Hmagic. rewrite length_take in Hmagic.
    change (length ReadDump.DUMP_MAGIC) with 8%nat in Hmagic. lia. }
  rewrite (stream_read_room 8 (mk_ifstream file 0 false)) by (simpl; lia).
  cbn [snd contents gpos].
  destruct (stream_read 8 (mk_ifstream file (0 + 8) false)) as [buf f16]
    eqn:H16.
  set (n := if good f16 then _ else _).
  assert (Hk : (if failbit f16 then 0%nat
                else ((length (contents f16) - gpos f16) / 22)%nat)
               = ((length file - 16) / 22)%nat).
  { unfold stream_read in H16. cbn [failbit gpos contents] in H16.
    destruct (_ <? 8)%nat eqn:Hs; injection H16 as _ <-; bool_hyps;
      rewrite length_take, length_drop in Hs; cbn [failbit gpos contents].
    - symmetry. apply Nat.div_small. lia.
    - first [done | do 2 f_equal; lia]. }
  pose proof (Hdiv (length file - 16)%nat) as Hle.
  destruct (read_events_count (S (length file)) f16 n [] 0)
    as (Hfuel & Hbad & Hconv); [rewrite Hk; lia | lia | rewrite Hk; lia |].
  split; [split; [intros Hb; by apply Hbad in Hb | done]|].
  split; [exact Hfuel|].
  intros n_events tree count Hr.
  destruct (Hconv _ _ _ Hr) as [Hl Hc]. rewrite Hk in Hl, Hc.
  cbn [length Nat.add] in Hl. split; [exact Hl|]. rewrite Hl. lia.
Qed.

Lemma dump_entry_count_witness :
  Z.of_nat (length sample_dump) < 2 ^ 64 /\
  ((length sample_dump - 16) / 22 = 1)%nat /\
  forall n_events tree count,
    ReadDump.read_dump sample_dump
    = ReadDump.Converted n_events tree count ->
    length tree = ((length sample_dump - 16) / 22)%nat /\
    count = Z.of_nat (length tree).
Proof.
  assert (Hs : Z.of_nat (length sample_dump) < 2 ^ 64) by done.
  split; [exact Hs|]. split; [reflexivity|].
  exact (proj2 (proj2 (dump_entry_count sample_dump Hs))).
Defined.

(** ** The probes of the entries *)








(** ** Bytes behind what was decoded *)

Lemma byte_at_app (data junk : list byte) (i : nat) :
  (i < size data)%nat -> byte_at (data ++ junk) i = byte_at data i.
Proof. intros H. unfold byte_at. by rewrite lookup_app_l. Qed.

Lemma be16_app (data junk : list byte) (p : nat) :
  (p + 2 <= size data)%nat -> be16 (data ++ junk) p = be16 data p.
Proof. intros H. unfold be16. by rewrite !byte_at_app by lia. Qed.

Lemma be32_app (data junk : list byte) (p : nat) :
  (p + 4 <= size data)%nat -> be32 (data ++ junk) p = be32 data p.
Proof. intros H. unfold be32. by rewrite !byte_at_app by lia. Qed.

Lemma be64_app (data junk : list byte) (p : nat) :
  (p + 8 <= size data)%nat -> be64 (data ++ junk) p = be64 data p.
Proof. intros H. unfold be64. by rewrite !byte_at_app by lia. Qed.

Lemma size_app (data junk : list byte) :
  size (data ++ junk) = (size data + length junk)%nat.
Proof. unfold size. apply length_app. Qed.

(** Enter a primitive that returned [true] on [data]: there was a tag, and
    it is the same tag with bytes appended. *)
Ltac enter_both H data junk pos :=
  let Hs := fresh "Hs" in
  let Hb := fresh "Hb" in
  destruct (size data <=? pos)%nat eqn:Hs; [discriminate H|];
  apply Nat.leb_gt in Hs;
  rewrite (leb_false_of_lt (size (data ++ junk)) pos)
    by (rewrite size_app; lia);
  rewrite (byte_at_app data junk pos Hs);
  destruct (byte_at data pos) as [?b|] eqn:Hb; [|discriminate H].

(** Settle the tests of one branch, in [data] and with bytes appended. *)
Ltac branch H lem :=
  match type of H with
  | (if ?t && (?a <=? size ?data)%nat then _ else _) = _ =>
    match goal with
    | |- context [size (data ++ ?junk)] =>
      let Ht := fresh "Ht" in
      let Hr := fresh "Hr" in
      destruct t eqn:Ht; cbn [andb] in H |- *;
      [destruct (a <=? size data)%nat eqn:Hr;
       [apply Nat.leb_le in Hr;
        rewrite (leb_true_of_le a (size (data ++ junk)))
          by (rewrite size_app; lia);
        try rewrite lem by lia; exact H
       |apply Z.eqb_eq in Ht; subst;
        cbn [Z.eqb Pos.eqb Z.leb Z.compare Pos.compare Pos.compare_cont
             Z.land Pos.land andb] in H; try discriminate H]
      |]
    end
  end.

Lemma read_array_header_app (data junk : list byte) (pos q : nat) (v : nat) :
  read_array_header data pos = (Ok v, q) ->
  read_array_header (data ++ junk) pos = (Ok v, q).
Proof.
  unfold read_array_header. intros H. enter_both H data junk pos.
  cbv zeta in *.
  destruct (Z.land b 240 =? 144); [exact H|]. cbv iota in H |- *.
  branch H be16_app. branch H be32_app. discriminate H.
Qed.

Lemma read_uint_app (data junk : list byte) (pos q : nat) (v : Z) :
  read_uint data pos = (Ok v, q) ->
  read_uint (data ++ junk) pos = (Ok v, q).
Proof.
  unfold read_uint. intros H. enter_both H data junk pos.
  cbv zeta in *.
  destruct (b <=? 127); [exact H|]. cbv iota in H |- *.
  branch H byte_at_app. branch H be16_app. branch H be32_app.
  branch H be64_app. discriminate H.
Qed.

Lemma read_float64_app (data junk : list byte) (pos q : nat) (v : Z) :
  read_float64 data pos = (Ok v, q) ->
  read_float64 (data ++ junk) pos = (Ok v, q).
Proof.
  unfold read_float64. intros H. enter_both H data junk pos.
  cbv zeta in *.
  branch H be64_app. discriminate H.
Qed.

Lemma bin_header_app (data junk : list byte) (pos q : nat) (v : nat) :
  ConvertToTree.bin_header data pos = (Ok v, q) ->
  ConvertToTree.bin_header (data ++ junk) pos = (Ok v, q).
Proof.
  unfold ConvertToTree.bin_header. intros H. enter_both H data junk pos.
  cbv zeta in *.
  branch H byte_at_app. branch H be16_app. branch H be32_app.
  discriminate H.
Qed.

Lemma read_int_app (data junk : list byte) (pos q : nat) (v : Z) :
  ConvertToTree.read_int data pos = (Ok v, q) ->
  ConvertToTree.read_int (data ++ junk) pos = (Ok v, q).
Proof.
  unfold ConvertToTree.read_int. intros H. enter_both H data junk pos.
  assert (Hu : forall u p, read_uint data pos = (Ok u, p) ->
                 b <= 127 \/ 204 <= b <= 207).
  { intros u p Hu. apply read_uint_Ok in Hu as (b' & Hb' & Hf).
    rewrite Hb in Hb'. injection Hb' as <-.
    destruct Hf as [(? & _) | (? & _)]; lia. }
  destruct (b <=? 127) eqn:H7; [exact H|]. cbv iota in H |- *.
  destruct (224 <=? b) eqn:He; [exact H|]. cbv iota in H |- *.
  bool_hyps.
  assert (Hrest : forall c : bool,
    (if c then (Fail, pos) else
     match read_uint data pos with
     | (Ok uval, pos') => (Ok (cast_i64 uval), pos')
     | (Fail, pos') => (Fail, pos')
     | (Fault, pos') => (Fault, pos')
     end) = (Ok v, q) ->
    exists u, read_uint data pos = (Ok u, q) /\ v = cast_i64 u).
  { intros c Hc. destruct c; [done|].
    destruct (read_uint data pos) as [[u| |] p']; [|done..].
    injection Hc as <- <-. by exists u. }
  destruct ((b =? 208) && (pos + 2 <=? size data)%nat) eqn:H0.
  { bool_hyps. rewrite (proj2 (Z.eqb_eq b 208)) by done. cbn [andb].
    rewrite (leb_true_of_le _ (size (data ++ junk)))
      by (rewrite size_app; lia).
    by rewrite byte_at_app by lia. }
  destruct ((b =? 209) && (pos + 3 <=? size data)%nat) eqn:H1.
  { bool_hyps. subst b. cbn [Z.eqb Pos.eqb andb].
    rewrite (leb_true_of_le _ (size (data ++ junk)))
      by (rewrite size_app; lia).
    by rewrite be16_app by lia. }
  destruct ((b =? 210) && (pos + 5 <=? size data)%nat) eqn:H2.
  { bool_hyps. subst b. cbn [Z.eqb Pos.eqb andb].
    rewrite (leb_true_of_le _ (size (data ++ junk)))
      by (rewrite size_app; lia).
    by rewrite be32_app by lia. }
  destruct (Hrest false H) as (u & Hru & ->).
  destruct (Hu _ _ Hru) as [? | Hb'']; [lia|].
  rewrite (proj2 (Z.eqb_neq b 208)), (proj2 (Z.eqb_neq b 209)),
    (proj2 (Z.eqb_neq b 210)) by lia.
  cbn [andb]. by rewrite (read_uint_app _ _ _ _ _ Hru).
Qed.

(** The element loop, with a reader that decodes no less. *)
Lemma read_elems_app (rd rd' : parser Z) conv max_size :
  (forall pos v q, rd pos = (Ok v, q) -> rd' pos = (Ok v, q)) ->
  forall count i pos sts p,
    ConvertToTree.read_elems rd conv max_size count i pos = (Ok tt, sts, p) ->
    ConvertToTree.read_elems rd' conv max_size count i pos = (Ok tt, sts, p).
Proof.
  intros Hrd. induction count as [|count IH]; intros i pos sts p; simpl;
    [done|].
  destruct (rd pos) as [[v| |] q] eqn:Hv; [|done..].
  rewrite (Hrd _ _ _ Hv).
  destruct (ConvertToTree.read_elems rd conv max_size count (S i) q)
    as [[res sts'] p'] eqn:He.
  intros [= -> <- <-]. by rewrite (IH _ _ _ _ He).
Qed.

Lemma read_i16_array_app (data junk : list byte) (max_size n : Z)
    (pos : nat) :
  ConvertToTree.ar_res (ConvertToTree.read_i16_array data max_size n pos)
  = Ok tt ->
  ConvertToTree.read_i16_array (data ++ junk) max_size n pos
  = ConvertToTree.read_i16_array data max_size n pos.
Proof.
  unfold ConvertToTree.read_i16_array.
  destruct (read_array_header data pos) as [[sz| |] p0] eqn:Hh; [|done..].
  rewrite (read_array_header_app _ junk _ _ _ Hh).
  destruct (ConvertToTree.read_elems (ConvertToTree.read_int data) _ _ _ _ _)
    as [[res sts] p] eqn:He.
  simpl. intros ->.
  by rewrite (read_elems_app _ (ConvertToTree.read_int (data ++ junk)) _ _
                (fun pos v q => read_int_app data junk pos q v) _ _ _ _ _ He).
Qed.

Lemma read_bin_app (data junk : list byte) (max_size n : Z) (pos : nat) :
  ConvertToTree.ar_res (ConvertToTree.read_bin data max_size n pos) = Ok tt ->
  ConvertToTree.read_bin (data ++ junk) max_size n pos
  = ConvertToTree.read_bin data max_size n pos.
Proof.
  unfold ConvertToTree.read_bin.
  destruct (ConvertToTree.bin_header data pos) as [[sz| |] p0] eqn:Hh;
    [|done..].
  rewrite (bin_header_app _ junk _ _ _ Hh). cbv zeta.
  destruct (size data <? p0 + sz)%nat eqn:Hfit; [done|]. bool_hyps.
  rewrite (proj2 (Nat.ltb_ge (size (data ++ junk)) _))
    by (rewrite size_app; lia).
  destruct (byte_at data p0) as [b|] eqn:Hb; [|done].
  assert (Hp0 : (p0 < size data)%nat).
  { destruct (decide (p0 < size data)%nat) as [|Hge]; [done|].
    rewrite byte_at_None in Hb by lia. done. }
  rewrite (byte_at_app data junk p0 Hp0), Hb.
  unfold ConvertToTree.memcpy_faults, ConvertToTree.memcpy_stores,
    ConvertToTree.memcpy_source.
  destruct (length (drop p0 data) <? _)%nat eqn:Hf; [done|]. bool_hyps.
  intros _.
  rewrite drop_app_le by (unfold size in *; lia).
  rewrite (proj2 (Nat.ltb_ge (length (drop p0 data ++ junk)) _))
    by (rewrite length_app; lia).
  by rewrite take_app_le by lia.
Qed.

Lemma read_u8_array_app (data junk : list byte) (max_size n : Z)
    (pos : nat) :
  ConvertToTree.ar_res (ConvertToTree.read_u8_array data max_size n pos)
  = Ok tt ->
  ConvertToTree.read_u8_array (data ++ junk) max_size n pos
  = ConvertToTree.read_u8_array data max_size n pos.
Proof.
  unfold ConvertToTree.read_u8_array.
  destruct (size data <=? pos)%nat eqn:Hs; [done|]. bool_hyps.
  rewrite (leb_false_of_lt (size (data ++ junk)) pos)
    by (rewrite size_app; lia).
  rewrite (byte_at_app data junk pos Hs).
  destruct (byte_at data pos) as [b|]; [|done].
  destruct (_ || _); [apply read_bin_app|].
  destruct (read_array_header data pos) as [[sz| |] p0] eqn:Hh; [|done..].
  rewrite (read_array_header_app _ junk _ _ _ Hh).
  destruct (ConvertToTree.read_elems (read_uint data) _ _ _ _ _)
    as [[res sts] p] eqn:He.
  simpl. intros ->.
  by rewrite (read_elems_app _ (read_uint (data ++ junk)) _ _
                (fun pos v q => read_uint_app data junk pos q v) _ _ _ _ _ He).
Qed.

Lemma as_probe_app (r r' : nat -> ConvertToTree.array_read) (pos q : nat)
    (p : ConvertToTree.probe) :
  (ConvertToTree.ar_res (r pos) = Ok tt -> r' pos = r pos) ->
  ConvertToTree.as_probe r pos = (Ok p, q) ->
  ConvertToTree.as_probe r' pos = (Ok p, q).
Proof.
  unfold ConvertToTree.as_probe. intros Hr H.
  destruct (ConvertToTree.ar_res (r pos)) as [[]| |] eqn:Hres; [|done..].
  by rewrite (Hr eq_refl), Hres.
Qed.

(** Replay one step of a parser written with [let*] on the longer
    buffer. *)
Ltac replay lem :=
  match goal with
  | H : bind _ _ _ = (Ok _, _) |- _ =>
    let x := fresh "x" in
    let p := fresh "p" in
    let Hs := fresh "Hs" in
    let Hk := fresh "Hk" in
    apply bind_Ok in H as (x & p & Hs & Hk); cbv beta in Hk;
    unfold bind at 1; rewrite (lem _ _ _ _ _ Hs); cbv beta iota
  end.

Lemma as_i16_probe_app (data junk : list byte) (pos q : nat)
    (p : ConvertToTree.probe) :
  ConvertToTree.as_probe
    (ConvertToTree.read_i16_array data ConvertToTree.MAX_WAVEFORM_SAMPLES 0)
    pos = (Ok p, q) ->
  ConvertToTree.as_probe
    (ConvertToTree.read_i16_array (data ++ junk)
       ConvertToTree.MAX_WAVEFORM_SAMPLES 0) pos = (Ok p, q).
Proof. apply as_probe_app, read_i16_array_app. Qed.

Lemma as_u8_probe_app (data junk : list byte) (pos q : nat)
    (p : ConvertToTree.probe) :
  ConvertToTree.as_probe
    (ConvertToTree.read_u8_array data ConvertToTree.MAX_WAVEFORM_SAMPLES 0)
    pos = (Ok p, q) ->
  ConvertToTree.as_probe
    (ConvertToTree.read_u8_array (data ++ junk)
       ConvertToTree.MAX_WAVEFORM_SAMPLES 0) pos = (Ok p, q).
Proof. apply as_probe_app, read_u8_array_app. Qed.

Lemma parse_waveform_app (data junk : list byte) (pos q : nat)
    (w : ConvertToTree.waveform) :
  ConvertToTree.parse_waveform data pos = (Ok w, q) ->
  ConvertToTree.parse_waveform (data ++ junk) pos = (Ok w, q).
Proof.
  unfold ConvertToTree.parse_waveform. intros H.
  replay read_array_header_app.
  destruct (negb (x =? 8)%nat); [done|].
  do 2 replay as_i16_probe_app. do 4 replay as_u8_probe_app.
  do 2 replay read_uint_app. assumption.
Qed.

Lemma full_parse_event_app (data junk : list byte) (pos q : nat)
    (ev : ConvertToTree.event) :
  ConvertToTree.parse_event data pos = (Ok ev, q) ->
  ConvertToTree.parse_event (data ++ junk) pos = (Ok ev, q).
Proof.
  unfold ConvertToTree.parse_event. intros H.
  replay read_array_header_app.
  destruct (negb (x =? 6)%nat && negb (x =? 7)%nat); [done|].
  do 4 replay read_uint_app. replay read_float64_app. replay read_uint_app.
  destruct (x =? 7)%nat; [|assumption].
  replay parse_waveform_app. assumption.
Qed.

Lemma summary_parse_event_app (data junk : list byte) (pos q : nat)
    (ev : ReadDelila.Event) :
  ReadDelila.parse_event data pos = (Ok ev, q) ->
  ReadDelila.parse_event (data ++ junk) pos = (Ok ev, q).
Proof.
  unfold ReadDelila.parse_event. intros H.
  replay read_array_header_app.
  destruct (negb (x =? 6)%nat); [done|].
  do 4 replay read_uint_app. replay read_float64_app. replay read_uint_app.
  assumption.
Qed.

Lemma parse_events_app (data junk : list byte) :
  forall count pos q evs,
    ReadDelila.parse_events data count pos = (Ok evs, q) ->
    ReadDelila.parse_events (data ++ junk) count pos = (Ok evs, q).
Proof.
  induction count as [|count IH]; intros pos q evs; simpl; [done|].
  intros H. replay summary_parse_event_app.
  match goal with
  | Hk : bind _ _ _ = (Ok _, _) |- _ =>
    apply bind_Ok in Hk as (evs' & q' & He & Hk');
    unfold bind at 1; by rewrite (IH _ _ _ He)
  end.
Qed.

Lemma parse_batch_header_app (data junk : list byte) (pos q : nat)
    (r : Z * nat) :
  ConvertToTree.parse_batch_header data pos = (Ok r, q) ->
  ConvertToTree.parse_batch_header (data ++ junk) pos = (Ok r, q).
Proof.
  unfold ConvertToTree.parse_batch_header. intros H.
  replay read_array_header_app.
  destruct (negb (x =? 4)%nat); [done|].
  do 3 replay read_uint_app. replay read_array_header_app. assumption.
Qed.

Lemma leading_events_app (data junk : list byte) :
  forall count pos,
    length (leading_events data count pos) = count ->
    leading_events (data ++ junk) count pos = leading_events data count pos.
Proof.
  induction count as [|count IH]; intros pos; simpl; [done|].
  destruct (ConvertToTree.parse_event data pos) as [[ev| |] q] eqn:Hev;
    [|done..].
  rewrite (full_parse_event_app _ junk _ _ _ Hev). simpl.
  intros [= Hl]. by rewrite IH.
Qed.

Lemma fill_events_app (data junk : list byte) (max_events : Z) :
  forall count st pos,
    length (leading_events data count pos) = count ->
    ConvertToTree.fill_events (data ++ junk) max_events count st pos
    = ConvertToTree.fill_events data max_events count st pos.
Proof.
  induction count as [|count IH]; intros st pos; simpl; [done|].
  destruct (ConvertToTree.parse_event data pos) as [[ev| |] q] eqn:Hev;
    [|done..].
  rewrite (full_parse_event_app _ junk _ _ _ Hev). simpl.
  intros [= Hl]. destruct (ConvertToTree.limit_reached _ _); [done|].
  by apply IH.
Qed.

(** X16.  Neither program checks that a batch fills its block: bytes that
    follow the last declared event are never looked at.  If [read_delila]
    parses a block, or if [convert_to_tree] decodes the batch header and
    all the events it declares, then the same block with any bytes
    appended is processed to the very same result. *)
Theorem bytes_after_the_batch_are_ignored (max_events : Z)
    (block junk : list byte) :
  (forall st r p,
     ReadDelila.parse_batch block 0%nat = (Ok r, p) ->
     ReadDelila.process_block max_events (block ++ junk) st
     = ReadDelila.process_block max_events block st) /\
  (forall st source_id n q,
     ConvertToTree.parse_batch_header block 0%nat = (Ok (source_id, n), q) ->
     length (leading_events block n q) = n ->
     ConvertToTree.process_block max_events (block ++ junk) st
     = ConvertToTree.process_block max_events block st).
Proof.
  split.
  - intros st r p H. unfold ReadDelila.process_block.
    rewrite H. rewrite parse_batch_header_events in *.
    destruct (ConvertToTree.parse_batch_header block 0%nat)
      as [[[source_id n]| |] q] eqn:Hh; [|done..].
    rewrite (parse_batch_header_app _ junk _ _ _ Hh).
    destruct (ReadDelila.parse_events block n q) as [[evs| |] p'] eqn:He;
      [|done..].
    rewrite (parse_events_app _ junk _ _ _ _ He). by injection H as <- <-.
  - intros st source_id n q Hh Hl. unfold ConvertToTree.process_block.
    rewrite Hh, (parse_batch_header_app _ junk _ _ _ Hh).
    by rewrite fill_events_app.
Qed.

Lemma bytes_after_the_batch_are_ignored_witness :
  ReadDelila.process_block 0 (sample_block ++ [xff; xc1])
    (ReadDelila.mk_reader_state [] 0)
  = ReadDelila.process_block 0 sample_block (ReadDelila.mk_reader_state [] 0)
  /\
  ConvertToTree.process_block 0 (waveform_block ++ [xff; xc1])
    (ConvertToTree.mk_tree_state [] 0 0 0)
  = ConvertToTree.process_block 0 waveform_block
      (ConvertToTree.mk_tree_state [] 0 0 0).
Proof.
  pose proof (bytes_after_the_batch_are_ignored 0 sample_block [xff; xc1])
    as [Hr _].
  pose proof (bytes_after_the_batch_are_ignored 0 waveform_block [xff; xc1])
    as [_ Hc].
  split.
  - apply (Hr _ (7, batch_events sample_block) 20%nat). reflexivity.
  - apply (Hc _ 7 1%nat 5%nat); reflexivity.
Defined.

(** ** What the full reader makes of an event as the recorder writes it *)

Lemma smallest_signed_form_range (v : Z) :
  - 2 ^ 31 <= v < 2 ^ 64 -> form_range (smallest_signed_form v) v.
Proof.
  intros Hv. unfold smallest_signed_form.
  destruct (0 <=? v) eqn:H0; bool_hyps.
  { apply smallest_unsigned_form_range. lia. }
  repeat case_match; bool_hyps; simpl; lia.
Qed.

Lemma read_sint_encoded (v : Z) (data : list byte) (p : nat) (l : list byte) :
  - 2 ^ 31 <= v < 2 ^ 63 -> bytes_at data p (encode_sint v ++ l) ->
  ConvertToTree.read_int data p = (Ok v, (p + length (encode_sint v))%nat).
Proof.
  intros Hv H. apply (read_int_encoded _ v data p l); [|lia|done].
  apply smallest_signed_form_range. pow2_eval. lia.
Qed.

Lemma cast_i16_small (v : Z) : - 2 ^ 15 <= v < 2 ^ 15 -> cast_i16 v = v.
Proof.
  intros Hv. unfold cast_i16, cast_signed.
  change (2 ^ (16 - 1)) with (2 ^ 15). rewrite Z.mod_small; pow2_eval; lia.
Qed.

(** The element loop over signed samples written one after the other. *)
Lemma read_elems_sint_encoded (data : list byte) (max_size : Z) :
  forall (xs : list Z) (i p : nat) (l : list byte),
    Forall (fun x => - 2 ^ 15 <= x < 2 ^ 15) xs ->
    Z.of_nat (i + length xs) <= max_size ->
    Z.of_nat (i + length xs) < 2147483648 ->
    bytes_at data p (concat (map encode_sint xs) ++ l) ->
    ConvertToTree.read_elems (ConvertToTree.read_int data) cast_i16 max_size
      (length xs) i p
    = (Ok tt, imap (fun k x => ((i + k)%nat, x)) xs,
       (p + length (concat (map encode_sint xs)))%nat).
Proof.
  induction xs as [|x xs IH]; intros i p l Hxs Hmax Hint H.
  - simpl. by rewrite Nat.add_0_r.
  - inversion Hxs as [|x' xs' Hx Hxs']; subst x' xs'. clear Hxs.
    rename Hxs' into Hxs.
    cbn [map concat] in H. rewrite <- app_assoc in H.
    cbn [length ConvertToTree.read_elems].
    rewrite (read_sint_encoded x data p _ ltac:(pow2_eval; lia) H).
    apply bytes_at_app_r in H as [_ H].
    simpl length in Hmax, Hint.
    rewrite (IH (S i) _ l Hxs ltac:(lia) ltac:(lia) H).
    rewrite cast_int_small by lia.
    rewrite (proj2 (Z.ltb_lt _ _)) by lia.
    rewrite cast_i16_small by done.
    cbn [map concat imap app]. rewrite length_app, Nat.add_0_r.
    f_equal; [|lia]. f_equal. f_equal.
    apply imap_ext. intros k y _. simpl. f_equal. lia.
Qed.

(** An analog probe: the count and the samples, cell by cell. *)
Lemma as_probe_i16_encoded (xs : list Z) (data : list byte) (p : nat)
    (l : list byte) :
  samples_ok (- 2 ^ 15) (2 ^ 15) xs ->
  bytes_at data p (encode_i16_array xs ++ l) ->
  ConvertToTree.as_probe
    (ConvertToTree.read_i16_array data ConvertToTree.MAX_WAVEFORM_SAMPLES 0) p
  = (Ok (probe_of xs), (p + length (encode_i16_array xs))%nat).
Proof.
  intros [Hxs Hlen] H. unfold encode_i16_array in *.
  unfold ConvertToTree.MAX_WAVEFORM_SAMPLES in *.
  rewrite <- app_assoc in H.
  unfold ConvertToTree.as_probe, ConvertToTree.read_i16_array.
  rewrite (read_array_header_encoded (length xs) data p _
             ltac:(pow2_eval; lia) H).
  apply bytes_at_app_r in H as [_ H].
  rewrite (read_elems_sint_encoded data 16384 xs 0 _ l Hxs)
    by (simpl; done || lia).
  cbn [ConvertToTree.ar_res ConvertToTree.ar_n ConvertToTree.ar_stores
       ConvertToTree.ar_pos].
  rewrite cast_int_small by lia. rewrite Z.min_l by lia.
  rewrite length_app. unfold probe_of, stores_of. f_equal. lia.
Qed.

(** A digital probe in either form, as long as something follows it. *)
Lemma as_probe_digital_encoded (d : probe_form * list Z) (data : list byte)
    (p : nat) (l : list byte) :
  samples_ok 0 (2 ^ 8) (snd d) ->
  bytes_at data p (encode_digital d ++ l) -> l <> [] ->
  ConvertToTree.as_probe
    (ConvertToTree.read_u8_array data ConvertToTree.MAX_WAVEFORM_SAMPLES 0) p
  = (Ok (probe_of (snd d)), (p + length (encode_digital d))%nat).
Proof.
  intros [Hxs Hlen] H Hl. destruct d as [form xs].
  unfold encode_digital in *. cbn [fst snd] in *.
  assert (Hint : Z.of_nat (length xs) < 2147483648)
    by (unfold ConvertToTree.MAX_WAVEFORM_SAMPLES in Hlen; lia).
  assert (Hxs' : Forall (fun x => 0 <= x < 256) xs) by exact Hxs.
  unfold ConvertToTree.as_probe. destruct form.
  - by rewrite (read_u8_array_array xs data _ 0 p l Hxs' Hlen Hint H).
  - by rewrite (read_u8_array_bin xs data _ 0 p l Hxs' Hlen Hint
                  (or_intror Hl) H).
Qed.

Lemma length_encode_uint_pos (v : Z) : (1 <= length (encode_uint v))%nat.
Proof.
  unfold encode_uint. rewrite length_encode_int. by destruct (_ v); lia.
Qed.

(** Something follows: an integer is still to come. *)
Ltac more_follows v :=
  let Hn := fresh in
  intros Hn; apply (f_equal length) in Hn; rewrite !length_app in Hn;
  pose proof (length_encode_uint_pos v); simpl in Hn; lia.

(** The waveform of an event as the recorder writes it. *)
Lemma parse_waveform_encoded (w : wire_waveform) (data : list byte)
    (p : nat) (l : list byte) :
  waveform_ok w -> bytes_at data p (encode_waveform w ++ l) ->
  ConvertToTree.parse_waveform data p
  = (Ok (ConvertToTree.mk_waveform
           (probe_of (analog_probe1 w)) (probe_of (analog_probe2 w))
           (probe_of (snd (digital_probe1 w)))
           (probe_of (snd (digital_probe2 w)))
           (probe_of (snd (digital_probe3 w)))
           (probe_of (snd (digital_probe4 w)))
           (resolution w) (threshold w)),
     (p + length (encode_waveform w))%nat).
Proof.
  intros (Ha1 & Ha2 & Hd1 & Hd2 & Hd3 & Hd4 & Htr & Htt) H.
  unfold encode_waveform in *. rewrite <- !app_assoc in H.
  unfold ConvertToTree.parse_waveform, bind.
  read_field read_array_header_encoded. cbn [Nat.eqb negb].
  rewrite (as_probe_i16_encoded _ data _ _ Ha1 H).
  apply bytes_at_app_r in H as [_ H].
  rewrite (as_probe_i16_encoded _ data _ _ Ha2 H).
  apply bytes_at_app_r in H as [_ H].
  rewrite (as_probe_digital_encoded _ data _ _ Hd1 H)
    by more_follows (resolution w).
  apply bytes_at_app_r in H as [_ H].
  rewrite (as_probe_digital_encoded _ data _ _ Hd2 H)
    by more_follows (resolution w).
  apply bytes_at_app_r in H as [_ H].
  rewrite (as_probe_digital_encoded _ data _ _ Hd3 H)
    by more_follows (resolution w).
  apply bytes_at_app_r in H as [_ H].
  rewrite (as_probe_digital_encoded _ data _ _ Hd4 H)
    by more_follows (resolution w).
  apply bytes_at_app_r in H as [_ H].
  read_field read_uint_encoded.
  rewrite (read_uint_encoded (threshold w) data _ l)
    by first [exact H | lia].
  unfold ret. rewrite cast_u8_small, cast_u16_small by lia.
  f_equal. rewrite !length_app. lia.
Qed.

(** An event as the recorder writes it, with or without waveform: the
    full reader hands back its fields and its probes and stands behind
    it. *)
Lemma full_parse_event_encoded (e : wire_event) (data : list byte)
    (p : nat) (l : list byte) :
  wire_event_ok e -> bytes_at data p (encode_wire_event e ++ l) ->
  ConvertToTree.parse_event data p
  = (Ok (entry_of e), (p + length (encode_wire_event e))%nat).
Proof.
  intros [Hev Hw] H. destruct e as [ev [w|]]; cbn [attached scalars] in *.
  - destruct Hev as (Hm & Hc & He & Hs & Ht & Hf).
    unfold encode_wire_event, encode_fields in *. cbn [attached scalars] in *.
    rewrite <- !app_assoc in H.
    unfold ConvertToTree.parse_event, bind.
    read_field read_array_header_encoded. cbn [Nat.eqb negb andb].
    read_field read_uint_encoded. read_field read_uint_encoded.
    read_field read_uint_encoded. read_field read_uint_encoded.
    read_field read_float64_encoded. rewrite length_encode_float64 in H.
    read_field read_uint_encoded.
    rewrite (parse_waveform_encoded w data _ l Hw H).
    unfold ret, entry_of. cbn [attached scalars].
    rewrite !cast_u8_small, !cast_u16_small by lia.
    f_equal. rewrite !length_app, length_encode_float64. lia.
  - destruct Hev as (Hm & Hc & He & Hs & Ht & Hf).
    unfold encode_wire_event, encode_event, encode_fields in *.
    cbn [attached scalars] in *. rewrite <- !app_assoc in H.
    unfold ConvertToTree.parse_event, bind.
    read_field read_array_header_encoded. cbn [Nat.eqb negb andb].
    read_field read_uint_encoded. read_field read_uint_encoded.
    read_field read_uint_encoded. read_field read_uint_encoded.
    read_field read_float64_encoded. rewrite length_encode_float64 in H.
    rewrite (read_uint_encoded (ReadDelila.flags ev) data _ l)
      by first [exact H | lia].
    unfold ret, entry_of. cbn [attached scalars].
    rewrite !cast_u8_small, !cast_u16_small by lia.
    f_equal. rewrite !length_app, length_encode_float64. lia.
Qed.

Lemma length_encode_wire_event (e : wire_event) :
  (1 <= length (encode_wire_event e))%nat.
Proof.
  unfold encode_wire_event. destruct (attached e).
  - rewrite length_app. simpl. lia.
  - apply length_encode_event.
Qed.

(** The event loop of [convert_to_tree] over events as the recorder
    writes them, with no event limit: each is filled, and the loop goes on
    behind the last with what is left of the declared count. *)
Lemma fill_events_encoded (data : list byte) (max_events : Z) (k : nat) :
  max_events <= 0 ->
  forall (evs : list wire_event) (st : ConvertToTree.tree_state) (pos : nat)
         (l : list byte),
    Forall wire_event_ok evs ->
    cast_int (ConvertToTree.waveform_count st)
    = ConvertToTree.waveform_count st ->
    bytes_at data pos (concat (map encode_wire_event evs) ++ l) ->
    ConvertToTree.fill_events data max_events (length evs + k) st pos
    = ConvertToTree.fill_events data max_events k
        (filled st (map entry_of evs))
        (pos + length (concat (map encode_wire_event evs))).
Proof.
  intros Hmax. induction evs as [|e evs IH]; intros st pos l Hok Hw H.
  - cbn [map concat length Nat.add]. by rewrite Nat.add_0_r, filled_nil.
  - inversion Hok as [|e' evs' He Hevs]; subst e' evs'.
    cbn [map concat length Nat.add ConvertToTree.fill_events] in *.
    rewrite <- app_assoc in H.
    rewrite (full_parse_event_encoded e data pos _ He H).
    unfold ConvertToTree.limit_reached at 1.
    rewrite (proj2 (Z.ltb_ge 0 max_events)) by lia. cbn [andb].
    apply bytes_at_app_r in H as [_ H].
    rewrite (IH _ _ l Hevs); [| |exact H].
    + rewrite filled_cons, length_app. f_equal. lia.
    + cbn [ConvertToTree.waveform_count].
      destruct (ConvertToTree.has_waveform (entry_of e));
        [apply cast_int_idem|done].
Qed.

(** At the end of the buffer [parse_event] returns [false] and prints
    nothing. *)
Lemma full_parse_event_at_end (data : list byte) (pos : nat) :
  (size data <= pos)%nat ->
  ConvertToTree.parse_event data pos = (Fail, pos) /\
  ConvertToTree.parse_event_log data pos = [].
Proof.
  intros Hp.
  unfold ConvertToTree.parse_event, ConvertToTree.parse_event_log, bind,
    read_array_header.
  by rewrite (leb_true_of_le _ _ Hp).
Qed.

Lemma length_concat_encode_wire_event (evs : list wire_event) :
  (length evs <= length (concat (map encode_wire_event evs)))%nat.
Proof.
  induction evs as [|e evs IH]; [simpl; lia|].
  cbn [map concat length]. rewrite length_app.
  pose proof (length_encode_wire_event e). lia.
Qed.

(** One block of [convert_to_tree] on a batch as the recorder writes it,
    whose header declares [n] events while the block holds those of [b]:
    all of them, or fewer and then the block ends. *)
Lemma full_process_block_encoded (b : wire_batch) (n : nat)
    (max_events : Z) (st : ConvertToTree.tree_state) :
  max_events <= 0 ->
  0 <= batch_source b < 2 ^ 32 ->
  0 <= batch_sequence b < 2 ^ 64 ->
  0 <= batch_written_at b < 2 ^ 64 ->
  Forall wire_event_ok (batch_items b) ->
  (length (batch_items b) <= n)%nat -> Z.of_nat n < 2 ^ 32 ->
  cast_int (ConvertToTree.waveform_count st)
  = ConvertToTree.waveform_count st ->
  ConvertToTree.process_block max_events (encode_wire_batch_declaring n b) st
  = Continue (next_block (filled st (map entry_of (batch_items b))))
      (if (length (batch_items b) <? n)%nat
       then [FailedToParseEvent
               (ConvertToTree.event_count st
                + Z.of_nat (length (batch_items b)))]
       else []).
Proof.
  intros Hmax Hsrc Hseq Hts Hok Hn Hn32 Hw.
  set (block := encode_wire_batch_declaring n b).
  pose proof (bytes_at_middle [] block []) as H.
  rewrite app_nil_r in H. cbn [app length] in H.
  assert (Hsize : size block
    = (length (encode_batch_header (batch_source b) (batch_sequence b)
                 (batch_written_at b) n)
       + length (concat (map encode_wire_event (batch_items b))))%nat)
    by (unfold block, encode_wire_batch_declaring, size;
        by rewrite length_app).
  unfold block at 2 in H. unfold encode_wire_batch_declaring in H.
  unfold ConvertToTree.process_block.
  rewrite (parse_batch_header_encoded _ _ _ n block _ Hsrc Hseq Hts Hn32 H).
  apply bytes_at_app_r in H as [_ H]. rewrite Nat.add_0_l in H.
  remember (length (encode_batch_header (batch_source b) (batch_sequence b)
                      (batch_written_at b) n)) as q eqn:Hq.
  replace (ConvertToTree.fill_events block max_events n st q)
    with (ConvertToTree.fill_events block max_events
            (length (batch_items b) + (n - length (batch_items b))) st q)
    by (f_equal; lia).
  rewrite (fill_events_encoded block max_events _ Hmax _ st _ [] Hok Hw)
    by (by rewrite app_nil_r).
  destruct (length (batch_items b) <? n)%nat eqn:Hlt; bool_hyps.
  - destruct (n - length (batch_items b))%nat as [|k] eqn:Hk; [lia|].
    cbn [ConvertToTree.fill_events].
    destruct (full_parse_event_at_end block
                (q + length (concat (map encode_wire_event (batch_items b)))))
      as [-> ->]; [lia|].
    cbn [app]. unfold ConvertToTree.limit_reached.
    rewrite (proj2 (Z.ltb_ge 0 max_events)) by lia. cbn [andb].
    unfold next_block, filled.
    cbn [ConvertToTree.entries ConvertToTree.block_count
         ConvertToTree.event_count ConvertToTree.waveform_count].
    by rewrite length_map.
  - replace (n - length (batch_items b))%nat with 0%nat by lia.
    cbn [ConvertToTree.fill_events].
    unfold ConvertToTree.limit_reached.
    by rewrite (proj2 (Z.ltb_ge 0 max_events)) by lia.
Qed.

(** ** [convert_to_tree] on a file laid out as the format says *)

(** The loop of [convert_to_tree] on a file of well-framed blocks does to
    the blocks what its body does block by block; the trailer is never
    read. *)
Lemma convert_to_tree_over_blocks (header : list byte)
    (blocks : list (list byte)) (footer : list byte) (max_events : Z) :
  Z.of_nat (length header) < 2 ^ 32 ->
  Forall framed blocks ->
  length footer = FOOTER_SIZE ->
  Z.of_nat (length (delila_file header blocks footer)) < 2 ^ 63 ->
  exists r,
    ConvertToTree.convert_to_tree (delila_file header blocks footer)
      max_events = Some r /\
    loop_summary r
    = blocks_summary (ConvertToTree.process_block max_events) blocks
        (ConvertToTree.mk_tree_state [] 0 0 0).
Proof.
  intros Hh Hfr Hfoot Hsize.
  set (file := delila_file header blocks footer) in *.
  pose proof (length_delila_file header blocks footer) as Hlen.
  fold file in Hlen. unfold FOOTER_SIZE in Hfoot. rewrite Hfoot in Hlen.
  set (pre := FILE_MAGIC ++ le_bytes4 (Z.of_nat (length header)) ++ header).
  assert (Hpre : length pre = (12 + length header)%nat)
    by (unfold pre; rewrite !length_app; simpl; lia).
  assert (Hfile : file = pre ++ frames blocks ++ footer)
    by (unfold file, delila_file, pre; by rewrite <- !app_assoc).
  unfold ConvertToTree.convert_to_tree.
  pose proof (read_header_delila_file header blocks footer Hh) as Hhead.
  cbv zeta in Hhead. fold file in Hhead. rewrite Hhead.
  rewrite (cast_i64_small (Z.of_nat (12 + length header))) by lia.
  unfold seekg_beg. cbn [failbit].
  rewrite (proj2 (Z.ltb_ge _ _)) by lia. rewrite Nat2Z.id.
  rewrite Hlen. unfold FOOTER_SIZE.
  set (data_end := cast_i64 _).
  assert (Hend : data_end = Z.of_nat (length pre + length (frames blocks))).
  { unfold data_end. rewrite cast_i64_small by lia. lia. }
  pose proof (length_frames_ge blocks) as Hge.
  replace (S (12 + length header + length (frames blocks) + 64))
    with (length blocks
          + S (12 + length header + length (frames blocks) + 64
               - length blocks))%nat by lia.
  rewrite <- Hpre. cbn [contents].
  pose proof (stream_blocks_framed ConvertToTree.block_count
                (ConvertToTree.process_block max_events) data_end blocks
                file pre footer
                (S (length pre + length (frames blocks) + 64 - length blocks))
                (ConvertToTree.mk_tree_state [] 0 0 0) [] Hfr Hfile
                ltac:(lia)) as Hloop.
  eexists. split; [reflexivity|].
  unfold blocks_summary.
  destruct (body_over_blocks _ blocks _ []) as [[acc' log']|r]; [|done].
  rewrite Hloop. cbn [stream_blocks]. unfold tellg. cbn [failbit gpos].
  rewrite (proj2 (Z.ltb_ge _ _)) by lia. reflexivity.
Qed.

Lemma wire_batch_ok_framed (b : wire_batch) :
  wire_batch_ok b -> framed (encode_wire_batch b).
Proof.
  intros (_ & _ & _ & _ & Hlen). split; [|done].
  unfold encode_wire_batch, encode_wire_batch_declaring, encode_batch_header.
  rewrite !length_app. simpl. lia.
Qed.

Lemma wire_batch_items_length (b : wire_batch) :
  (length (batch_items b) <= length (encode_wire_batch b))%nat.
Proof.
  unfold encode_wire_batch, encode_wire_batch_declaring.
  rewrite length_app.
  pose proof (length_concat_encode_wire_event (batch_items b)). lia.
Qed.

(** The body over batches as the recorder writes them, with no limit. *)
Lemma body_over_wire_batches (max_events : Z) (batches : list wire_batch) :
  max_events <= 0 -> Forall wire_batch_ok batches ->
  forall st log,
    cast_int (ConvertToTree.waveform_count st)
    = ConvertToTree.waveform_count st ->
    cast_int (ConvertToTree.block_count st) = ConvertToTree.block_count st ->
    body_over_blocks (ConvertToTree.process_block max_events)
      (map encode_wire_batch batches) st log
    = inl (ConvertToTree.mk_tree_state
             (ConvertToTree.entries st
              ++ map entry_of (concat (map batch_items batches)))
             (cast_int (ConvertToTree.block_count st
                        + Z.of_nat (length batches)))
             (ConvertToTree.event_count st
              + Z.of_nat (length (concat (map batch_items batches))))
             (cast_int (ConvertToTree.waveform_count st
                        + waveforms (map entry_of
                                       (concat (map batch_items batches))))),
           log).
Proof.
  intros Hmax Hok. induction Hok as [|b bs Hb Hbs IH]; intros st log Hw Hbc.
  - cbn [map concat body_over_blocks length]. unfold waveforms. simpl.
    rewrite app_nil_r, !Z.add_0_r, Hw, Hbc. by destruct st.
  - cbn [map concat body_over_blocks length].
    pose proof (wire_batch_items_length b) as Hlen.
    destruct Hb as (Hsrc & Hseq & Hts & Hitems & Hsz).
    assert (Hn32 : Z.of_nat (length (batch_items b)) < 2 ^ 32)
      by (pow2_eval; lia).
    unfold encode_wire_batch at 1.
    rewrite (full_process_block_encoded b (length (batch_items b))
               max_events st Hmax Hsrc Hseq Hts Hitems (le_n _) Hn32 Hw).
    rewrite Nat.ltb_irrefl, app_nil_r.
    rewrite IH by (unfold next_block, filled; simpl; apply cast_int_idem).
    unfold next_block, filled.
    cbn [ConvertToTree.entries ConvertToTree.block_count
         ConvertToTree.event_count ConvertToTree.waveform_count].
    rewrite !cast_int_add_l, map_app, waveforms_app, !length_app, length_map,
      <- app_assoc.
    do 2 f_equal. f_equal; [f_equal; lia|lia|f_equal; lia].
Qed.

(** X17.  [convert_to_tree] on a file laid out as the format says: magic,
    header, one length-prefixed block per batch, each the MessagePack
    encoding of the batch, events with a waveform among them, probes as
    arrays or as byte strings, and 64 trailing bytes, which are never
    read and may hold anything.  With no event limit the loop runs through
    every block, stops at the trailer and reports nothing, and the tree
    holds one entry per event, in file order: the six fields of the
    event, [has_waveform], and for each probe the number of samples and
    the samples in the cells 0, 1, 2, ... of its array.  The events are
    counted, and so are the blocks as long as an [int] holds their
    number. *)
Theorem tree_holds_the_events_of_every_block (header : list byte)
    (batches : list wire_batch) (footer : list byte) (max_events : Z) :
  Z.of_nat (length header) < 2 ^ 32 ->
  Forall wire_batch_ok batches ->
  length footer = FOOTER_SIZE ->
  Z.of_nat (length (delila_file header (map encode_wire_batch batches)
                      footer)) < 2 ^ 63 ->
  max_events <= 0 ->
  exists r,
    ConvertToTree.convert_to_tree
      (delila_file header (map encode_wire_batch batches) footer) max_events
    = Some r /\
    lr_exit r = AtDataEnd /\ lr_log r = [] /\
    ConvertToTree.entries (lr_acc r)
    = map entry_of (concat (map batch_items batches)) /\
    ConvertToTree.event_count (lr_acc r)
    = Z.of_nat (length (concat (map batch_items batches))) /\
    (Z.of_nat (length batches) < 2147483648 ->
     ConvertToTree.block_count (lr_acc r) = Z.of_nat (length batches)).
Proof.
  intros Hh Hok Hfoot Hsize Hmax.
  assert (Hfr : Forall framed (map encode_wire_batch batches)).
  { apply Forall_map. eapply Forall_impl; [|exact Hok].
    intros b. apply wire_batch_ok_framed. }
  destruct (convert_to_tree_over_blocks header _ footer max_events
              Hh Hfr Hfoot Hsize) as (r & Hr & Hsum).
  exists r. split; [exact Hr|].
  unfold blocks_summary in Hsum.
  rewrite (body_over_wire_batches max_events batches Hmax Hok) in Hsum
    by reflexivity.
  unfold loop_summary in Hsum. injection Hsum as -> -> ->.
  cbn [ConvertToTree.entries ConvertToTree.block_count
       ConvertToTree.event_count app].
  split; [done|]. split; [done|]. split; [done|]. split; [lia|].
  intros Hn. rewrite Z.add_0_l. apply cast_int_small. lia.
Qed.

(** A file of two blocks: the sample event with its waveform, then the
    sample event without. *)
Lemma tree_holds_the_events_of_every_block_witness :
  let batches := [mk_wire_batch 7 0 0 [sample_wire_event];
                  mk_wire_batch 7 1 0 [mk_wire_event sample_event None]] in
  map encode_wire_batch batches
  = [waveform_block; [x94; x07; x01; x00; x91] ++ event6] /\
  exists r,
    ConvertToTree.convert_to_tree
      (delila_file [xaa; xbb] (map encode_wire_batch batches) blank_footer) 0
    = Some r /\
    lr_exit r = AtDataEnd /\
    ConvertToTree.entries (lr_acc r)
    = [ConvertToTree.mk_event 1 2 100 50 4653144203864309760 0 true
         (ConvertToTree.mk_waveform
            (ConvertToTree.mk_probe 2 [(0%nat, -2); (1%nat, 300)])
            (ConvertToTree.mk_probe 0 [])
            (ConvertToTree.mk_probe 2 [(0%nat, 1); (1%nat, 200)])
            (ConvertToTree.mk_probe 1 [(0%nat, 7)])
            (ConvertToTree.mk_probe 0 [])
            (ConvertToTree.mk_probe 0 [])
            2 1000);
       ConvertToTree.mk_event 1 2 100 50 4653144203864309760 0 false
         ConvertToTree.no_waveform].
Proof.
  intros batches.
  assert (H1 : Z.of_nat (length [xaa; xbb]) < 2 ^ 32)
    by (vm_compute; reflexivity).
  assert (H2 : Forall wire_batch_ok batches).
  { repeat constructor; cbn; try lia; vm_compute; discriminate. }
  assert (H3 : length blank_footer = FOOTER_SIZE) by reflexivity.
  assert (H4 : Z.of_nat (length (delila_file [xaa; xbb]
                 (map encode_wire_batch batches) blank_footer)) < 2 ^ 63)
    by (vm_compute; reflexivity).
  assert (H5 : 0 <= 0) by lia.
  split; [by vm_compute|].
  destruct (tree_holds_the_events_of_every_block [xaa; xbb] batches
              blank_footer 0 H1 H2 H3 H4 H5)
    as (r & Hr & Hexit & _ & Hentries & _).
  exists r. split; [exact Hr|]. split; [exact Hexit|]. exact Hentries.
Defined.

(** ** A block that holds fewer events than its header declares *)

(** The summary reader runs out of bytes before it has the declared
    events, if it gets that far. *)
Lemma summary_parse_events_cut (data : list byte) (k : nat) :
  forall (evs : list wire_event) (pos : nat),
    Forall wire_event_ok evs ->
    bytes_at data pos (concat (map encode_wire_event evs)) ->
    size data = (pos + length (concat (map encode_wire_event evs)))%nat ->
    fst (ReadDelila.parse_events data (length evs + S k) pos) = Fail.
Proof.
  induction evs as [|e evs IH]; intros pos Hok H Hsize.
  - cbn [map concat length Nat.add ReadDelila.parse_events] in *.
    unfold ReadDelila.parse_event, bind, read_array_header.
    by rewrite (leb_true_of_le (size data) pos) by lia.
  - inversion Hok as [|e' evs' He Hevs]; subst e' evs'.
    cbn [map concat length Nat.add ReadDelila.parse_events] in *.
    rewrite length_app in Hsize.
    pose proof (full_parse_event_encoded e data pos _ He H) as Hfull.
    apply bytes_at_app_r in H as [_ H].
    pose proof (summary_parse_event_faultless data pos) as Hnf.
    unfold bind at 1.
    destruct (ReadDelila.parse_event data pos) as [[ev| |] q] eqn:Hs;
      [|done..].
    destruct (summary_event_is_full_event _ _ _ _ Hs) as (ev' & Hev' & _).
    rewrite Hfull in Hev'. injection Hev' as _ <-.
    specialize (IH _ Hevs H ltac:(lia)).
    unfold bind.
    by destruct (ReadDelila.parse_events data (length evs + S k) _)
      as [[evs'| |] q'].
Qed.

(** X3.  A batch as the recorder writes it whose block stops early: the
    header declares [n] events and the block ends behind fewer whole ones,
    with or without waveform.  [convert_to_tree], run without an event
    limit, fills every event the block holds, fields and probes, prints
    the one line that event number so-and-so failed to parse, counts the
    block and goes on to the next; [read_delila] keeps nothing of the
    block, prints that the block failed to parse and leaves its loop. *)
Theorem block_keeps_leading_events (b : wire_batch) (n : nat)
    (max_events : Z) (st : ConvertToTree.tree_state)
    (rs : ReadDelila.reader_state) :
  max_events <= 0 ->
  0 <= batch_source b < 2 ^ 32 ->
  0 <= batch_sequence b < 2 ^ 64 ->
  0 <= batch_written_at b < 2 ^ 64 ->
  Forall wire_event_ok (batch_items b) ->
  (length (batch_items b) < n)%nat -> Z.of_nat n < 2 ^ 32 ->
  cast_int (ConvertToTree.waveform_count st)
  = ConvertToTree.waveform_count st ->
  let block := encode_wire_batch_declaring n b in
  ConvertToTree.process_block max_events block st
  = Continue
      (ConvertToTree.mk_tree_state
         (ConvertToTree.entries st ++ map entry_of (batch_items b))
         (cast_int (ConvertToTree.block_count st + 1))
         (ConvertToTree.event_count st + Z.of_nat (length (batch_items b)))
         (cast_int (ConvertToTree.waveform_count st
                    + waveforms (map entry_of (batch_items b)))))
      [FailedToParseEvent
         (ConvertToTree.event_count st + Z.of_nat (length (batch_items b)))]
  /\
  ReadDelila.process_block max_events block rs
  = Break rs [FailedToParseBlock (ReadDelila.block_count rs)].
Proof.
  intros Hmax Hsrc Hseq Hts Hok Hn Hn32 Hw block. split.
  - unfold block.
    rewrite (full_process_block_encoded b n max_events st Hmax Hsrc Hseq Hts
               Hok ltac:(lia) Hn32 Hw).
    rewrite (proj2 (Nat.ltb_lt _ _)) by lia.
    unfold next_block, filled.
    cbn [ConvertToTree.entries ConvertToTree.block_count
         ConvertToTree.event_count ConvertToTree.waveform_count].
    by rewrite length_map.
  - pose proof (bytes_at_middle [] block []) as H.
    rewrite app_nil_r in H. cbn [app length] in H.
    assert (Hsize : size block
      = (length (encode_batch_header (batch_source b) (batch_sequence b)
                   (batch_written_at b) n)
         + length (concat (map encode_wire_event (batch_items b))))%nat)
      by (unfold block, encode_wire_batch_declaring, size;
          by rewrite length_app).
    unfold block at 2 in H. unfold encode_wire_batch_declaring in H.
    unfold ReadDelila.process_block.
    rewrite parse_batch_header_events.
    rewrite (parse_batch_header_encoded _ _ _ n block _ Hsrc Hseq Hts Hn32 H).
    apply bytes_at_app_r in H as [_ H]. rewrite Nat.add_0_l in H.
    pose proof (summary_parse_events_cut block
                  (n - length (batch_items b) - 1) (batch_items b) _
                  Hok H Hsize) as Hcut.
    replace (length (batch_items b)
             + S (n - length (batch_items b) - 1))%nat with n in Hcut by lia.
    destruct (ReadDelila.parse_events block n _) as [[evs| |] q];
      simpl in Hcut; by try discriminate.
Qed.

(** The block that declares three events and holds two: the sample event
    with its waveform, then the sample event without. *)
Lemma block_keeps_leading_events_witness :
  encode_wire_batch_declaring 3 cut_batch
  = [x94; x07; x00; x00; x93] ++ event7 ++ event6 /\
  ConvertToTree.process_block 0 (encode_wire_batch_declaring 3 cut_batch)
    (ConvertToTree.mk_tree_state [] 0 0 0)
  = Continue
      (ConvertToTree.mk_tree_state
         (map entry_of [sample_wire_event; mk_wire_event sample_event None])
         1 2 1)
      [FailedToParseEvent 2] /\
  ReadDelila.process_block 0 (encode_wire_batch_declaring 3 cut_batch)
    (ReadDelila.mk_reader_state [] 0)
  = Break (ReadDelila.mk_reader_state [] 0) [FailedToParseBlock 0].
Proof.
  assert (H1 : Forall wire_event_ok (batch_items cut_batch)).
  { repeat constructor; cbn; try lia; vm_compute; discriminate. }
  split; [by vm_compute|].
  exact (block_keeps_leading_events cut_batch 3 0
           (ConvertToTree.mk_tree_state [] 0 0 0)
           (ReadDelila.mk_reader_state [] 0)
           ltac:(lia) ltac:(by vm_compute) ltac:(by vm_compute)
           ltac:(by vm_compute) H1 ltac:(simpl; lia) ltac:(by vm_compute)
           eq_refl).
Defined.

(** ** The warnings of [parse_event] *)

Lemma parse_waveform_log_fail (data : list byte) (pos : nat) :
  ConvertToTree.parse_waveform_log data pos <> [] ->
  fst (ConvertToTree.parse_waveform data pos) = Fail /\
  exists d, ConvertToTree.parse_waveform_log data pos = [d].
Proof.
  unfold ConvertToTree.parse_waveform_log, ConvertToTree.parse_waveform, bind.
  destruct (read_array_header data pos) as [[c| |] p]; [| |done].
  - destruct (negb (c =? 8)%nat); [|done]. intros _. split; [done|].
    by eexists.
  - intros _. split; [done|]. by eexists.
Qed.

Lemma parse_event_log_cases (data : list byte) (pos : nat) :
  ConvertToTree.parse_event_log data pos = [] \/
  (fst (ConvertToTree.parse_event data pos) = Fail /\
   exists d, ConvertToTree.parse_event_log data pos = [d]).
Proof.
  unfold ConvertToTree.parse_event_log, ConvertToTree.parse_event,
    ConvertToTree.skip_fields, bind.
  destruct (read_array_header data pos) as [[c| |] p]; [|by left..].
  destruct (negb (c =? 6)%nat && negb (c =? 7)%nat) eqn:Hc.
  { right. split; [done|]. by eexists. }
  destruct (c =? 7)%nat eqn:H7; [|by left].
  destruct (read_uint data p) as [[v1| |] p1]; [|by left..].
  destruct (read_uint data p1) as [[v2| |] p2]; [|by left..].
  destruct (read_uint data p2) as [[v3| |] p3]; [|by left..].
  destruct (read_uint data p3) as [[v4| |] p4]; [|by left..].
  destruct (read_float64 data p4) as [[v5| |] p5]; [|by left..].
  destruct (read_uint data p5) as [[v6| |] p6]; [|by left..].
  unfold ret.
  destruct (decide (ConvertToTree.parse_waveform_log data p6 = []))
    as [->|Hne]; [by left|].
  right. destruct (parse_waveform_log_fail data p6 Hne) as [Hf Hd].
  split; [|done].
  by destruct (ConvertToTree.parse_waveform data p6) as [[w| |] q].
Qed.

(** X20.  What [parse_event] of [convert_to_tree] prints.  It prints at
    most one line per call, and only when it returns [false]: the line
    "Unexpected event array size" with the count, when the record's
    header was read and declares neither six nor seven elements (the
    position is then behind the header), or the line of [parse_waveform].
    A call that returns [true] prints nothing. *)
Theorem parse_event_warns_when_it_refuses (data : list byte) (pos : nat) :
  (ConvertToTree.parse_event_log data pos = [] \/
   (fst (ConvertToTree.parse_event data pos) = Fail /\
    exists d, ConvertToTree.parse_event_log data pos = [d])) /\
  (forall c p,
     read_array_header data pos = (Ok c, p) -> c <> 6%nat -> c <> 7%nat ->
     ConvertToTree.parse_event data pos = (Fail, p) /\
     ConvertToTree.parse_event_log data pos = [UnexpectedEventArraySize c]).
Proof.
  split; [apply parse_event_log_cases|].
  intros c p Hh H6 H7.
  unfold ConvertToTree.parse_event_log, ConvertToTree.parse_event, bind.
  rewrite Hh.
  by rewrite (proj2 (Nat.eqb_neq c 6) H6), (proj2 (Nat.eqb_neq c 7) H7).
Qed.

(** A record of five elements costs two lines: the one of [parse_event]
    and the one of the loop over the events. *)
Lemma parse_event_warns_when_it_refuses_witness :
  read_array_header five_element_block 5%nat = (Ok 5%nat, 6%nat) /\
  ConvertToTree.parse_event five_element_block 5%nat = (Fail, 6%nat) /\
  ConvertToTree.parse_event_log five_element_block 5%nat
  = [UnexpectedEventArraySize 5] /\
  ConvertToTree.process_block 0 five_element_block
    (ConvertToTree.mk_tree_state [] 0 0 0)
  = Continue (ConvertToTree.mk_tree_state [] 1 0 0)
      [UnexpectedEventArraySize 5; FailedToParseEvent 0].
Proof.
  assert (Hh : read_array_header five_element_block 5%nat = (Ok 5%nat, 6%nat))
    by reflexivity.
  split; [exact Hh|].
  destruct (proj2 (parse_event_warns_when_it_refuses five_element_block 5%nat)
              5%nat 6%nat Hh ltac:(lia) ltac:(lia)) as [He Hl].
  split; [exact He|]. split; [exact Hl|]. reflexivity.
Defined.

(** ** Event records there and back *)

(** X21.  An event record as the recorder writes it, anywhere in a
    buffer.  [parse_event] of [convert_to_tree] hands back what went in:
    the six fields, the time stamp bit for bit, whether there is a
    waveform, and for each probe of the waveform, written as an array or
    as a byte string, the number of samples and the samples in the cells
    0, 1, 2, ... of its array; it stands right behind the record and has
    printed nothing.  [parse_event] of [read_delila] hands back the six
    fields of a record without waveform, and refuses a record with a
    waveform behind its first byte. *)
Theorem event_records_round_trip (e : wire_event) (pre suf : list byte) :
  wire_event_ok e ->
  let data := pre ++ encode_wire_event e ++ suf in
  let behind := (length pre + length (encode_wire_event e))%nat in
  ConvertToTree.parse_event data (length pre) = (Ok (entry_of e), behind) /\
  ConvertToTree.parse_event_log data (length pre) = [] /\
  ReadDelila.parse_event data (length pre)
  = match attached e with
    | None => (Ok (scalars e), behind)
    | Some _ => (Fail, S (length pre))
    end.
Proof.
  intros Hok data behind.
  pose proof (bytes_at_middle pre (encode_wire_event e ++ suf) []) as H.
  rewrite app_nil_r in H. fold data in H.
  pose proof (full_parse_event_encoded e data (length pre) suf Hok H)
    as Hfull.
  split; [exact Hfull|]. split.
  - destruct (parse_event_log_cases data (length pre)) as [Hl|[Hf _]];
      [done|]. by rewrite Hfull in Hf.
  - destruct e as [ev [w|]]; cbn [attached scalars] in *.
    + unfold encode_wire_event in H. cbn [attached] in H.
      rewrite <- app_assoc in H.
      unfold ReadDelila.parse_event, bind.
      rewrite (read_array_header_encoded 7 data (length pre) _
                 ltac:(done) H).
      cbn [Nat.eqb negb]. unfold fail. f_equal. simpl. lia.
    + destruct Hok as [Hev _].
      exact (summary_parse_event_encoded ev data (length pre) suf Hev H).
Qed.

(** The sample event with its waveform, behind one other byte. *)
Lemma event_records_round_trip_witness :
  encode_wire_event sample_wire_event = event7 /\
  ConvertToTree.parse_event ([x05] ++ event7 ++ []) 1%nat
  = (Ok (ConvertToTree.mk_event 1 2 100 50 4653144203864309760 0 true
           (ConvertToTree.mk_waveform
              (ConvertToTree.mk_probe 2 [(0%nat, -2); (1%nat, 300)])
              (ConvertToTree.mk_probe 0 [])
              (ConvertToTree.mk_probe 2 [(0%nat, 1); (1%nat, 200)])
              (ConvertToTree.mk_probe 1 [(0%nat, 7)])
              (ConvertToTree.mk_probe 0 [])
              (ConvertToTree.mk_probe 0 [])
              2 1000)), 36%nat) /\
  ReadDelila.parse_event ([x05] ++ event7 ++ []) 1%nat = (Fail, 2%nat).
Proof.
  assert (Hok : wire_event_ok sample_wire_event).
  { repeat constructor; cbn; try lia; vm_compute; discriminate. }
  destruct (event_records_round_trip sample_wire_event [x05] [] Hok)
    as (Hfull & _ & Hsum).
  split; [reflexivity|]. split; [exact Hfull|exact Hsum].
Defined.

(** ** Time stamps of the dump *)

(** The fields of a binary64 pattern, in arithmetic. *)
Lemma binary64_fields (bits : Z) :
  0 <= bits < 2 ^ 64 ->
  Z.testbit bits 63 = (2 ^ 63 <=? bits) /\
  Z.land (Z.shiftr bits 52) 0x7ff = (bits / 2 ^ 52) mod 2 ^ 11 /\
  Z.land bits (2 ^ 52 - 1) = bits mod 2 ^ 52.
Proof.
  intros Hb. split; [|split].
  - destruct (2 ^ 63 <=? bits) eqn:Hs; bool_hyps.
    + apply Z.testbit_true; [lia|]. pow2_eval. Z.div_mod_to_equations. lia.
    + apply not_true_is_false. intros Ht.
      apply Z.testbit_true in Ht; [|lia]. revert Ht. pow2_eval.
      Z.div_mod_to_equations. lia.
  - rewrite Z.shiftr_div_pow2 by lia.
    change 0x7ff with (Z.ones 11). by rewrite Z.land_ones by lia.
  - change (2 ^ 52 - 1) with (Z.ones 52). by rewrite Z.land_ones by lia.
Qed.

(** The integer part of a double of at least 1, from its exponent. *)
Lemma truncated_magnitude (x e : Z) :
  2 ^ 52 <= x < 2 ^ 53 -> 1023 <= e ->
  2 ^ (e - 1023) <= Z.shiftl x (e - 1075) < 2 ^ (e - 1022).
Proof.
  intros Hx He.
  destruct (Z.le_gt_cases 1075 e) as [Hbig | Hsmall].
  - rewrite Z.shiftl_mul_pow2 by lia.
    replace (e - 1023) with (52 + (e - 1075)) by lia.
    replace (e - 1022) with (53 + (e - 1075)) by lia.
    rewrite !Z.pow_add_r by lia.
    assert (0 < 2 ^ (e - 1075)) by (apply Z.pow_pos_nonneg; lia). nia.
  - rewrite Z.shiftl_div_pow2 by lia.
    replace (- (e - 1075)) with (1075 - e) by lia.
    assert (Hp : 0 < 2 ^ (1075 - e)) by (apply Z.pow_pos_nonneg; lia).
    assert (H52 : 2 ^ 52 = 2 ^ (e - 1023) * 2 ^ (1075 - e)).
    { rewrite <- Z.pow_add_r by lia. f_equal. lia. }
    assert (H53 : 2 ^ 53 = 2 ^ (e - 1022) * 2 ^ (1075 - e)).
    { rewrite <- Z.pow_add_r by lia. f_equal. lia. }
    split.
    + apply Z.div_le_lower_bound; [done|]. lia.
    + apply Z.div_lt_upper_bound; [done|]. lia.
Qed.

(** The integer part itself: [t] is the largest integer not above
    [x * 2 ^ (e - 1075)], written without fractions. *)
Lemma truncated_value (x e : Z) :
  0 <= x -> 0 <= e ->
  let t := Z.shiftl x (e - 1075) in
  2 ^ 1075 * t <= x * 2 ^ e < 2 ^ 1075 * (t + 1).
Proof.
  intros Hx He t. subst t.
  destruct (Z.le_gt_cases 1075 e) as [Hbig | Hsmall].
  - rewrite Z.shiftl_mul_pow2 by lia.
    replace (2 ^ e) with (2 ^ (e - 1075) * 2 ^ 1075)
      by (rewrite <- Z.pow_add_r by lia; f_equal; lia).
    assert (0 < 2 ^ 1075) by (by apply Z.pow_pos_nonneg).
    assert (0 < 2 ^ (e - 1075)) by (apply Z.pow_pos_nonneg; lia). nia.
  - rewrite Z.shiftl_div_pow2 by lia.
    replace (- (e - 1075)) with (1075 - e) by lia.
    assert (Hp : 0 < 2 ^ (1075 - e)) by (apply Z.pow_pos_nonneg; lia).
    assert (He' : 0 < 2 ^ e) by (by apply Z.pow_pos_nonneg).
    replace (2 ^ 1075) with (2 ^ (1075 - e) * 2 ^ e)
      by (rewrite <- Z.pow_add_r by lia; f_equal; lia).
    pose proof (Z.mul_div_le x (2 ^ (1075 - e)) Hp) as Hlo.
    pose proof (Z.mul_succ_div_gt x (2 ^ (1075 - e)) Hp) as Hhi.
    set (q := x / 2 ^ (1075 - e)) in *. nia.
Qed.

(** The conversion of a double to [ULong64_t], case by case. *)
Lemma double_to_u64_cases (bits : Z) :
  0 <= bits < 2 ^ 64 ->
  let negative := 2 ^ 63 <=? bits in
  let e := (bits / 2 ^ 52) mod 2 ^ 11 in
  let m := bits mod 2 ^ 52 in
  match ReadDump.double_to_u64 bits with
  | Some t =>
    (e < 1023 /\ t = 0) \/
    (negative = false /\ 1023 <= e < 1087 /\
     2 ^ 1075 * t <= (2 ^ 52 + m) * 2 ^ e < 2 ^ 1075 * (t + 1) /\
     2 ^ (e - 1023) <= t < 2 ^ (e - 1022))
  | None => (negative = true /\ 1023 <= e) \/ 1087 <= e
  end.
Proof.
  intros Hb negative e m. unfold ReadDump.double_to_u64.
  destruct (binary64_fields bits Hb) as (-> & -> & ->).
  fold negative. fold e. fold m.
  assert (He : 0 <= e < 2048) by (apply Z.mod_pos_bound; done).
  set (x := 2 ^ 52 + m).
  assert (Hx : 2 ^ 52 <= x < 2 ^ 53).
  { unfold x, m. pose proof (Z.mod_pos_bound bits (2 ^ 52) ltac:(done)).
    pow2_eval. lia. }
  assert (Hx0 : 0 <= x) by (pow2_eval; lia).
  destruct (e =? 2047) eqn:Hinf; bool_hyps; [right; lia|].
  destruct (e =? 0) eqn:Hzero; bool_hyps.
  { cbn [Z.eqb]. left. split; [lia|done]. }
  destruct (Z.lt_ge_cases e 1023) as [Hlt | Hge].
  - assert (Ht : Z.shiftl x (e - 1075) = 0).
    { rewrite Z.shiftl_div_pow2 by lia. apply Z.div_small.
      split; [pow2_eval; lia|].
      eapply Z.lt_le_trans; [apply Hx|].
      apply Z.pow_le_mono_r; lia. }
    rewrite Ht. cbn [Z.eqb]. left. split; [lia|done].
  - pose proof (truncated_magnitude x e Hx Hge) as Ht.
    assert (He0 : 0 <= e) by lia.
    assert (Hpos : 0 < 2 ^ (e - 1023)) by (apply Z.pow_pos_nonneg; lia).
    rewrite (proj2 (Z.eqb_neq (Z.shiftl x (e - 1075)) 0)) by lia.
    destruct negative; [left; split; [done|lia]|].
    destruct (Z.shiftl x (e - 1075) <? 2 ^ 64) eqn:Hfit; bool_hyps.
    + right. split; [done|].
      split; [|split; [exact (truncated_value x e Hx0 He0)|done]].
      split; [lia|].
      destruct (Z.lt_ge_cases e 1087) as [|Hbig]; [done|]. exfalso.
      assert (2 ^ 64 <= 2 ^ (e - 1023)) by (apply Z.pow_le_mono_r; lia).
      lia.
    + right.
      destruct (Z.lt_ge_cases e 1087) as [Hsmall|]; [|done]. exfalso.
      assert (2 ^ (e - 1022) <= 2 ^ 64) by (apply Z.pow_le_mono_r; lia).
      lia.
Qed.

(** X18.  Which time stamps [read_dump] can turn into the branch
    [TimeStamp], and what they become.  Take the double in bytes 14-21 of
    the record, with sign bit, exponent field [e] and fraction field [m].
    The loop body fills [FineTS] with that double as it is.  The
    conversion [static_cast<ULong64_t>(ts_tmp)] gives 0 whenever
    [e < 1023] (a value between -1 and 1, whatever its sign).  For a value
    that is not negative and has [1023 <= e < 1087], which stands for
    [(2^52 + m) * 2^(e - 1075)], it gives the integer part of that value,
    the one integer [t] with [t <= (2^52 + m) * 2^(e - 1075) < t + 1] (the
    statement is this inequality multiplied by 2^1075); [t] has exactly
    [e - 1022] bits.  The conversion is undefined in all other cases, that
    is for values of -1 and below, from 2^64 on, and for the infinities
    and NaN. *)
Theorem time_stamp_conversion (r : list byte) :
  length r = 22%nat ->
  let bits := ReadDump.field r 14 8 in
  let negative := 2 ^ 63 <=? bits in
  let e := (bits / 2 ^ 52) mod 2 ^ 11 in
  let m := bits mod 2 ^ 52 in
  match ReadDump.fill_record r with
  | Some en =>
    ReadDump.FineTS en = bits /\
    ((e < 1023 /\ ReadDump.TimeStamp en = 0) \/
     (negative = false /\ 1023 <= e < 1087 /\
      2 ^ 1075 * ReadDump.TimeStamp en <= (2 ^ 52 + m) * 2 ^ e
        < 2 ^ 1075 * (ReadDump.TimeStamp en + 1) /\
      2 ^ (e - 1023) <= ReadDump.TimeStamp en < 2 ^ (e - 1022)))
  | None => (negative = true /\ 1023 <= e) \/ 1087 <= e
  end.
Proof.
  intros Hr bits negative e m.
  assert (Hb : 0 <= bits < 2 ^ 64).
  { unfold bits, ReadDump.field. apply le64_value.
    rewrite length_take, length_drop. lia. }
  pose proof (double_to_u64_cases bits Hb) as Hc. cbv zeta in Hc.
  fold negative in Hc. fold e in Hc. fold m in Hc.
  unfold ReadDump.fill_record. fold bits.
  destruct (ReadDump.double_to_u64 bits) as [t|]; simpl; [|exact Hc].
  split; [done|exact Hc].
Qed.

(** The sample record: 1234.5 ns, exponent field 1033, becomes 1234. *)
Lemma time_stamp_conversion_witness :
  length sample_record = 22%nat /\
  ReadDump.fill_record sample_record
  = Some (ReadDump.mk_entry 1 2 1234 4653144203864309760 100 50 0) /\
  (4653144203864309760 / 2 ^ 52) mod 2 ^ 11 = 1033 /\
  2 ^ 52 + 4653144203864309760 mod 2 ^ 52 = 1234 * 2 ^ 42 + 2 ^ 41 /\
  2 ^ 1075 * 1234
  <= (2 ^ 52 + 4653144203864309760 mod 2 ^ 52) * 2 ^ 1033
  < 2 ^ 1075 * (1234 + 1).
Proof.
  split; [reflexivity|]. split; [reflexivity|].
  split; [reflexivity|]. split; [reflexivity|].
  pose proof (time_stamp_conversion sample_record eq_refl) as H.
  cbv zeta in H.
  change (ReadDump.fill_record sample_record)
    with (Some (ReadDump.mk_entry 1 2 1234 4653144203864309760 100 50 0))
    in H.
  change (ReadDump.field sample_record 14 8) with 4653144203864309760 in H.
  change ((4653144203864309760 / 2 ^ 52) mod 2 ^ 11) with 1033 in H.
  cbn [ReadDump.TimeStamp] in H.
  destruct H as [_ [[H _] | (_ & _ & H & _)]]; [lia|exact H].
Defined.
